(** * Event processing core of the tracer: filter evaluation and dispatch

    A shallow embedding of [tracee-ebpf/tracee/events_processor.go]:
    [shouldProcessEvent], [processEvent], [removeSocketTail],
    [updateProfile] and [CopyFileByPath], followed by the properties the
    specification states about them.

    Conventions.
    - Go integers are [Z]; the only arithmetic the file performs on them
      ([ctx.Argnum += 1], [pf.Times + 1]) is written with its wrap-around.
    - Go strings are byte strings, here [string].
    - Go maps owned by the core are [gmap]s.
    - [map[string]interface{}] is a map to a tagged union ([value]); a type
      assertion [x.(T)] is an accessor returning [option].
    - A run-time panic (index out of range) is [None].
    - The operating system, the kernel maps, the bounded caches and the
      constants declared in other files of the package are fields of the
      class [Env]; every definition is parametric in it. *)

From Stdlib Require Import ZArith String Ascii List Lia DecimalString.
From Stdlib Require Import DecimalPos DecimalZ.
From stdpp Require Import base option gmap strings list.

Local Open Scope string_scope.
Local Open Scope Z_scope.

(** ** Go primitives used by the file *)

Module Go.

(** [len(s)] *)
Definition len (s : string) : Z := Z.of_nat (String.length s).

(** [s[i]]: panics unless [0 <= i < len(s)]. *)
Definition index (s : string) (i : Z) : option ascii :=
  if (i <? 0) || (len s <=? i) then None else String.get (Z.to_nat i) s.

(** [s[lo:hi]]: panics unless [0 <= lo <= hi <= len(s)]. *)
Definition slice (s : string) (lo hi : Z) : option string :=
  if (lo <? 0) || (hi <? lo) || (len s <? hi) then None
  else Some (String.substring (Z.to_nat lo) (Z.to_nat (hi - lo)) s).

(** [strings.HasPrefix(s, prefix)], as the Go library defines it:
    [len(s) >= len(prefix) && s[0:len(prefix)] == prefix]. *)
Definition HasPrefix (s pre : string) : bool :=
  (len pre <=? len s)
  && String.eqb (String.substring 0 (String.length pre) s) pre.

(** [strconv.Itoa] and the [%d] verb: decimal, with a leading [-]. *)
Definition Itoa (z : Z) : string := NilZero.string_of_int (Z.to_int z).

(** Wrap-around of an unsigned [w]-bit and of a signed [w]-bit integer. *)
Definition wrapU (w z : Z) : Z := z mod 2 ^ w.
Definition wrapS (w z : Z) : Z := (z + 2 ^ (w - 1)) mod 2 ^ w - 2 ^ (w - 1).

(** A Go [error], identified by its message. *)
Definition error : Type := string.

End Go.

(** ** Data model *)

(** Dynamically typed argument values ([interface{}]). *)
Inductive value : Type :=
  | VString (s : string)
  | VInt32 (n : Z)
  | VInt64 (n : Z)
  | VUint32 (n : Z)
  | VUint64 (n : Z).

(** [fmt.Sprint(v)] *)
Definition Sprint (v : value) : string :=
  match v with
  | VString s => s
  | VInt32 n | VInt64 n | VUint32 n | VUint64 n => Go.Itoa n
  end.

(** [x.(string)], [x.(uint32)], [x.(uint64)], [x.(int64)] in their
    two-result form, applied to the result of a map lookup (a missing key
    yields the nil interface, for which every assertion fails). *)
Definition assertString (x : option value) : option string :=
  match x with Some (VString s) => Some s | _ => None end.
Definition assertUint32 (x : option value) : option Z :=
  match x with Some (VUint32 n) => Some n | _ => None end.
Definition assertUint64 (x : option value) : option Z :=
  match x with Some (VUint64 n) => Some n | _ => None end.
Definition assertInt64 (x : option value) : option Z :=
  match x with Some (VInt64 n) => Some n | _ => None end.

(** The fields of [context] the file reads or writes. *)
Record context : Type := {
  EventID : Z;
  Pid : Z;
  HostPid : Z;
  MntID : Z;
  Ts : Z;
  Retval : Z;
  Argnum : Z
}.

Definition set_Argnum (n : Z) (c : context) : context :=
  {| EventID := EventID c; Pid := Pid c; HostPid := HostPid c;
     MntID := MntID c; Ts := Ts c; Retval := Retval c; Argnum := n |}.

Module IntFilter.
Record t : Type := {
  Equal : list Z;
  NotEqual : list Z;
  Greater : Z;
  Less : Z
}.
End IntFilter.

Module ArgFilterVal.
Record t : Type := {
  Equal : list string;
  NotEqual : list string
}.
End ArgFilterVal.

Module RetFilter.
Record t : Type := {
  Filters : gmap Z IntFilter.t;
  Enabled : bool
}.
End RetFilter.

(** The inner map of [ArgFilter.Filters] is only ever ranged over.  Go leaves
    the order of a range over a map unspecified, so the inner map is
    represented by its entries in the order the range statement visits
    them; the results below hold for every such order.  A missing event
    identifier yields the nil map, which ranges over nothing. *)
Module ArgFilter.
Record t : Type := {
  Filters : gmap Z (list (string * ArgFilterVal.t));
  Enabled : bool
}.
End ArgFilter.

Module Filter.
Record t : Type := {
  RetFilter : RetFilter.t;
  ArgFilter : ArgFilter.t
}.
End Filter.

Module CaptureConfig.
Record t : Type := {
  FileWrite : bool;
  Exec : bool;
  Profile : bool;
  OutputPath : string
}.
End CaptureConfig.

Module OutputConfig.
Record t : Type := {
  ExecHash : bool
}.
End OutputConfig.

Module Config.
Record t : Type := {
  Filter : Filter.t;
  Capture : CaptureConfig.t;
  Output : OutputConfig.t
}.
End Config.

Record ArgMeta : Type := {
  Name : string;
  Type_ : string
}.

Record fileExecInfo : Type := {
  LastCtime : Z;
  Hash : string
}.

Record profilerInfo : Type := {
  Times : Z;
  FirstExecutionTs : Z
}.

(** ** The environment of the core

    Everything the file uses and does not define: constants and field
    widths declared elsewhere in the package, the bucketed PID index, the
    bounded hash cache, the file system and the kernel tail-call table. *)
Class Env : Type := {
  (** sentinels of [IntFilter] and the event identifiers [processEvent]
      switches on *)
  GreaterNotSetInt : Z;
  LessNotSetInt : Z;
  VfsWriteEventID : Z;
  VfsWritevEventID : Z;
  SchedProcessExecEventID : Z;
  SocketEventID : Z;
  (** a Go expression switch does not compile with duplicate constant cases *)
  eventIDs_distinct :
    NoDup [VfsWriteEventID; VfsWritevEventID; SchedProcessExecEventID; SocketEventID];
  (** widths of [context.Argnum] (unsigned) and [profilerInfo.Times] (signed) *)
  Argnum_bits : Z;
  Times_bits : Z;
  (** [path/filepath] *)
  filepath_Join : string -> string -> string;
  filepath_Base : string -> string;
  (** [t.pidsInMntns] *)
  bucketCache : Type;
  ForceAddBucketItem : Z -> Z -> bucketCache -> bucketCache;
  AddBucketItem : Z -> Z -> bucketCache -> bucketCache;
  GetBucket : Z -> bucketCache -> list Z;
  (** [t.fileHashes]: [Get] may reorder the cache, [Add] may evict *)
  lruCache : Type;
  lru_Get : string -> lruCache -> option fileExecInfo * lruCache;
  lru_Add : string -> fileExecInfo -> lruCache -> lruCache;
  (** the file system *)
  world : Type;
  file : Type;
  os_MkdirAll : string -> world -> option Go.error * world;
  os_Stat : string -> world -> Go.error + bool;
  os_Open : string -> world -> (Go.error + file) * world;
  os_Create : string -> world -> (Go.error + file) * world;
  io_Copy : file -> file -> world -> option Go.error * world;
  file_Close : file -> world -> world;
  getFileHash : string -> world -> string;
  (** [t.bpfModule] and the kernel map behind it, [t.handleError] *)
  bpfMap : Type;
  bpf_GetMap : string -> world -> Go.error + bpfMap;
  bpf_GetValue : bpfMap -> Z -> world -> option Go.error;
  bpf_DeleteKey : bpfMap -> Z -> world -> option Go.error * world;
  handleError : Go.error -> world -> world
}.

(** ** [shouldProcessEvent] *)

Section FilterEvaluator.
Context `{Env}.

(** Lines 31-50: the body guarded by the lookup of the return-value
    filter; [false] stands for [return false], [true] for falling
    through. *)
Definition retFilterPasses (filter : IntFilter.t) (retVal : Z) : bool :=
  let match_ := existsb (Z.eqb retVal) (IntFilter.Equal filter) in
  if negb match_ && (0 <? Z.of_nat (length (IntFilter.Equal filter))) then false
  else if existsb (Z.eqb retVal) (IntFilter.NotEqual filter) then false
  else if negb (IntFilter.Greater filter =? GreaterNotSetInt)
          && (retVal <=? IntFilter.Greater filter) then false
  else if negb (IntFilter.Less filter =? LessNotSetInt)
          && (retVal >=? IntFilter.Less filter) then false
  else true.

(** The condition of lines 64 and 73, with Go's left-to-right
    short-circuit evaluation:
    [argValStr == f || (f[len(f)-1] == '*' && strings.HasPrefix(argValStr, f[0:len(f)-1]))]. *)
Definition patternMatches (argValStr f : string) : option bool :=
  if String.eqb argValStr f then Some true
  else
    c ← Go.index f (Go.len f - 1);
    if Ascii.eqb c "*"%char then
      pre ← Go.slice f 0 (Go.len f - 1);
      Some (Go.HasPrefix argValStr pre)
    else Some false.

(** The two loops over [filter.Equal] and [filter.NotEqual]: both stop at
    the first pattern that matches. *)
Fixpoint anyPatternMatches (argValStr : string) (fs : list string) : option bool :=
  match fs with
  | [] => Some false
  | f :: fs' =>
      b ← patternMatches argValStr f;
      if b : bool then Some true else anyPatternMatches argValStr fs'
  end.

(** One iteration of the loop of line 55: [Some false] is [return false],
    [Some true] is going on with the next entry. *)
Definition argFilterEntry (args : gmap string value)
    (entry : string * ArgFilterVal.t) : option bool :=
  let (argName, filter) := entry in
  match args !! argName with
  | None => Some true
  | Some argVal =>
      let argValStr := Sprint argVal in
      match_ ← anyPatternMatches argValStr (ArgFilterVal.Equal filter);
      if negb match_ && (0 <? Z.of_nat (length (ArgFilterVal.Equal filter)))
      then Some false
      else
        rejected ← anyPatternMatches argValStr (ArgFilterVal.NotEqual filter);
        if rejected : bool then Some false else Some true
  end.

Fixpoint argFilterLoop (args : gmap string value)
    (entries : list (string * ArgFilterVal.t)) : option bool :=
  match entries with
  | [] => Some true
  | entry :: rest =>
      go_on ← argFilterEntry args entry;
      if go_on : bool then argFilterLoop args rest else Some false
  end.

(** Lines 27-52. *)
Definition retFilterStage (cfg : Config.t) (ctx : context) : bool :=
  let rf := Filter.RetFilter (Config.Filter cfg) in
  if RetFilter.Enabled rf then
    match RetFilter.Filters rf !! EventID ctx with
    | Some filter => retFilterPasses filter (Retval ctx)
    | None => true
    end
  else true.

(** Lines 54-78. *)
Definition argFilterStage (cfg : Config.t) (ctx : context)
    (args : gmap string value) : option bool :=
  let af := Filter.ArgFilter (Config.Filter cfg) in
  if ArgFilter.Enabled af then
    argFilterLoop args (default [] (ArgFilter.Filters af !! EventID ctx))
  else Some true.

Definition shouldProcessEvent (cfg : Config.t) (ctx : context)
    (args : gmap string value) : option bool :=
  if retFilterStage cfg ctx then argFilterStage cfg ctx args else Some false.

(** Evaluating a list of patterns against [v] arrives at an empty
    pattern: the list has one, and none of the patterns before it
    matches. *)
Definition reachesEmptyPattern (v : string) (fs : list string) : Prop :=
  exists fs1 fs2 : list string,
    fs = (fs1 ++ EmptyString :: fs2)%list
    /\ anyPatternMatches v fs1 = Some false.

(** The same for one entry: in its accept-list, or in its reject-list when
    the accept-list lets the value through. *)
Definition entryReachesEmptyPattern (v : string) (filter : ArgFilterVal.t)
    : Prop :=
  reachesEmptyPattern v (ArgFilterVal.Equal filter)
  \/ ((ArgFilterVal.Equal filter = []
       \/ anyPatternMatches v (ArgFilterVal.Equal filter) = Some true)
      /\ reachesEmptyPattern v (ArgFilterVal.NotEqual filter)).

(** No configured pattern is the empty string. *)
Definition patternsNonEmpty (entries : list (string * ArgFilterVal.t)) : Prop :=
  Forall (fun e : string * ArgFilterVal.t =>
            Forall (fun f => f <> EmptyString) (ArgFilterVal.Equal (snd e))
            /\ Forall (fun f => f <> EmptyString) (ArgFilterVal.NotEqual (snd e)))
         entries.

End FilterEvaluator.

(** ** State of the processing core *)

(** Calls made to collaborators.  The log is ghost state: the program
    never reads it; the properties below count calls in it. *)
Inductive call : Type :=
  | CallMkdirAll (path : string)
  | CallCopyFileByPath (src dst : string)
  | CallGetFileHash (path : string)
  | CallGetMap (name : string)
  | CallGetValue (key : Z)
  | CallDeleteKey (key : Z)
  | CallHandleError (e : Go.error).

Definition isCopy (c : call) : bool :=
  match c with CallCopyFileByPath _ _ => true | _ => false end.
Definition isHash (c : call) : bool :=
  match c with CallGetFileHash _ => true | _ => false end.
Definition isGetMap (c : call) : bool :=
  match c with CallGetMap _ => true | _ => false end.
Definition isDeleteKey (c : call) : bool :=
  match c with CallDeleteKey _ => true | _ => false end.

Definition count (p : call -> bool) (l : list call) : nat :=
  length (List.filter p l).

(** [updateProfile], on the map it updates. *)
Definition updateProfile `{Env} (sourceFilePath : string) (executionTs : Z)
    (profiledFiles : gmap string profilerInfo) : gmap string profilerInfo :=
  match profiledFiles !! sourceFilePath with
  | None =>
      <[sourceFilePath := {| Times := 1; FirstExecutionTs := executionTs |}]>
        profiledFiles
  | Some pf =>
      <[sourceFilePath := {| Times := Go.wrapS Times_bits (Times pf + 1);
                             FirstExecutionTs := FirstExecutionTs pf |}]>
        profiledFiles
  end.

(** [CopyFileByPath], on the file system.  The deferred [Close] calls run
    in reverse order on every path that registered them. *)
Definition CopyFileByPath `{Env} (src dst : string) (w : world)
    : option Go.error * world :=
  match os_Stat src w with
  | inl e => (Some e, w)
  | inr isRegular =>
      if negb isRegular then (Some (src ++ " is not a regular file")%string, w)
      else
        match os_Open src w with
        | (inl e, w1) => (Some e, w1)
        | (inr source, w1) =>
            match os_Create dst w1 with
            | (inl e, w2) => (Some e, file_Close source w2)
            | (inr destination, w2) =>
                let (e, w3) := io_Copy destination source w2 in
                (e, file_Close source (file_Close destination w3))
            end
        end
  end.

(** The outcome of a statement: it completes with a value, or it makes the
    enclosing function return (with an error or with nil). *)
Inductive outcome (A : Type) : Type :=
  | Next (a : A)
  | Return (e : option Go.error).
Arguments Next {A} a.
Arguments Return {A} e.

(** How the body of a range loop ends: with [break], or by reaching its
    end, which moves on to the next element. *)
Inductive ctl : Type := Break | Continue.

Section Dispatcher.
Context `{Env}.

(** The receiver [t *Tracee], the package variable
    [removeSocketTailOnce] (its [done] flag), the world outside the
    process, and the ghost log. *)
Record state : Type := {
  config : Config.t;
  writtenFiles : gmap string string;
  capturedFiles : gmap string Z;
  profiledFiles : gmap string profilerInfo;
  fileHashes : lruCache;
  pidsInMntns : bucketCache;
  removeSocketTailOnce : bool;
  os : world;
  calls : list call
}.

Definition set_writtenFiles (x : gmap string string) (s : state) : state :=
  {| config := config s; writtenFiles := x; capturedFiles := capturedFiles s;
     profiledFiles := profiledFiles s; fileHashes := fileHashes s;
     pidsInMntns := pidsInMntns s; removeSocketTailOnce := removeSocketTailOnce s;
     os := os s; calls := calls s |}.
Definition set_capturedFiles (x : gmap string Z) (s : state) : state :=
  {| config := config s; writtenFiles := writtenFiles s; capturedFiles := x;
     profiledFiles := profiledFiles s; fileHashes := fileHashes s;
     pidsInMntns := pidsInMntns s; removeSocketTailOnce := removeSocketTailOnce s;
     os := os s; calls := calls s |}.
Definition set_profiledFiles (x : gmap string profilerInfo) (s : state) : state :=
  {| config := config s; writtenFiles := writtenFiles s;
     capturedFiles := capturedFiles s; profiledFiles := x;
     fileHashes := fileHashes s; pidsInMntns := pidsInMntns s;
     removeSocketTailOnce := removeSocketTailOnce s; os := os s; calls := calls s |}.
Definition set_fileHashes (x : lruCache) (s : state) : state :=
  {| config := config s; writtenFiles := writtenFiles s;
     capturedFiles := capturedFiles s; profiledFiles := profiledFiles s;
     fileHashes := x; pidsInMntns := pidsInMntns s;
     removeSocketTailOnce := removeSocketTailOnce s; os := os s; calls := calls s |}.
Definition set_pidsInMntns (x : bucketCache) (s : state) : state :=
  {| config := config s; writtenFiles := writtenFiles s;
     capturedFiles := capturedFiles s; profiledFiles := profiledFiles s;
     fileHashes := fileHashes s; pidsInMntns := x;
     removeSocketTailOnce := removeSocketTailOnce s; os := os s; calls := calls s |}.
Definition set_removeSocketTailOnce (x : bool) (s : state) : state :=
  {| config := config s; writtenFiles := writtenFiles s;
     capturedFiles := capturedFiles s; profiledFiles := profiledFiles s;
     fileHashes := fileHashes s; pidsInMntns := pidsInMntns s;
     removeSocketTailOnce := x; os := os s; calls := calls s |}.
Definition set_os (x : world) (s : state) : state :=
  {| config := config s; writtenFiles := writtenFiles s;
     capturedFiles := capturedFiles s; profiledFiles := profiledFiles s;
     fileHashes := fileHashes s; pidsInMntns := pidsInMntns s;
     removeSocketTailOnce := removeSocketTailOnce s; os := x; calls := calls s |}.
(** a call is logged at the end of the log *)
Definition log (c : call) (s : state) : state :=
  {| config := config s; writtenFiles := writtenFiles s;
     capturedFiles := capturedFiles s; profiledFiles := profiledFiles s;
     fileHashes := fileHashes s; pidsInMntns := pidsInMntns s;
     removeSocketTailOnce := removeSocketTailOnce s; os := os s;
     calls := calls s ++ [c] |}.

(** What one call of [processEvent] works on: the core's state, the three
    objects it receives by reference, and its local variable [err]. *)
Record frame : Type := {
  st : state;
  ctx : context;
  args : gmap string value;
  argMetas : list ArgMeta;
  err : option Go.error
}.

Definition on_st (g : state -> state) (f : frame) : frame :=
  {| st := g (st f); ctx := ctx f; args := args f; argMetas := argMetas f;
     err := err f |}.
Definition set_ctx (x : context) (f : frame) : frame :=
  {| st := st f; ctx := x; args := args f; argMetas := argMetas f; err := err f |}.
Definition set_args (x : gmap string value) (f : frame) : frame :=
  {| st := st f; ctx := ctx f; args := x; argMetas := argMetas f; err := err f |}.
Definition set_argMetas (x : list ArgMeta) (f : frame) : frame :=
  {| st := st f; ctx := ctx f; args := args f; argMetas := x; err := err f |}.
Definition set_err (x : option Go.error) (f : frame) : frame :=
  {| st := st f; ctx := ctx f; args := args f; argMetas := argMetas f; err := x |}.

(** *** Statements with early return

    A statement either completes with a value or makes the enclosing
    function return; either way it leaves a frame behind. *)
Definition M (A : Type) : Type := frame -> outcome A * frame.

Definition pure {A} (a : A) : M A := fun f => (Next a, f).
Definition bind {A B} (m : M A) (k : A -> M B) : M B :=
  fun f => match m f with
           | (Next a, f') => k a f'
           | (Return e, f') => (Return e, f')
           end.
Definition return_ {A} (e : option Go.error) : M A := fun f => (Return e, f).
Definition gets {A} (g : frame -> A) : M A := fun f => (Next (g f), f).
Definition modify (g : frame -> frame) : M unit := fun f => (Next tt, g f).
Definition when (b : bool) (m : M unit) : M unit := if b then m else pure tt.

(** the value a function that ran to [Return e] hands to its caller *)
Definition run (m : M unit) (f : frame) : option Go.error * frame :=
  match m f with
  | (Next _, f') => (None, f')
  | (Return e, f') => (e, f')
  end.

(** [for _, x := range xs { body }], where the body ends in [break] or
    falls through to the next element *)
Fixpoint forRange {A} (xs : list A) (body : A -> M ctl) : M unit :=
  match xs with
  | [] => pure tt
  | x :: xs' =>
      bind (body x) (fun c =>
        match c with
        | Break => pure tt
        | Continue => forRange xs' body
        end)
  end.

End Dispatcher.

Notation "'let!' x ':=' m 'in' k" := (bind m (fun x => k))
  (at level 10, x name, m at level 100, k at level 200).
Notation "m '>>' k" := (bind m (fun _ => k))
  (at level 100, k at level 200, right associativity).

(** ** [removeSocketTail], [processEvent] *)

Section ProcessEvent.
Context `{Env}.

(** [x, ok := ...; if !ok { return e }] *)
Definition orReturn {A} (x : option A) (e : option Go.error) : M A :=
  match x with
  | Some a => pure a
  | None => return_ e
  end.

(** Lines 94 and 133: the path is empty or its first byte is not [/]. *)
Definition emptyOrRelative (filePath : string) : bool :=
  match filePath with
  | EmptyString => true
  | String c _ => negb (Ascii.eqb c "/"%char)
  end.

(** Calls to collaborators from inside [processEvent]. *)
Definition MkdirAll (path : string) : M (option Go.error) :=
  fun f =>
    let (e, w) := os_MkdirAll path (os (st f)) in
    (Next e, on_st (fun s => set_os w (log (CallMkdirAll path) s)) f).

Definition callCopyFileByPath (src dst : string) : M (option Go.error) :=
  fun f =>
    let (e, w) := CopyFileByPath src dst (os (st f)) in
    (Next e, on_st (fun s => set_os w (log (CallCopyFileByPath src dst) s)) f).

Definition callGetFileHash (path : string) : M string :=
  fun f =>
    (Next (getFileHash path (os (st f))), on_st (log (CallGetFileHash path)) f).

Definition fileHashes_Get (key : string) : M (option fileExecInfo) :=
  fun f =>
    let (r, c) := lru_Get key (fileHashes (st f)) in
    (Next r, on_st (set_fileHashes c) f).

Definition fileHashes_Add (key : string) (v : fileExecInfo) : M unit :=
  modify (on_st (fun s => set_fileHashes (lru_Add key v (fileHashes s)) s)).

(** Lines 210-224.  [uint32(SocketEventID)] converts a constant, which
    compiles only if the constant is representable: the key is the
    constant itself. *)
Definition removeSocketTail (s : state) : state :=
  let s1 := log (CallGetMap "sys_exit_tails") s in
  match bpf_GetMap "sys_exit_tails" (os s1) with
  | inl _ => s1
  | inr bpfMap =>
      let eU32 := SocketEventID in
      let s2 := log (CallGetValue eU32) s1 in
      match bpf_GetValue bpfMap eU32 (os s2) with
      | Some _ => s2
      | None =>
          let (e, w) := bpf_DeleteKey bpfMap eU32 (os s2) in
          let s3 := set_os w (log (CallDeleteKey eU32) s2) in
          match e with
          | Some e' => set_os (handleError e' (os s3)) (log (CallHandleError e') s3)
          | None => s3
          end
      end
  end.

(** [removeSocketTailOnce.Do(fn)]: [sync.Once] runs [fn] if its flag is
    clear and sets the flag when [fn] has returned. *)
Definition removeSocketTailOnce_Do (fn : state -> state) (s : state) : state :=
  if removeSocketTailOnce s then s
  else set_removeSocketTailOnce true (fn s).

(** Line 142: [fmt.Sprintf("/proc/%s/root%s", strconv.Itoa(int(pid)), filePath)] *)
Definition sourcePath (pid : Z) (filePath : string) : string :=
  ("/proc/" ++ Go.Itoa pid ++ "/root" ++ filePath)%string.

(** Line 148: [fmt.Sprintf("%d:%s", ctx.MntID, sourceFilePath)] *)
Definition capturedID (mntID : Z) (sourceFilePath : string) : string :=
  (Go.Itoa mntID ++ ":" ++ sourceFilePath)%string.

(** Line 107: [fmt.Sprintf("%d/write.dev-%d.inode-%d", ctx.MntID, dev, inode)] *)
Definition writtenFileName (mntID dev inode : Z) : string :=
  (Go.Itoa mntID ++ "/write.dev-" ++ Go.Itoa dev
   ++ ".inode-" ++ Go.Itoa inode)%string.

(** [fmt.Errorf("error parsing vfs_write args")] *)
Definition parseWriteError : option Go.error :=
  Some "error parsing vfs_write args".

(** Line 192: [external.ArgMeta{"sha256", "const char*"}] *)
Definition hashMeta : ArgMeta := {| Name := "sha256"; Type_ := "const char*" |}.

(** Lines 88-115. *)
Definition writeCase : M unit :=
  let! cfg := gets (fun f => config (st f)) in
  when (CaptureConfig.FileWrite (Config.Capture cfg)) (
    let! a := gets args in
    let! filePath := orReturn (assertString (a !! "pathname")) parseWriteError in
    if emptyOrRelative filePath then return_ None
    else
      let! dev := orReturn (assertUint32 (a !! "dev")) parseWriteError in
      let! inode := orReturn (assertUint64 (a !! "inode")) parseWriteError in
      let! c := gets ctx in
      let fileName := writtenFileName (MntID c) dev inode in
      let! wf := gets (fun f => writtenFiles (st f)) in
      match wf !! fileName with
      | Some indexName =>
          if String.eqb indexName filePath then return_ None
          else modify (on_st (set_writtenFiles (<[fileName := filePath]> wf)))
      | None => modify (on_st (set_writtenFiles (<[fileName := filePath]> wf)))
      end).

(** Lines 161-171: the file is copied unless the record shows the current
    change-time. *)
Definition captureCopy (sourceFilePath destinationFilePath capturedFileID : string)
    (sourceFileCtime : Z) : M unit :=
  let! cf := gets (fun f => capturedFiles (st f)) in
  when (match cf !! capturedFileID with
        | None => true
        | Some lastCtime => negb (lastCtime =? sourceFileCtime)
        end) (
    let! e := callCopyFileByPath sourceFilePath destinationFilePath in
    modify (set_err e) >>
    match e with
    | Some _ => return_ e
    | None =>
        modify (on_st (fun s =>
          set_capturedFiles
            (<[capturedFileID := sourceFileCtime]> (capturedFiles s)) s))
    end).

(** Line 150: [filepath.Join(t.config.Capture.OutputPath, strconv.Itoa(int(ctx.MntID)))] *)
Definition destinationDir (cfg : Config.t) (c : context) : string :=
  filepath_Join (CaptureConfig.OutputPath (Config.Capture cfg))
                (Go.Itoa (MntID c)).

(** Line 154: [filepath.Join(destinationDirPath,
    fmt.Sprintf("exec.%d.%s", ctx.Ts, filepath.Base(filePath)))] *)
Definition destinationFile (cfg : Config.t) (c : context)
    (filePath : string) : string :=
  filepath_Join (destinationDir cfg c)
    ("exec." ++ Go.Itoa (Ts c) ++ "." ++ filepath_Base filePath)%string.

(** Line 158: the key of the profile record,
    [fmt.Sprintf("%s:%d", filepath.Join(destinationDirPath,
    fmt.Sprintf("exec.%s", filepath.Base(filePath))), sourceFileCtime)] *)
Definition profileKey (cfg : Config.t) (c : context) (filePath : string)
    (sourceFileCtime : Z) : string :=
  (filepath_Join (destinationDir cfg c) ("exec." ++ filepath_Base filePath)
   ++ ":" ++ Go.Itoa sourceFileCtime)%string.

(** Lines 149-172: the capture block of the loop body. *)
Definition captureExec (filePath sourceFilePath capturedFileID : string)
    (sourceFileCtime : Z) : M unit :=
  let! cfg := gets (fun f => config (st f)) in
  let! c := gets ctx in
  let! e := MkdirAll (destinationDir cfg c) in
  match e with
  | Some e' => return_ (Some e')
  | None =>
      when (CaptureConfig.Profile (Config.Capture cfg))
        (modify (on_st (fun s =>
           set_profiledFiles
             (updateProfile (profileKey cfg c filePath sourceFileCtime)
                (Ts c) (profiledFiles s)) s))) >>
      captureCopy sourceFilePath (destinationFile cfg c filePath)
        capturedFileID sourceFileCtime
  end.

(** Lines 174-196: the hash block of the loop body. *)
Definition hashExec (sourceFilePath capturedFileID : string)
    (sourceFileCtime : Z) : M unit :=
  let! hit := fileHashes_Get capturedFileID in
  let recompute : M string :=
    let! h := callGetFileHash sourceFilePath in
    fileHashes_Add capturedFileID {| LastCtime := sourceFileCtime; Hash := h |} >>
    pure h in
  let! currentHash :=
    match hit with
    | Some hashInfoObj =>
        if LastCtime hashInfoObj =? sourceFileCtime
        then pure (Hash hashInfoObj)
        else recompute
    | None => recompute
    end in
  modify (fun f => set_argMetas (argMetas f ++ [hashMeta]) f) >>
  modify (fun f =>
    set_ctx (set_Argnum (Go.wrapU Argnum_bits (Argnum (ctx f) + 1)) (ctx f)) f) >>
  modify (fun f => set_args (<["sha256" := VString currentHash]> (args f)) f).

(** Lines 140-199: the body of the loop over the bucket. *)
Definition execBody (filePath : string) (pid : Z) : M ctl :=
  modify (set_err None) >>
  let! cfg := gets (fun f => config (st f)) in
  let! c := gets ctx in
  let sourceFilePath := sourcePath pid filePath in
  let! a := gets args in
  let! sourceFileCtime :=
    orReturn (assertInt64 (a !! "ctime"))
      (Some "error parsing sched_process_exec args: ctime") in
  let capturedFileID := capturedID (MntID c) sourceFilePath in
  when (CaptureConfig.Exec (Config.Capture cfg))
    (captureExec filePath sourceFilePath capturedFileID sourceFileCtime) >>
  when (OutputConfig.ExecHash (Config.Output cfg))
    (hashExec sourceFilePath capturedFileID sourceFileCtime) >>
  pure Break.

(** Lines 119-124: the process is recorded in the bucket of its mount
    namespace. *)
Definition cachePid (c : context) (s : state) : state :=
  set_pidsInMntns
    ((if Pid c =? 1 then ForceAddBucketItem else AddBucketItem)
       (MntID c) (HostPid c) (pidsInMntns s)) s.

(** Lines 119-201. *)
Definition execCase : M unit :=
  let! c := gets ctx in
  modify (on_st (cachePid c)) >>
  let! cfg := gets (fun f => config (st f)) in
  when (CaptureConfig.Exec (Config.Capture cfg)
        || OutputConfig.ExecHash (Config.Output cfg)) (
    let! a := gets args in
    let! filePath := orReturn (assertString (a !! "pathname"))
                       (Some "error parsing sched_process_exec args") in
    if emptyOrRelative filePath then return_ None
    else
      modify (set_err None) >>
      let! pids := gets (fun f => GetBucket (MntID c) (pidsInMntns (st f))) in
      forRange pids (execBody filePath) >>
      let! e := gets err in
      return_ e).

(** Line 204. *)
Definition socketCase : M unit :=
  modify (on_st (removeSocketTailOnce_Do removeSocketTail)).

Definition processEventBody : M unit :=
  let! c := gets ctx in
  (if (EventID c =? VfsWriteEventID) || (EventID c =? VfsWritevEventID)
   then writeCase
   else if EventID c =? SchedProcessExecEventID then execCase
   else if EventID c =? SocketEventID then socketCase
   else pure tt) >>
  return_ None.

(** [t.processEvent(ctx, args, argMetas)]: the returned error and the
    frame the call leaves behind. *)
Definition processEvent (s : state) (c : context) (a : gmap string value)
    (metas : list ArgMeta) : option Go.error * frame :=
  run processEventBody
    {| st := s; ctx := c; args := a; argMetas := metas; err := None |}.

(** Events handed to [processEvent] one after the other; the state left
    by one call is the state the next one starts in. *)
Fixpoint deliver (s : state)
    (events : list (context * gmap string value * list ArgMeta)) : state :=
  match events with
  | [] => s
  | (c, a, metas) :: rest => deliver (st (snd (processEvent s c a metas))) rest
  end.

(** *** Notions used to state the properties *)

(** The event is a process-exec event whose processing arrives at the loop
    body with candidate [pid]: capture or hashing is on, [pathname] is an
    absolute path, [ctime] is a signed 64-bit value, and [pid] heads the
    bucket of the event's mount namespace. *)
Definition execReaches (s : state) (c : context) (a : gmap string value)
    (filePath : string) (pid ct : Z) : Prop :=
  EventID c = SchedProcessExecEventID
  /\ CaptureConfig.Exec (Config.Capture (config s))
     || OutputConfig.ExecHash (Config.Output (config s)) = true
  /\ assertString (a !! "pathname") = Some filePath
  /\ emptyOrRelative filePath = false
  /\ assertInt64 (a !! "ctime") = Some ct
  /\ head (GetBucket (MntID c) (pidsInMntns (cachePid c s))) = Some pid.

(** The hash the cache offers for a change-time: the stored one if the
    entry exists and its change-time is the current one. *)
Definition cachedHash (hit : option fileExecInfo) (ct : Z) : option string :=
  match hit with
  | Some hashInfoObj =>
      if LastCtime hashInfoObj =? ct then Some (Hash hashInfoObj) else None
  | None => None
  end.

(** What the tail-call pruner leaves in a state: the flag of the one-time
    guard and its calls to the kernel table. *)
Definition prunerView (f : frame) : bool * list call * list call :=
  (removeSocketTailOnce (st f),
   List.filter isGetMap (calls (st f)),
   List.filter isDeleteKey (calls (st f))).

(** What the hash block of an exec event reads and writes: the three
    objects of the event, the hash cache and the hash computations. *)
Definition hashView (f : frame)
    : context * gmap string value * list ArgMeta * lruCache * list call :=
  (ctx f, args f, argMetas f, fileHashes (st f),
   List.filter isHash (calls (st f))).

(** What the capture block reads and writes: the local [err], the
    Captured-File records and the copies. *)
Definition captureView (f : frame)
    : option Go.error * gmap string Z * list call :=
  (err f, capturedFiles (st f), List.filter isCopy (calls (st f))).

Definition configView (f : frame) : Config.t := config (st f).

(** The body of a loop never falls through to the next element. *)
Definition endsInBreak (m : M ctl) : Prop :=
  forall f c f', m f = (Next c, f') -> c = Break.

(** A statement leaves a view of the frame as it found it. *)
Definition preserves {V A : Type} (view : frame -> V) (m : M A) : Prop :=
  forall f, view (snd (m f)) = view f.

End ProcessEvent.

(** ** A concrete environment

    A small instance of [Env] on which the definitions run: a file system
    that is a list of regular files, a kernel table that is a list of
    keys, unbounded-enough caches.  It is used for the examples only; the
    general results hold for every environment. *)
Module Demo.

Record host : Type := {
  files : list string;
  tails : list Z
}.

Definition isFile (p : string) (w : host) : bool :=
  existsb (String.eqb p) (files w).

Fixpoint lastElement (acc s : string) : string :=
  match s with
  | EmptyString => acc
  | String c s' =>
      if Ascii.eqb c "/"%char then lastElement EmptyString s'
      else lastElement (acc ++ String c EmptyString)%string s'
  end.

Definition bucketLimit : nat := 4.

Definition addBucketItem (force : bool) (key v : Z) (b : gmap Z (list Z))
    : gmap Z (list Z) :=
  let l := default [] (b !! key) in
  if (length l <? bucketLimit)%nat then <[key := (l ++ [v])%list]> b
  else if force then <[key := v :: tail l]> b else b.

Definition env : Env := {|
  GreaterNotSetInt := 9223372036854775807;
  LessNotSetInt := -9223372036854775808;
  VfsWriteEventID := 1018;
  VfsWritevEventID := 1019;
  SchedProcessExecEventID := 1004;
  SocketEventID := 41;
  eventIDs_distinct := bool_decide_unpack (NoDup [1018; 1019; 1004; 41]) I;
  Argnum_bits := 8;
  Times_bits := 64;
  filepath_Join := fun a b => (a ++ "/" ++ b)%string;
  filepath_Base := lastElement EmptyString;
  bucketCache := gmap Z (list Z);
  ForceAddBucketItem := addBucketItem true;
  AddBucketItem := addBucketItem false;
  GetBucket := fun key b => default [] (b !! key);
  lruCache := gmap string fileExecInfo;
  lru_Get := fun key c => (c !! key, c);
  lru_Add := fun key v c => <[key := v]> c;
  world := host;
  file := string;
  os_MkdirAll := fun _ w => (None, w);
  os_Stat := fun p w =>
    if isFile p w then inr true
    else inl ("stat " ++ p ++ ": no such file or directory")%string;
  os_Open := fun p w =>
    if isFile p w then (inr p, w)
    else (inl ("open " ++ p ++ ": no such file or directory")%string, w);
  os_Create := fun p w => (inr p, {| files := p :: files w; tails := tails w |});
  io_Copy := fun _ _ w => (None, w);
  file_Close := fun _ w => w;
  getFileHash := fun p w =>
    if isFile p w
    then "e3b0c44298fc1c149afbf4c8996fb92427ae41e4649b934ca495991b7852b855"
    else EmptyString;
  bpfMap := unit;
  bpf_GetMap := fun name w =>
    if String.eqb name "sys_exit_tails" then inr tt
    else inl "map not found";
  bpf_GetValue := fun _ key w =>
    if existsb (Z.eqb key) (tails w) then None else Some "key does not exist";
  bpf_DeleteKey := fun _ key w =>
    (None, {| files := files w;
              tails := List.filter (fun k => negb (k =? key)) (tails w) |});
  handleError := fun _ w => w
|}.

Definition config0 (fileWrite exec execHash : bool) : Config.t := {|
  Config.Filter := {|
    Filter.RetFilter := {| RetFilter.Filters := ∅; RetFilter.Enabled := false |};
    Filter.ArgFilter := {| ArgFilter.Filters := ∅; ArgFilter.Enabled := false |} |};
  Config.Capture := {|
    CaptureConfig.FileWrite := fileWrite; CaptureConfig.Exec := exec;
    CaptureConfig.Profile := false; CaptureConfig.OutputPath := "/tmp/tracee/out" |};
  Config.Output := {| OutputConfig.ExecHash := execHash |}
|}.

(** a state with nothing indexed, captured or cached *)
Definition mkstate (cfg : Config.t) (buckets : gmap Z (list Z))
    (cache : gmap string fileExecInfo) (w : host) : @state env :=
  @Build_state env cfg ∅ ∅ ∅ cache buckets false w [].

(** a state with nothing indexed, captured or cached *)
Definition state0 (cfg : Config.t) (buckets : gmap Z (list Z))
    (w : host) : @state env :=
  mkstate cfg buckets ∅ w.

Definition mkctx (eventID pid hostPid mntID : Z) : context := {|
  EventID := eventID; Pid := pid; HostPid := hostPid; MntID := mntID;
  Ts := 5000; Retval := 0; Argnum := 2
|}.

(** **** Inputs of the examples *)

(** Process 200 is alive in mount namespace 7 and sees [/bin/ls]; the
    kernel table holds the socket entry. *)
Definition w1 : host :=
  {| files := ["/proc/200/root/bin/ls"]; tails := [41] |}.

Definition execCtx : context := mkctx 1004 300 200 7.
Definition writeCtx : context := mkctx 1018 300 200 7.
Definition socketCtx : context := mkctx 41 300 200 7.

Definition execArgs (ctime : Z) : gmap string value :=
  {[ "pathname" := VString "/bin/ls"; "ctime" := VInt64 ctime ]}.

Definition writeArgs : gmap string value :=
  {[ "pathname" := VString "/tmp/a"; "dev" := VUint32 8; "inode" := VUint64 100 ]}.

(** Exec-capture on; the bucket of namespace 7 still lists process 100,
    which has exited. *)
Definition staleBucketState : @state env :=
  state0 (config0 false true false) {[ 7 := [100] ]} w1.

(** Hash-on-output on, with a cache entry for [/bin/ls] as seen through
    process 200 at change-time 1000. *)
Definition cachedInfo : fileExecInfo :=
  {| LastCtime := 1000;
     Hash := "9f86d081884c7d659a2feaa0c55ad015a3bf4f1b2b0b822cd15d6c15b0f00a08" |}.

Definition warmCacheState : @state env :=
  mkstate (config0 false false true) ∅
    {[ "7:/proc/200/root/bin/ls" := cachedInfo ]} w1.

(** A return-value filter for write events with both bounds set. *)
Definition retFilter : IntFilter.t :=
  {| IntFilter.Equal := [0; 3]; IntFilter.NotEqual := [5];
     IntFilter.Greater := -1; IntFilter.Less := 10 |}.

Definition retFilterConfig : Config.t := {|
  Config.Filter := {|
    Filter.RetFilter :=
      {| RetFilter.Filters := {[ 1018 := retFilter ]}; RetFilter.Enabled := true |};
    Filter.ArgFilter := {| ArgFilter.Filters := ∅; ArgFilter.Enabled := false |} |};
  Config.Capture := Config.Capture (config0 false false false);
  Config.Output := Config.Output (config0 false false false)
|}.

(** Argument filters for write events. *)
Definition argFilterConfig (entries : list (string * ArgFilterVal.t))
    : Config.t := {|
  Config.Filter := {|
    Filter.RetFilter := {| RetFilter.Filters := ∅; RetFilter.Enabled := false |};
    Filter.ArgFilter :=
      {| ArgFilter.Filters := {[ 1018 := entries ]}; ArgFilter.Enabled := true |} |};
  Config.Capture := Config.Capture (config0 false false false);
  Config.Output := Config.Output (config0 false false false)
|}.

(** Both families configured for write events. *)
Definition bothFiltersConfig (entries : list (string * ArgFilterVal.t))
    : Config.t := {|
  Config.Filter := {|
    Filter.RetFilter :=
      {| RetFilter.Filters := {[ 1018 := retFilter ]}; RetFilter.Enabled := true |};
    Filter.ArgFilter :=
      {| ArgFilter.Filters := {[ 1018 := entries ]}; ArgFilter.Enabled := true |} |};
  Config.Capture := Config.Capture (config0 false false false);
  Config.Output := Config.Output (config0 false false false)
|}.

(** An exec event of process 100, which has exited since. *)
Definition exitedCtx : context := mkctx 1004 300 100 7.

(** A write to a memory-backed file. *)
Definition memfdArgs : gmap string value :=
  {[ "pathname" := VString "memfd:buf"; "dev" := VUint32 8; "inode" := VUint64 100 ]}.

Definition etcFilter : ArgFilterVal.t :=
  {| ArgFilterVal.Equal := ["/etc/*"]; ArgFilterVal.NotEqual := ["/etc/hostname"] |}.
Definition flagsFilter : ArgFilterVal.t :=
  {| ArgFilterVal.Equal := ["O_RDONLY"]; ArgFilterVal.NotEqual := [] |}.
Definition emptyPatternFilter : ArgFilterVal.t :=
  {| ArgFilterVal.Equal := [EmptyString]; ArgFilterVal.NotEqual := [] |}.

End Demo.

(** ** Further notions

    Views of the frame, relations between states and readings of the
    filters, used to state what the code leaves alone, what it keeps and
    what it decides. *)

Section Notions.
Context `{Env}.

Definition isMkdirAll (c : call) : bool :=
  match c with CallMkdirAll _ => true | _ => false end.
Definition isHandleError (c : call) : bool :=
  match c with CallHandleError _ => true | _ => false end.

(** The frame in which a call of [processEvent] starts. *)
Definition enter (s : state) (c : context) (a : gmap string value)
    (metas : list ArgMeta) : frame :=
  {| st := s; ctx := c; args := a; argMetas := metas; err := None |}.

(** A value matches a pattern: it is the pattern, or the pattern ends in
    the wildcard marker and the value starts with what precedes it. *)
Definition matchesPattern (v f : string) : Prop :=
  v = f \/ exists pre rest, f = (pre ++ "*")%string /\ v = (pre ++ rest)%string.

(** An argument filter lets a value through: its accept-list is empty or
    has a pattern the value matches, and its reject-list has none. *)
Definition accepts (filter : ArgFilterVal.t) (v : string) : Prop :=
  (ArgFilterVal.Equal filter = []
   \/ Exists (matchesPattern v) (ArgFilterVal.Equal filter))
  /\ Forall (fun f => ~ matchesPattern v f) (ArgFilterVal.NotEqual filter).

(** A return-value filter lets a value through; a bound holding its
    sentinel is no bound. *)
Definition admits (filter : IntFilter.t) (retVal : Z) : Prop :=
  (IntFilter.Equal filter = [] \/ retVal ∈ IntFilter.Equal filter)
  /\ (retVal ∉ IntFilter.NotEqual filter)
  /\ (IntFilter.Greater filter = GreaterNotSetInt
      \/ IntFilter.Greater filter < retVal)
  /\ (IntFilter.Less filter = LessNotSetInt \/ retVal < IntFilter.Less filter).

(** The three objects of the event. *)
Definition eventView (f : frame) : context * gmap string value * list ArgMeta :=
  (ctx f, args f, argMetas f).

(** The Written-File index. *)
Definition indexView (f : frame) : gmap string string := writtenFiles (st f).

(** The Mount-Namespace PID index. *)
Definition pidsView (f : frame) : bucketCache := pidsInMntns (st f).

(** The profile records. *)
Definition profileView (f : frame) : gmap string profilerInfo :=
  profiledFiles (st f).

(** What exec-capture writes: the Captured-File records, the profile
    records, the copies and the directories made. *)
Definition captureStoreView (f : frame)
    : gmap string Z * gmap string profilerInfo * list call * list call :=
  (capturedFiles (st f), profiledFiles (st f),
   List.filter isCopy (calls (st f)), List.filter isMkdirAll (calls (st f))).

(** Everything but the Written-File index. *)
Definition besidesIndexView (f : frame)
    : Config.t * gmap string Z * gmap string profilerInfo * lruCache
      * bucketCache * bool * world * list call
      * (context * gmap string value * list ArgMeta) :=
  (config (st f), capturedFiles (st f), profiledFiles (st f), fileHashes (st f),
   pidsInMntns (st f), removeSocketTailOnce (st f), os (st f), calls (st f),
   eventView f).

(** No record is dropped: a key of the Written-File index, of the
    Captured-File records or of the profile records stays a key, and a
    profile record keeps its first execution time. *)
Definition recordsKept (s s' : state) : Prop :=
  (forall k, is_Some (writtenFiles s !! k) -> is_Some (writtenFiles s' !! k))
  /\ (forall k, is_Some (capturedFiles s !! k) -> is_Some (capturedFiles s' !! k))
  /\ (forall k pf, profiledFiles s !! k = Some pf ->
        exists pf', profiledFiles s' !! k = Some pf'
                    /\ FirstExecutionTs pf' = FirstExecutionTs pf).

Definition recordsKeptF (f f' : frame) : Prop := recordsKept (st f) (st f').

(** The second state differs from the first at most in the one-time
    guard, the world and the calls to the kernel table and the error
    handler. *)
Definition sameTables (s s' : state) : Prop :=
  config s' = config s /\ writtenFiles s' = writtenFiles s
  /\ capturedFiles s' = capturedFiles s /\ profiledFiles s' = profiledFiles s
  /\ fileHashes s' = fileHashes s /\ pidsInMntns s' = pidsInMntns s
  /\ List.filter isCopy (calls s') = List.filter isCopy (calls s)
  /\ List.filter isMkdirAll (calls s') = List.filter isMkdirAll (calls s)
  /\ List.filter isHash (calls s') = List.filter isHash (calls s).

(** A statement takes every frame to one related to it. *)
Definition steps {A : Type} (R : frame -> frame -> Prop) (m : M A) : Prop :=
  forall f, R f (snd (m f)).

(** The errors [processEvent] makes itself. *)
Definition parseExecError : Go.error := "error parsing sched_process_exec args".
Definition parseCtimeError : Go.error :=
  "error parsing sched_process_exec args: ctime".

End Notions.

(** ** The file system with a record of its handles

    Any environment, extended with a trace of the handles that [os.Open]
    and [os.Create] hand out, of the copies between handles and of the
    handles closed.  [CopyFileByPath] runs on it unchanged. *)
Module Traced.
Section Traced.
Context (E : Env).

Inductive osEvent : Type :=
  | Opened (f : file)
  | Closed (f : file)
  | Copied (destination source : file).

Definition tracedWorld : Type := (world * list osEvent)%type.

Definition handed (r : Go.error + file) : list osEvent :=
  match r with inr f => [Opened f] | inl _ => [] end.

Definition extend : Env := {|
  GreaterNotSetInt := @GreaterNotSetInt E;
  LessNotSetInt := @LessNotSetInt E;
  VfsWriteEventID := @VfsWriteEventID E;
  VfsWritevEventID := @VfsWritevEventID E;
  SchedProcessExecEventID := @SchedProcessExecEventID E;
  SocketEventID := @SocketEventID E;
  eventIDs_distinct := @eventIDs_distinct E;
  Argnum_bits := @Argnum_bits E;
  Times_bits := @Times_bits E;
  filepath_Join := @filepath_Join E;
  filepath_Base := @filepath_Base E;
  bucketCache := @bucketCache E;
  ForceAddBucketItem := @ForceAddBucketItem E;
  AddBucketItem := @AddBucketItem E;
  GetBucket := @GetBucket E;
  lruCache := @lruCache E;
  lru_Get := @lru_Get E;
  lru_Add := @lru_Add E;
  world := tracedWorld;
  file := @file E;
  os_MkdirAll := fun p w =>
    let (e, w') := @os_MkdirAll E p (fst w) in (e, (w', snd w));
  os_Stat := fun p w => @os_Stat E p (fst w);
  os_Open := fun p w =>
    let (r, w') := @os_Open E p (fst w) in (r, (w', (snd w ++ handed r)%list));
  os_Create := fun p w =>
    let (r, w') := @os_Create E p (fst w) in (r, (w', (snd w ++ handed r)%list));
  io_Copy := fun d s w =>
    let (e, w') := @io_Copy E d s (fst w) in (e, (w', (snd w ++ [Copied d s])%list));
  file_Close := fun f w => (@file_Close E f (fst w), (snd w ++ [Closed f])%list);
  getFileHash := fun p w => @getFileHash E p (fst w);
  bpfMap := @bpfMap E;
  bpf_GetMap := fun name w => @bpf_GetMap E name (fst w);
  bpf_GetValue := fun m key w => @bpf_GetValue E m key (fst w);
  bpf_DeleteKey := fun m key w =>
    let (e, w') := @bpf_DeleteKey E m key (fst w) in (e, (w', snd w));
  handleError := fun e w => (@handleError E e (fst w), snd w)
|}.

(** [balanced open evs]: with the handles [open] held, most recent
    first, the trace [evs] closes every handle it holds or is handed, the
    most recent first, copies only between handles it holds, and ends
    holding none. *)
Inductive balanced : list file -> list osEvent -> Prop :=
  | balanced_nil : balanced [] []
  | balanced_open f open evs :
      balanced (f :: open) evs -> balanced open (Opened f :: evs)
  | balanced_close f open evs :
      balanced open evs -> balanced (f :: open) (Closed f :: evs)
  | balanced_copy d s open evs :
      In d open -> In s open -> balanced open evs ->
      balanced open (Copied d s :: evs).

(** The second world's trace extends the first's by a balanced trace:
    every handle handed out in between has been closed. *)
Definition released (w w' : tracedWorld) : Prop :=
  exists evs, snd w' = (snd w ++ evs)%list /\ balanced [] evs.

End Traced.
End Traced.

(** ** More concrete environments

    [Demo.env] with two knobs: the capture root can be read-only, and the
    buckets of the PID index have room for [limit] processes. *)
Module Samples.

Definition addItem (limit : nat) (force : bool) (key v : Z)
    (b : gmap Z (list Z)) : gmap Z (list Z) :=
  let l := default [] (b !! key) in
  if (length l <? limit)%nat then <[key := (l ++ [v])%list]> b
  else if force then <[key := v :: tail l]> b else b.

Definition envWith (readOnly : bool) (limit : nat) : Env := {|
  GreaterNotSetInt := @GreaterNotSetInt Demo.env;
  LessNotSetInt := @LessNotSetInt Demo.env;
  VfsWriteEventID := @VfsWriteEventID Demo.env;
  VfsWritevEventID := @VfsWritevEventID Demo.env;
  SchedProcessExecEventID := @SchedProcessExecEventID Demo.env;
  SocketEventID := @SocketEventID Demo.env;
  eventIDs_distinct := @eventIDs_distinct Demo.env;
  Argnum_bits := @Argnum_bits Demo.env;
  Times_bits := @Times_bits Demo.env;
  filepath_Join := @filepath_Join Demo.env;
  filepath_Base := @filepath_Base Demo.env;
  bucketCache := gmap Z (list Z);
  ForceAddBucketItem := addItem limit true;
  AddBucketItem := addItem limit false;
  GetBucket := fun key b => default [] (b !! key);
  lruCache := @lruCache Demo.env;
  lru_Get := @lru_Get Demo.env;
  lru_Add := @lru_Add Demo.env;
  world := Demo.host;
  file := @file Demo.env;
  os_MkdirAll := fun p w =>
    if readOnly then (Some ("mkdir " ++ p ++ ": read-only file system")%string, w)
    else (None, w);
  os_Stat := @os_Stat Demo.env;
  os_Open := @os_Open Demo.env;
  os_Create := @os_Create Demo.env;
  io_Copy := @io_Copy Demo.env;
  file_Close := @file_Close Demo.env;
  getFileHash := @getFileHash Demo.env;
  bpfMap := @bpfMap Demo.env;
  bpf_GetMap := @bpf_GetMap Demo.env;
  bpf_GetValue := @bpf_GetValue Demo.env;
  bpf_DeleteKey := @bpf_DeleteKey Demo.env;
  handleError := @handleError Demo.env
|}.

Definition stateWith (readOnly : bool) (limit : nat) (cfg : Config.t)
    (buckets : gmap Z (list Z)) (w : Demo.host) : @state (envWith readOnly limit) :=
  @Build_state (envWith readOnly limit) cfg ∅ ∅ ∅ ∅ buckets false w [].

(** Exec-capture and profiling on. *)
Definition profilingConfig : Config.t := {|
  Config.Filter := Config.Filter (Demo.config0 false true false);
  Config.Capture := {|
    CaptureConfig.FileWrite := false; CaptureConfig.Exec := true;
    CaptureConfig.Profile := true; CaptureConfig.OutputPath := "/tmp/tracee/out" |};
  Config.Output := {| OutputConfig.ExecHash := false |}
|}.

(** A return-value filter for write events whose bounds are both unset. *)
Definition unboundedFilter : IntFilter.t :=
  {| IntFilter.Equal := []; IntFilter.NotEqual := [5];
     IntFilter.Greater := @GreaterNotSetInt Demo.env;
     IntFilter.Less := @LessNotSetInt Demo.env |}.

Definition retConfig (filter : IntFilter.t) : Config.t := {|
  Config.Filter := {|
    Filter.RetFilter :=
      {| RetFilter.Filters := {[ 1018 := filter ]}; RetFilter.Enabled := true |};
    Filter.ArgFilter := {| ArgFilter.Filters := ∅; ArgFilter.Enabled := false |} |};
  Config.Capture := Config.Capture (Demo.config0 false false false);
  Config.Output := Config.Output (Demo.config0 false false false)
|}.

End Samples.

(** ** Facts about the Go primitives *)

Lemma append_nil (b : string) : (EmptyString ++ b)%string = b.
Proof. reflexivity. Qed.

Lemma append_cons (c : ascii) (a b : string) :
  (String c a ++ b)%string = String c (a ++ b).
Proof. reflexivity. Qed.

Ltac norm_append := rewrite ?append_nil, ?append_cons.

Lemma len_append (a b : string) : Go.len (a ++ b) = Go.len a + Go.len b.
Proof.
  unfold Go.len. induction a as [|c a IH]; norm_append; simpl String.length; lia.
Qed.

Lemma len_nonneg (a : string) : 0 <= Go.len a.
Proof. unfold Go.len. lia. Qed.

Lemma get_snoc (pre : string) (c : ascii) :
  String.get (String.length pre) (pre ++ String c EmptyString) = Some c.
Proof. induction pre as [|d pre IH]; norm_append; simpl; auto. Qed.

Lemma substring_snoc (pre : string) (c : ascii) :
  String.substring 0 (String.length pre) (pre ++ String c EmptyString) = pre.
Proof.
  induction pre as [|d pre IH]; norm_append; simpl; [reflexivity | now rewrite IH].
Qed.

Lemma substring_append (pre rest : string) :
  String.substring 0 (String.length pre) (pre ++ rest) = pre.
Proof.
  induction pre as [|d pre IH]; norm_append; simpl.
  - destruct rest; reflexivity.
  - now rewrite IH.
Qed.

Lemma substring_prefix_inv (pre : string) :
  forall v : string,
    (String.length pre <= String.length v)%nat ->
    String.substring 0 (String.length pre) v = pre ->
    exists rest, v = (pre ++ rest)%string.
Proof.
  induction pre as [|d pre IH]; intros v Hlen Hsub.
  - exists v. reflexivity.
  - destruct v as [|e v]; simpl in Hlen; [lia|].
    simpl in Hsub. injection Hsub as -> Hsub.
    destruct (IH v ltac:(lia) Hsub) as [rest ->].
    exists rest. reflexivity.
Qed.

Lemma HasPrefix_spec (v pre : string) :
  Go.HasPrefix v pre = true <-> exists rest, v = (pre ++ rest)%string.
Proof.
  unfold Go.HasPrefix. rewrite andb_true_iff, Z.leb_le, String.eqb_eq.
  split.
  - intros [Hlen Hsub]. apply substring_prefix_inv; [|exact Hsub].
    unfold Go.len in Hlen. lia.
  - intros [rest ->]. split.
    + rewrite len_append. pose proof (len_nonneg rest). lia.
    + apply substring_append.
Qed.

Lemma index_last (pre : string) (c : ascii) :
  Go.index (pre ++ String c EmptyString)
           (Go.len (pre ++ String c EmptyString) - 1) = Some c.
Proof.
  unfold Go.index. rewrite len_append.
  change (Go.len (String c EmptyString)) with 1.
  pose proof (len_nonneg pre).
  replace (Go.len pre + 1 - 1) with (Go.len pre) by lia.
  destruct (Z.ltb_spec (Go.len pre) 0); [lia|].
  destruct (Z.leb_spec (Go.len pre + 1) (Go.len pre)); [lia|].
  simpl. unfold Go.len. rewrite Nat2Z.id. apply get_snoc.
Qed.

Lemma slice_init (pre : string) (c : ascii) :
  Go.slice (pre ++ String c EmptyString) 0
           (Go.len (pre ++ String c EmptyString) - 1) = Some pre.
Proof.
  unfold Go.slice. rewrite len_append.
  change (Go.len (String c EmptyString)) with 1.
  pose proof (len_nonneg pre).
  replace (Go.len pre + 1 - 1) with (Go.len pre) by lia.
  destruct (Z.ltb_spec (Go.len pre) 0); [lia|].
  destruct (Z.ltb_spec (Go.len pre + 1) (Go.len pre)); [lia|].
  simpl. rewrite Z.sub_0_r. unfold Go.len. rewrite Nat2Z.id.
  f_equal. apply substring_snoc.
Qed.

Lemma index_empty (i : Z) : Go.index EmptyString i = None.
Proof.
  unfold Go.index. change (Go.len EmptyString) with 0.
  destruct (Z.ltb_spec i 0); [reflexivity|].
  destruct (Z.leb_spec 0 i); [reflexivity | lia].
Qed.

Lemma string_snoc_cases (f : string) :
  f = EmptyString \/ exists pre c, f = (pre ++ String c EmptyString)%string.
Proof.
  induction f as [|d f IH]; [now left | right].
  destruct IH as [-> | (pre & c & ->)].
  - exists EmptyString, d. reflexivity.
  - exists (String d pre), c. reflexivity.
Qed.

(** ** The filter evaluator *)

Section FilterEvaluatorFacts.
Context `{Env}.

Lemma existsb_Zeqb (x : Z) (l : list Z) :
  existsb (Z.eqb x) l = true <-> x ∈ l.
Proof.
  rewrite existsb_exists, list_elem_of_In. split.
  - intros (y & Hin & Heq). apply Z.eqb_eq in Heq. now subst.
  - intros Hin. exists x. split; [exact Hin | apply Z.eqb_refl].
Qed.

Lemma retFilterPasses_conj (filter : IntFilter.t) (retVal : Z) :
  retFilterPasses filter retVal =
    negb (negb (existsb (Z.eqb retVal) (IntFilter.Equal filter))
          && (0 <? Z.of_nat (length (IntFilter.Equal filter))))
    && negb (existsb (Z.eqb retVal) (IntFilter.NotEqual filter))
    && negb (negb (IntFilter.Greater filter =? GreaterNotSetInt)
             && (retVal <=? IntFilter.Greater filter))
    && negb (negb (IntFilter.Less filter =? LessNotSetInt)
             && (retVal >=? IntFilter.Less filter)).
Proof.
  unfold retFilterPasses.
  repeat match goal with
         | |- context [if ?b then _ else _] => destruct b; simpl
         end; reflexivity.
Qed.

Lemma accept_stage_spec (x : Z) (l : list Z) :
  negb (existsb (Z.eqb x) l) && (0 <? Z.of_nat (length l)) = false
  <-> l = [] \/ x ∈ l.
Proof.
  destruct l as [|y l].
  - simpl. split; auto.
  - replace (0 <? Z.of_nat (length (y :: l))) with true
      by (symmetry; apply Z.ltb_lt; simpl length; lia).
    rewrite andb_true_r, negb_false_iff, existsb_Zeqb.
    split; [auto | intros [Hnil | Hin]]; [discriminate | exact Hin].
Qed.

Lemma retFilterPasses_spec (filter : IntFilter.t) (retVal : Z) :
  IntFilter.Greater filter <> GreaterNotSetInt ->
  IntFilter.Less filter <> LessNotSetInt ->
  retFilterPasses filter retVal = true <->
    IntFilter.Greater filter < retVal < IntFilter.Less filter
    /\ (retVal ∉ IntFilter.NotEqual filter)
    /\ (IntFilter.Equal filter = [] \/ retVal ∈ IntFilter.Equal filter).
Proof.
  intros HG HL. rewrite retFilterPasses_conj.
  apply Z.eqb_neq in HG, HL. rewrite HG, HL. simpl (negb false).
  rewrite !(andb_true_l (_ <=? _)), !(andb_true_l (_ >=? _)).
  rewrite !andb_true_iff, !negb_true_iff.
  rewrite accept_stage_spec, <- not_true_iff_false, existsb_Zeqb.
  rewrite Z.leb_gt, Z.geb_leb, Z.leb_gt.
  tauto.
Qed.

(** *** Patterns *)

Lemma patternMatches_wildcard (v pre : string) :
  patternMatches v (pre ++ "*") = Some (Go.HasPrefix v pre).
Proof.
  unfold patternMatches.
  destruct (String.eqb_spec v (pre ++ "*")) as [-> | Hne].
  - symmetry. f_equal. apply HasPrefix_spec. now exists "*"%string.
  - rewrite index_last. simpl. now rewrite slice_init.
Qed.

Lemma patternMatches_exact (v f : string) :
  (forall pre, f <> (pre ++ "*")%string) ->
  patternMatches v f = Some true <-> v = f.
Proof.
  intros Hstar. unfold patternMatches.
  destruct (String.eqb_spec v f) as [-> | Hne]; [tauto|].
  split; [|contradiction]. intros Hm. exfalso.
  destruct (string_snoc_cases f) as [-> | (pre & c & ->)].
  - rewrite index_empty in Hm. discriminate.
  - rewrite index_last in Hm. simpl in Hm.
    destruct (Ascii.eqb_spec c "*"%char) as [Hc | Hc]; [|discriminate].
    subst c. now apply (Hstar pre).
Qed.

Lemma patternMatches_empty_pattern (v : string) :
  v <> EmptyString -> patternMatches v EmptyString = None.
Proof.
  intros Hv. unfold patternMatches.
  destruct (String.eqb_spec v EmptyString); [contradiction|].
  now rewrite index_empty.
Qed.

Lemma patternMatches_total (v f : string) :
  f <> EmptyString -> is_Some (patternMatches v f).
Proof.
  intros Hf. unfold patternMatches.
  destruct (String.eqb v f); [eauto|].
  destruct (string_snoc_cases f) as [-> | (pre & c & ->)]; [contradiction|].
  rewrite index_last. simpl.
  destruct (Ascii.eqb c "*"%char); [|eauto].
  rewrite slice_init. simpl. eauto.
Qed.

Lemma anyPatternMatches_total (v : string) (fs : list string) :
  Forall (fun f => f <> EmptyString) fs -> is_Some (anyPatternMatches v fs).
Proof.
  induction 1 as [|f fs Hf _ IH]; simpl; [eauto|].
  destruct (patternMatches_total v f Hf) as [b ->]. simpl.
  destruct b; [eauto | exact IH].
Qed.

Lemma anyPatternMatches_reaches (v : string) (fs : list string) :
  v <> EmptyString -> reachesEmptyPattern v fs -> anyPatternMatches v fs = None.
Proof.
  intros Hv (fs1 & fs2 & -> & Hpre).
  induction fs1 as [|f fs1 IH]; simpl in *.
  - now rewrite patternMatches_empty_pattern.
  - destruct (patternMatches v f) as [[|]|]; simpl in *; try discriminate.
    now apply IH.
Qed.

(** *** Entries of the argument filter *)

Lemma argFilterEntry_absent (args : gmap string value) (argName : string)
    (filter : ArgFilterVal.t) :
  args !! argName = None -> argFilterEntry args (argName, filter) = Some true.
Proof. intros Habs. unfold argFilterEntry. now rewrite Habs. Qed.

Lemma argFilterLoop_app (args : gmap string value)
    (pre post : list (string * ArgFilterVal.t)) :
  argFilterLoop args (pre ++ post) =
    match argFilterLoop args pre with
    | Some true => argFilterLoop args post
    | r => r
    end.
Proof.
  induction pre as [|e pre IH]; simpl; [reflexivity|].
  destruct (argFilterEntry args e) as [[|]|]; simpl; auto.
Qed.

Lemma argFilterLoop_skip (args : gmap string value) (argName : string)
    (filter : ArgFilterVal.t) (pre post : list (string * ArgFilterVal.t)) :
  args !! argName = None ->
  argFilterLoop args (pre ++ (argName, filter) :: post)
  = argFilterLoop args (pre ++ post).
Proof.
  intros Habs. rewrite !argFilterLoop_app.
  destruct (argFilterLoop args pre) as [[|]|]; try reflexivity.
  cbn [argFilterLoop]. now rewrite argFilterEntry_absent.
Qed.

Lemma argFilterEntry_total (args : gmap string value)
    (entry : string * ArgFilterVal.t) :
  Forall (fun f => f <> EmptyString) (ArgFilterVal.Equal (snd entry)) ->
  Forall (fun f => f <> EmptyString) (ArgFilterVal.NotEqual (snd entry)) ->
  is_Some (argFilterEntry args entry).
Proof.
  destruct entry as [argName filter]. simpl snd. intros Heq Hne.
  unfold argFilterEntry.
  destruct (args !! argName) as [argVal|]; [|eauto].
  destruct (anyPatternMatches_total (Sprint argVal) _ Heq) as [m ->].
  destruct (anyPatternMatches_total (Sprint argVal) _ Hne) as [r ->].
  simpl. destruct (negb m && _); [eauto|]. destruct r; eauto.
Qed.

Lemma argFilterLoop_total (args : gmap string value)
    (entries : list (string * ArgFilterVal.t)) :
  patternsNonEmpty entries -> is_Some (argFilterLoop args entries).
Proof.
  induction 1 as [|entry entries [Heq Hne] _ IH]; cbn [argFilterLoop]; [eauto|].
  destruct (argFilterEntry_total args entry Heq Hne) as [go_on ->]. simpl.
  destruct go_on; [exact IH | eauto].
Qed.

Lemma argFilterEntry_aborts (args : gmap string value) (argName : string)
    (filter : ArgFilterVal.t) (argVal : value) :
  args !! argName = Some argVal ->
  Sprint argVal <> EmptyString ->
  entryReachesEmptyPattern (Sprint argVal) filter ->
  argFilterEntry args (argName, filter) = None.
Proof.
  intros Harg Hv Hreach. unfold argFilterEntry. rewrite Harg.
  destruct Hreach as [Heq | [Hpass Hne]].
  - now rewrite (anyPatternMatches_reaches _ _ Hv Heq).
  - rewrite (anyPatternMatches_reaches _ _ Hv Hne).
    destruct Hpass as [-> | ->]; reflexivity.
Qed.

End FilterEvaluatorFacts.

(** C3, as amended.  For an event whose type has an enabled return-value
    filter with both numeric bounds set (neither is its "unset" sentinel),
    and which the argument filters let through, [shouldProcessEvent]
    answers [true] exactly when the return value lies strictly between the
    bounds, is not in the reject-list, and the accept-list is empty or
    contains it. *)
Theorem shouldProcessEvent_ret_filter_both_bounds `{Env}
    (cfg : Config.t) (ctx : context) (args : gmap string value)
    (filter : IntFilter.t) :
  RetFilter.Enabled (Filter.RetFilter (Config.Filter cfg)) = true ->
  RetFilter.Filters (Filter.RetFilter (Config.Filter cfg)) !! EventID ctx
    = Some filter ->
  IntFilter.Greater filter <> GreaterNotSetInt ->
  IntFilter.Less filter <> LessNotSetInt ->
  argFilterStage cfg ctx args = Some true ->
  shouldProcessEvent cfg ctx args = Some true <->
    IntFilter.Greater filter < Retval ctx < IntFilter.Less filter
    /\ (Retval ctx ∉ IntFilter.NotEqual filter)
    /\ (IntFilter.Equal filter = [] \/ Retval ctx ∈ IntFilter.Equal filter).
Proof.
  intros Hen Hflt HG HL Harg.
  rewrite <- (retFilterPasses_spec filter (Retval ctx) HG HL).
  unfold shouldProcessEvent, retFilterStage. rewrite Hen, Hflt.
  destruct (retFilterPasses filter (Retval ctx)).
  - rewrite Harg. tauto.
  - split; intros Hx; discriminate Hx.
Qed.

(** C10, as amended.  Evaluation of the argument filters returns a decision
    whenever no pattern configured for the event's type is empty.  It
    aborts when it arrives at an empty pattern with an argument that is
    present and whose textual form is not empty: the comparison
    [argValStr == f] fails and [f[len(f)-1]] is out of range. *)
Theorem argument_filter_total_unless_empty_pattern `{Env}
    (cfg : Config.t) (ctx : context) (args : gmap string value) :
  (patternsNonEmpty
     (default [] (ArgFilter.Filters (Filter.ArgFilter (Config.Filter cfg))
                  !! EventID ctx)) ->
   is_Some (shouldProcessEvent cfg ctx args))
  /\ (forall before argName filter after argVal,
        retFilterStage cfg ctx = true ->
        ArgFilter.Enabled (Filter.ArgFilter (Config.Filter cfg)) = true ->
        ArgFilter.Filters (Filter.ArgFilter (Config.Filter cfg)) !! EventID ctx
          = Some (before ++ (argName, filter) :: after)%list ->
        argFilterLoop args before = Some true ->
        args !! argName = Some argVal ->
        Sprint argVal <> EmptyString ->
        entryReachesEmptyPattern (Sprint argVal) filter ->
        shouldProcessEvent cfg ctx args = None).
Proof.
  split.
  - intros Hne. unfold shouldProcessEvent, argFilterStage.
    destruct (retFilterStage cfg ctx); [|eauto].
    destruct (ArgFilter.Enabled _); [|eauto].
    now apply argFilterLoop_total.
  - intros before argName filter after argVal Hret Hen Hflt Hbefore Harg Hv Hreach.
    unfold shouldProcessEvent, argFilterStage. rewrite Hret, Hen, Hflt.
    simpl default. rewrite argFilterLoop_app, Hbefore.
    cbn [argFilterLoop].
    now rewrite (argFilterEntry_aborts _ _ _ _ Harg Hv Hreach).
Qed.

(** ** The dispatcher *)

Section DispatcherFacts.
Context `{Env}.

Lemma exec_not_write :
  SchedProcessExecEventID <> VfsWriteEventID
  /\ SchedProcessExecEventID <> VfsWritevEventID.
Proof.
  pose proof eventIDs_distinct as Hd.
  apply NoDup_cons in Hd as [H1 Hd]. apply NoDup_cons in Hd as [H2 Hd].
  rewrite !not_elem_of_cons in H1. rewrite !not_elem_of_cons in H2.
  destruct H1 as (_ & H1 & _). destruct H2 as (H2 & _).
  split; intros Heq; [apply H1 | apply H2]; now rewrite Heq.
Qed.

Lemma socket_not_others :
  SocketEventID <> VfsWriteEventID
  /\ SocketEventID <> VfsWritevEventID
  /\ SocketEventID <> SchedProcessExecEventID.
Proof.
  pose proof eventIDs_distinct as Hd.
  apply NoDup_cons in Hd as [H1 Hd]. apply NoDup_cons in Hd as [H2 Hd].
  apply NoDup_cons in Hd as [H3 Hd].
  rewrite !not_elem_of_cons in H1. rewrite !not_elem_of_cons in H2.
  rewrite !not_elem_of_cons in H3.
  destruct H1 as (_ & _ & H1 & _). destruct H2 as (_ & H2 & _).
  destruct H3 as (H3 & _).
  repeat split; intros Heq; [apply H1 | apply H2 | apply H3]; now rewrite Heq.
Qed.

(** *** Which case of the switch runs *)

Lemma processEvent_write (s : state) (c : context) (a : gmap string value)
    (metas : list ArgMeta) :
  EventID c = VfsWriteEventID \/ EventID c = VfsWritevEventID ->
  processEvent s c a metas =
    run (writeCase >> return_ None)
        {| st := s; ctx := c; args := a; argMetas := metas; err := None |}.
Proof.
  intros Hid. unfold processEvent, processEventBody, run, bind at 1, gets.
  cbn [ctx].
  replace ((EventID c =? VfsWriteEventID) || (EventID c =? VfsWritevEventID))
    with true; [reflexivity|].
  symmetry. apply orb_true_iff. rewrite !Z.eqb_eq. exact Hid.
Qed.

Lemma processEvent_exec (s : state) (c : context) (a : gmap string value)
    (metas : list ArgMeta) :
  EventID c = SchedProcessExecEventID ->
  processEvent s c a metas =
    run (execCase >> return_ None)
        {| st := s; ctx := c; args := a; argMetas := metas; err := None |}.
Proof.
  intros Hid. unfold processEvent, processEventBody, run, bind at 1, gets.
  cbn [ctx]. rewrite Hid.
  destruct exec_not_write as [Hw Hwv].
  apply Z.eqb_neq in Hw, Hwv. rewrite Hw, Hwv, Z.eqb_refl. reflexivity.
Qed.

Lemma processEvent_socket (s : state) (c : context) (a : gmap string value)
    (metas : list ArgMeta) :
  EventID c = SocketEventID ->
  processEvent s c a metas =
    (None, {| st := removeSocketTailOnce_Do removeSocketTail s; ctx := c;
              args := a; argMetas := metas; err := None |}).
Proof.
  intros Hid. unfold processEvent, processEventBody, run, bind at 1, gets.
  cbn [ctx]. rewrite Hid.
  destruct socket_not_others as (Hw & Hwv & He).
  apply Z.eqb_neq in Hw, Hwv, He. rewrite Hw, Hwv, He, Z.eqb_refl.
  reflexivity.
Qed.

(** *** Statements that leave a view of the frame unchanged *)

Section Preservation.
Context {V : Type} (view : frame -> V).

Lemma preserves_pure {A} (a : A) : preserves view (pure a).
Proof. intros f. reflexivity. Qed.

Lemma preserves_return {A} (e : option Go.error) :
  preserves view (@return_ _ A e).
Proof. intros f. reflexivity. Qed.

Lemma preserves_gets {A} (g : frame -> A) : preserves view (gets g).
Proof. intros f. reflexivity. Qed.

Lemma preserves_modify (g : frame -> frame) :
  (forall f, view (g f) = view f) -> preserves view (modify g).
Proof. intros Hg f. apply Hg. Qed.

Lemma preserves_bind {A B} (m : M A) (k : A -> M B) :
  preserves view m -> (forall a, preserves view (k a)) ->
  preserves view (bind m k).
Proof.
  intros Hm Hk f. unfold bind. specialize (Hm f).
  destruct (m f) as [[a|e] f1]; simpl in *.
  - now rewrite Hk.
  - exact Hm.
Qed.

Lemma preserves_when (b : bool) (m : M unit) :
  preserves view m -> preserves view (when b m).
Proof. intros Hm. destruct b; [exact Hm | apply preserves_pure]. Qed.

Lemma preserves_orReturn {A} (x : option A) (e : option Go.error) :
  preserves view (orReturn x e).
Proof. destruct x; [apply preserves_pure | apply preserves_return]. Qed.

Lemma preserves_forRange {A} (xs : list A) (body : A -> M ctl) :
  (forall x, preserves view (body x)) -> preserves view (forRange xs body).
Proof.
  intros Hbody. induction xs as [|x xs IH]; simpl.
  - apply preserves_pure.
  - apply preserves_bind; [apply Hbody|].
    intros [|]; [apply preserves_pure | exact IH].
Qed.
End Preservation.

(** the calls logged by [processEvent] outside the socket case are not
    calls to the kernel table *)
Lemma filter_log (p : call -> bool) (c : call) (s : state) :
  p c = false -> List.filter p (calls (log c s)) = List.filter p (calls s).
Proof.
  intros Hp. unfold log. cbn [calls].
  rewrite List.filter_app. simpl. rewrite Hp. apply app_nil_r.
Qed.

Ltac view_solve :=
  intros;
  unfold prunerView, hashView, captureView, configView, on_st, log, set_os,
    set_fileHashes, set_writtenFiles, set_capturedFiles, set_profiledFiles,
    set_pidsInMntns, cachePid, set_err, set_args, set_ctx, set_argMetas;
  cbn [st ctx args argMetas err calls removeSocketTailOnce config fileHashes
       capturedFiles];
  rewrite ?List.filter_app;
  cbn [List.filter isGetMap isDeleteKey isHash isCopy];
  rewrite ?app_nil_r; reflexivity.

(** a call to a collaborator, whatever it answers *)
Ltac prim_solve :=
  intros ?;
  unfold MkdirAll, callCopyFileByPath, callGetFileHash, fileHashes_Get,
    fileHashes_Add, modify;
  repeat match goal with
         | |- context [let (_, _) := ?x in _] => destruct x
         end;
  cbn [snd]; view_solve.

Ltac preserves_step :=
  first
    [ apply preserves_pure | apply preserves_return | apply preserves_gets
    | apply preserves_orReturn
    | apply preserves_when
    | apply preserves_bind; [|intros ?]
    | apply preserves_forRange; intros ?
    | match goal with
      | |- preserves _ (match ?x with _ => _ end) => destruct x
      end ].

Lemma prunerView_writeCase : preserves prunerView writeCase.
Proof. unfold writeCase. repeat (preserves_step || prim_solve). Qed.

Lemma prunerView_captureExec (filePath src id : string) (ct : Z) :
  preserves prunerView (captureExec filePath src id ct).
Proof. unfold captureExec. repeat (preserves_step || prim_solve). Qed.

Lemma prunerView_hashExec (src id : string) (ct : Z) :
  preserves prunerView (hashExec src id ct).
Proof. unfold hashExec. repeat (preserves_step || prim_solve). Qed.

Lemma prunerView_execCase : preserves prunerView execCase.
Proof.
  unfold execCase, execBody.
  repeat (apply prunerView_captureExec || apply prunerView_hashExec
          || preserves_step || prim_solve).
Qed.

Lemma configView_writeCase : preserves configView writeCase.
Proof. unfold writeCase. repeat (preserves_step || prim_solve). Qed.

Lemma configView_captureExec (filePath src id : string) (ct : Z) :
  preserves configView (captureExec filePath src id ct).
Proof. unfold captureExec. repeat (preserves_step || prim_solve). Qed.

Lemma configView_hashExec (src id : string) (ct : Z) :
  preserves configView (hashExec src id ct).
Proof. unfold hashExec. repeat (preserves_step || prim_solve). Qed.

Lemma configView_execCase : preserves configView execCase.
Proof.
  unfold execCase, execBody.
  repeat (apply configView_captureExec || apply configView_hashExec
          || preserves_step || prim_solve).
Qed.

Lemma hashView_captureExec (filePath src id : string) (ct : Z) :
  preserves hashView (captureExec filePath src id ct).
Proof. unfold captureExec. repeat (preserves_step || prim_solve). Qed.

Lemma captureView_hashExec (src id : string) (ct : Z) :
  preserves captureView (hashExec src id ct).
Proof. unfold hashExec. repeat (preserves_step || prim_solve). Qed.

Lemma processEvent_other (s : state) (c : context) (a : gmap string value)
    (metas : list ArgMeta) :
  EventID c <> VfsWriteEventID -> EventID c <> VfsWritevEventID ->
  EventID c <> SchedProcessExecEventID -> EventID c <> SocketEventID ->
  processEvent s c a metas =
    (None, {| st := s; ctx := c; args := a; argMetas := metas; err := None |}).
Proof.
  intros Hw Hwv He Hs. unfold processEvent, processEventBody, run, bind at 1, gets.
  cbn [ctx]. apply Z.eqb_neq in Hw, Hwv, He, Hs. rewrite Hw, Hwv, He, Hs.
  reflexivity.
Qed.

Lemma run_preserves {V} (view : frame -> V) (m : M unit) (f : frame) :
  preserves view m -> view (snd (run m f)) = view f.
Proof.
  intros Hm. unfold run. specialize (Hm f).
  destruct (m f) as [[u|e] f1]; exact Hm.
Qed.

(** A view that the write case, the exec case and the socket step leave
    unchanged is left unchanged by [processEvent]. *)
Lemma processEvent_preserves {V} (view : frame -> V) (s : state) (c : context)
    (a : gmap string value) (metas : list ArgMeta) :
  let f0 := {| st := s; ctx := c; args := a; argMetas := metas; err := None |} in
  preserves view writeCase ->
  preserves view execCase ->
  view (on_st (removeSocketTailOnce_Do removeSocketTail) f0) = view f0 ->
  view (snd (processEvent s c a metas)) = view f0.
Proof.
  intros f0 Hwrite Hexec Hsocket.
  assert (Hcase : forall m : M unit, preserves view m ->
            view (snd (run (m >> return_ None) f0)) = view f0).
  { intros m Hm. apply run_preserves.
    apply preserves_bind; [exact Hm | intros; apply preserves_return]. }
  destruct (decide (EventID c = VfsWriteEventID)) as [Hw|Hw];
    [rewrite processEvent_write by auto; now apply Hcase|].
  destruct (decide (EventID c = VfsWritevEventID)) as [Hwv|Hwv];
    [rewrite processEvent_write by auto; now apply Hcase|].
  destruct (decide (EventID c = SchedProcessExecEventID)) as [He|He];
    [rewrite processEvent_exec by auto; now apply Hcase|].
  destruct (decide (EventID c = SocketEventID)) as [Hs|Hs].
  - rewrite processEvent_socket by auto. exact Hsocket.
  - now rewrite processEvent_other.
Qed.

Lemma once_set_stays (s : state) (c : context) (a : gmap string value)
    (metas : list ArgMeta) :
  removeSocketTailOnce s = true ->
  prunerView (snd (processEvent s c a metas))
  = (true, List.filter isGetMap (calls s), List.filter isDeleteKey (calls s)).
Proof.
  intros Hset.
  rewrite (processEvent_preserves prunerView);
    [ | apply prunerView_writeCase | apply prunerView_execCase | ].
  - unfold prunerView. cbn [st]. now rewrite Hset.
  - assert (Hdo : removeSocketTailOnce_Do removeSocketTail s = s)
      by (unfold removeSocketTailOnce_Do; now rewrite Hset).
    unfold prunerView, on_st. cbn [st]. now rewrite Hdo.
Qed.

(** *** Write events *)

Lemma processEvent_write_result (s : state) (c : context)
    (a : gmap string value) (metas : list ArgMeta) :
  EventID c = VfsWriteEventID \/ EventID c = VfsWritevEventID ->
  CaptureConfig.FileWrite (Config.Capture (config s)) = true ->
  let f0 := {| st := s; ctx := c; args := a; argMetas := metas; err := None |} in
  processEvent s c a metas =
    match assertString (a !! "pathname") with
    | None => (parseWriteError, f0)
    | Some filePath =>
        if emptyOrRelative filePath then (None, f0)
        else
          match assertUint32 (a !! "dev"), assertUint64 (a !! "inode") with
          | Some dev, Some inode =>
              let fileName := writtenFileName (MntID c) dev inode in
              if decide (writtenFiles s !! fileName = Some filePath)
              then (None, f0)
              else (None, on_st (set_writtenFiles
                                   (<[fileName := filePath]> (writtenFiles s))) f0)
          | _, _ => (parseWriteError, f0)
          end
    end.
Proof.
  intros Hid Hfw f0. subst f0. rewrite (processEvent_write _ _ _ _ Hid).
  unfold run, writeCase, bind, gets, when, orReturn, pure, return_, modify.
  cbn [st ctx args]. rewrite Hfw. cbn [st ctx args].
  destruct (assertString (a !! "pathname")) as [filePath|]; [|reflexivity].
  destruct (emptyOrRelative filePath); [reflexivity|].
  destruct (assertUint32 (a !! "dev")) as [dev|]; [|reflexivity].
  destruct (assertUint64 (a !! "inode")) as [inode|]; [|reflexivity].
  cbn [st ctx args].
  destruct (writtenFiles s !! writtenFileName (MntID c) dev inode)
    as [indexName|] eqn:Hlook.
  - destruct (String.eqb_spec indexName filePath) as [-> | Hne].
    + now rewrite decide_True.
    + rewrite decide_False; [reflexivity | congruence].
  - rewrite decide_False; [reflexivity | congruence].
Qed.

Lemma set_writtenFiles_id (s : state) :
  set_writtenFiles (writtenFiles s) s = s.
Proof. now destruct s. Qed.

(** *** Process-exec events: the loop over the bucket *)

Lemma endsInBreak_bind {A} (m : M A) (k : A -> M ctl) :
  (forall a, endsInBreak (k a)) -> endsInBreak (bind m k).
Proof.
  intros Hk f c f'. unfold bind.
  destruct (m f) as [[a|e] f1]; [apply Hk | discriminate].
Qed.

Lemma execBody_endsInBreak (filePath : string) (pid : Z) :
  endsInBreak (execBody filePath pid).
Proof.
  unfold execBody.
  repeat (apply endsInBreak_bind; intros ?).
  intros f c f' [= <- _]. reflexivity.
Qed.

Lemma forRange_execBody (filePath : string) (pid : Z) (rest : list Z) (f : frame) :
  forRange (pid :: rest) (execBody filePath) f =
    match execBody filePath pid f with
    | (Next _, f') => (Next tt, f')
    | (Return e, f') => (Return e, f')
    end.
Proof.
  cbn [forRange]. unfold bind.
  destruct (execBody filePath pid f) as [[c|e] f'] eqn:Hbody; [|reflexivity].
  now rewrite (execBody_endsInBreak _ _ _ _ _ Hbody).
Qed.

(** Only the head of the bucket is ever tried. *)
Lemma exec_loop_tries_head_only (filePath : string) (pid : Z) (rest : list Z)
    (f : frame) :
  forRange (pid :: rest) (execBody filePath) f
  = forRange [pid] (execBody filePath) f.
Proof. now rewrite !forRange_execBody. Qed.

Lemma config_cachePid (c : context) (s : state) :
  config (cachePid c s) = config s.
Proof. reflexivity. Qed.

Lemma processEvent_exec_reached (s : state) (c : context)
    (a : gmap string value) (metas : list ArgMeta)
    (filePath : string) (pid ct : Z) :
  execReaches s c a filePath pid ct ->
  let src := sourcePath pid filePath in
  let id := capturedID (MntID c) src in
  processEvent s c a metas =
    run (when (CaptureConfig.Exec (Config.Capture (config s)))
           (captureExec filePath src id ct) >>
         when (OutputConfig.ExecHash (Config.Output (config s)))
           (hashExec src id ct) >>
         let! e := gets err in
         return_ e)
        {| st := cachePid c s; ctx := c; args := a; argMetas := metas;
           err := None |}.
Proof.
  intros (Hid & Hon & Hpath & Habs & Hct & Hhead) src id.
  rewrite (processEvent_exec _ _ _ _ Hid).
  unfold run, execCase, bind, gets, modify, orReturn, pure, return_.
  cbn [st ctx args on_st set_err]. rewrite config_cachePid, Hon.
  cbn [when st ctx args on_st set_err]. rewrite Hpath, Habs.
  cbn [st ctx args on_st set_err argMetas err].
  destruct (GetBucket (MntID c) (pidsInMntns (cachePid c s))) as [|pid' rest];
    [discriminate|].
  injection Hhead as ->.
  rewrite forRange_execBody.
  unfold execBody, bind, gets, modify, orReturn, pure, return_.
  cbn [st ctx args on_st set_err argMetas err]. rewrite Hct, config_cachePid.
  fold src. fold id.
  destruct (when _ (captureExec filePath src id ct) _) as [[u|e] f1];
    [|reflexivity].
  destruct (when _ (hashExec src id ct) _) as [[u'|e] f2]; reflexivity.
Qed.

(** *** Process-exec events: the capture block and the hash block *)

Lemma count_log (p : call -> bool) (c : call) (s : state) :
  count p (calls (log c s)) = (count p (calls s) + (if p c then 1 else 0))%nat.
Proof.
  unfold count, log. cbn [calls]. rewrite List.filter_app, length_app.
  cbn [List.filter]. now destruct (p c).
Qed.

Lemma MkdirAll_next (path : string) (f : frame) :
  exists e f1, MkdirAll path f = (Next e, f1).
Proof.
  unfold MkdirAll. destruct (os_MkdirAll path (os (st f))) as [e w]. eauto.
Qed.

Lemma captureView_MkdirAll (path : string) : preserves captureView (MkdirAll path).
Proof. prim_solve. Qed.

Lemma captureView_profile (c : context) (path : string) :
  preserves captureView
    (modify (on_st (fun s =>
       set_profiledFiles (updateProfile path (Ts c) (profiledFiles s)) s))).
Proof. prim_solve. Qed.

Lemma when_modify_next (b : bool) (g : frame -> frame) (f : frame) :
  exists f1, when b (modify g) f = (Next tt, f1).
Proof. destruct b; cbn [when]; unfold modify, pure; eauto. Qed.

(** The copy step, when it completes, has recorded the change-time, after
    one copy unless the record already showed it, and has left no error
    in [err]; when it makes [processEvent] return, it returns an error. *)
Lemma captureCopy_cases (src dst id : string) (ct : Z) (f : frame) :
  match captureCopy src dst id ct f with
  | (Return e, _) => e <> None
  | (Next _, f') =>
      (err f = None -> err f' = None)
      /\ capturedFiles (st f') = <[id := ct]> (capturedFiles (st f))
      /\ count isCopy (calls (st f'))
         = (count isCopy (calls (st f))
            + (if decide (capturedFiles (st f) !! id = Some ct) then 0 else 1))%nat
  end.
Proof.
  assert (Hcopy : capturedFiles (st f) !! id <> Some ct ->
    match
      (let! e := callCopyFileByPath src dst in
       modify (set_err e) >>
       match e with
       | Some _ => return_ e
       | None =>
           modify (on_st (fun s =>
             set_capturedFiles (<[id := ct]> (capturedFiles s)) s))
       end) f
    with
    | (Return e, _) => e <> None
    | (Next _, f') =>
        (err f = None -> err f' = None)
        /\ capturedFiles (st f') = <[id := ct]> (capturedFiles (st f))
        /\ count isCopy (calls (st f'))
           = (count isCopy (calls (st f))
              + (if decide (capturedFiles (st f) !! id = Some ct) then 0 else 1))%nat
    end).
  { intros Hne. rewrite (decide_False _ _ Hne).
    unfold bind, callCopyFileByPath, modify, return_.
    destruct (CopyFileByPath src dst (os (st f))) as [[e|] w]; [discriminate|].
    unfold on_st, set_err, set_capturedFiles, set_os. cbn [st err capturedFiles calls].
    rewrite count_log. cbn [isCopy]. auto. }
  unfold captureCopy. unfold bind at 1. unfold gets at 1.
  destruct (capturedFiles (st f) !! id) as [lastCtime|] eqn:Hlook.
  - destruct (Z.eqb_spec lastCtime ct) as [-> | Hne]; cbn [negb when].
    + unfold pure. rewrite (decide_True _ _ eq_refl), (insert_id _ _ _ Hlook).
      auto with lia.
    + apply Hcopy. congruence.
  - cbn [when]. apply Hcopy. congruence.
Qed.

Lemma captureCopy_skips (src dst id : string) (ct : Z) (f : frame) :
  capturedFiles (st f) !! id = Some ct ->
  captureCopy src dst id ct f = (Next tt, f).
Proof.
  intros Hlook. unfold captureCopy. unfold bind at 1. unfold gets at 1.
  rewrite Hlook, Z.eqb_refl. reflexivity.
Qed.

Lemma captureExec_unfold (filePath src id : string) (ct : Z) (f : frame) :
  captureExec filePath src id ct f =
    match MkdirAll (destinationDir (config (st f)) (ctx f)) f with
    | (Next (Some e), f1) => (Return (Some e), f1)
    | (Next None, f1) =>
        (when (CaptureConfig.Profile (Config.Capture (config (st f))))
           (modify (on_st (fun s =>
              set_profiledFiles
                (updateProfile (profileKey (config (st f)) (ctx f) filePath ct)
                   (Ts (ctx f)) (profiledFiles s)) s))) >>
         captureCopy src (destinationFile (config (st f)) (ctx f) filePath) id ct)
          f1
    | (Return e, f1) => (Return e, f1)
    end.
Proof.
  unfold captureExec. unfold bind at 1 2 3. unfold gets at 1 2.
  destruct (MkdirAll _ f) as [[[e|]|e] f1]; reflexivity.
Qed.

(** How the capture block ends, with the frame in which its copy step
    starts. *)
Lemma captureExec_split (filePath src id : string) (ct : Z) (f : frame) :
  (exists e f1, captureExec filePath src id ct f = (Return (Some e), f1)
                /\ captureView f1 = captureView f)
  \/ (exists dst f2, captureExec filePath src id ct f = captureCopy src dst id ct f2
                     /\ captureView f2 = captureView f).
Proof.
  rewrite captureExec_unfold.
  pose proof (captureView_MkdirAll (destinationDir (config (st f)) (ctx f)) f) as Hmk.
  destruct (MkdirAll_next (destinationDir (config (st f)) (ctx f)) f)
    as (e & f1 & Heq).
  rewrite Heq in Hmk |- *. cbn [snd] in Hmk.
  destruct e as [e|].
  - left. exists e, f1. split; [reflexivity | exact Hmk].
  - right. unfold bind at 1.
    match goal with
    | |- context [when ?b (modify ?g) f1] =>
        destruct (when_modify_next b g f1) as (f2 & Hpf);
        pose proof (preserves_when captureView b (modify g)
                      (captureView_profile _ _) f1) as Hv;
        rewrite Hpf in Hv |- *; cbn [snd] in Hv
    end.
    eexists _, f2. split; [reflexivity | now rewrite Hv].
Qed.

(** A capture block that completes has recorded the change-time, after
    one copy unless the record already showed it, and has left no error
    in [err]; one that makes [processEvent] return, returns an error. *)
Lemma captureExec_cases (filePath src id : string) (ct : Z) (f : frame) :
  match captureExec filePath src id ct f with
  | (Return e, _) => e <> None
  | (Next _, f') =>
      (err f = None -> err f' = None)
      /\ capturedFiles (st f') = <[id := ct]> (capturedFiles (st f))
      /\ count isCopy (calls (st f'))
         = (count isCopy (calls (st f))
            + (if decide (capturedFiles (st f) !! id = Some ct) then 0 else 1))%nat
  end.
Proof.
  destruct (captureExec_split filePath src id ct f)
    as [(e & f1 & -> & _) | (dst & f2 & -> & Hv)]; [discriminate|].
  unfold captureView in Hv. injection Hv as Herr Hrec Hcopies.
  pose proof (captureCopy_cases src dst id ct f2) as Hc.
  destruct (captureCopy src dst id ct f2) as [[u|e] f3]; [|exact Hc].
  unfold count in *. now rewrite Herr, Hrec, Hcopies in Hc.
Qed.

(** The hash block always completes, and this is the frame it leaves. *)
Lemma hashExec_eq (src id : string) (ct : Z) (f : frame) :
  let hit := fst (lru_Get id (fileHashes (st f))) in
  let cache1 := snd (lru_Get id (fileHashes (st f))) in
  let computed := getFileHash src (os (st f)) in
  hashExec src id ct f =
    (Next tt,
     {| st := match cachedHash hit ct with
              | Some _ => set_fileHashes cache1 (st f)
              | None =>
                  set_fileHashes
                    (lru_Add id {| LastCtime := ct; Hash := computed |} cache1)
                    (log (CallGetFileHash src) (st f))
              end;
        ctx := set_Argnum (Go.wrapU Argnum_bits (Argnum (ctx f) + 1)) (ctx f);
        args := <["sha256" := VString (default computed (cachedHash hit ct))]>
                  (args f);
        argMetas := argMetas f ++ [hashMeta];
        err := err f |}).
Proof.
  unfold hashExec, bind, fileHashes_Get, fileHashes_Add, callGetFileHash,
    modify, pure, cachedHash.
  destruct (lru_Get id (fileHashes (st f))) as [hit cache1]. cbn [fst snd].
  destruct hit as [info|]; [destruct (LastCtime info =? ct)|]; reflexivity.
Qed.

Lemma captureExec_skips (filePath src id : string) (ct : Z) (f : frame) :
  capturedFiles (st f) !! id = Some ct ->
  captureView (snd (captureExec filePath src id ct f)) = captureView f.
Proof.
  intros Hlook.
  destruct (captureExec_split filePath src id ct f)
    as [(e & f1 & -> & Hv) | (dst & f2 & -> & Hv)]; [exact Hv|].
  rewrite captureCopy_skips; [exact Hv|].
  unfold captureView in Hv. injection Hv as _ Hrec _. now rewrite Hrec.
Qed.

Lemma cachedHash_Some (hit : option fileExecInfo) (ct : Z) (h : string) :
  cachedHash hit ct = Some h
  <-> exists info, hit = Some info /\ LastCtime info = ct /\ Hash info = h.
Proof.
  unfold cachedHash. destruct hit as [info|].
  - destruct (Z.eqb_spec (LastCtime info) ct) as [Heq|Hne]; split.
    + intros [= <-]. eauto.
    + intros (info' & [= <-] & _ & <-). reflexivity.
    + discriminate.
    + intros (info' & [= <-] & Heq & _). contradiction.
  - split; [discriminate | intros (info & Hx & _); discriminate].
Qed.

Lemma cachedHash_None (hit : option fileExecInfo) (ct : Z) :
  cachedHash hit ct = None
  <-> ~ exists info, hit = Some info /\ LastCtime info = ct.
Proof.
  split.
  - intros Hnone (info & Hhit & Hct).
    assert (Hsome : cachedHash hit ct = Some (Hash info))
      by (apply cachedHash_Some; eauto).
    congruence.
  - intros Hno. destruct (cachedHash hit ct) as [h|] eqn:Hc; [|reflexivity].
    apply cachedHash_Some in Hc as (info & Hhit & Hct & _).
    exfalso. eauto.
Qed.

Lemma run_bind {A} (m : M A) (k : A -> M unit) (f : frame) :
  run (bind m k) f =
    match m f with
    | (Next a, f') => run (k a) f'
    | (Return e, f') => (e, f')
    end.
Proof. unfold run, bind. now destruct (m f) as [[a|e] f']. Qed.

(** An exec event that arrives at the loop body and is processed without
    error went through the capture stage and then the hash stage. *)
Lemma exec_success (s : state) (c : context) (a : gmap string value)
    (metas : list ArgMeta) (filePath : string) (pid ct : Z) :
  execReaches s c a filePath pid ct ->
  fst (processEvent s c a metas) = None ->
  let src := sourcePath pid filePath in
  let id := capturedID (MntID c) src in
  let f0 := {| st := cachePid c s; ctx := c; args := a; argMetas := metas;
               err := None |} in
  exists f1 f2,
    when (CaptureConfig.Exec (Config.Capture (config s)))
      (captureExec filePath src id ct) f0 = (Next tt, f1)
    /\ err f1 = None
    /\ when (OutputConfig.ExecHash (Config.Output (config s)))
         (hashExec src id ct) f1 = (Next tt, f2)
    /\ snd (processEvent s c a metas) = f2.
Proof.
  intros Hreach Hok src id f0.
  rewrite (processEvent_exec_reached _ _ _ _ _ _ _ Hreach) in Hok |- *.
  fold src id f0 in Hok |- *.
  assert (Hcap : match when (CaptureConfig.Exec (Config.Capture (config s)))
                         (captureExec filePath src id ct) f0 with
                 | (Return e, _) => e <> None
                 | (Next _, f1) => err f1 = None
                 end).
  { destruct (CaptureConfig.Exec _); cbn [when]; [|reflexivity].
    pose proof (captureExec_cases filePath src id ct f0) as Hc.
    destruct (captureExec filePath src id ct f0) as [[u|e] f1]; [|exact Hc].
    now apply Hc. }
  rewrite run_bind in Hok |- *.
  destruct (when _ (captureExec filePath src id ct) f0) as [[[]|e] f1];
    [|cbn [fst] in Hok; contradiction].
  assert (Hhash : exists f2,
             when (OutputConfig.ExecHash (Config.Output (config s)))
               (hashExec src id ct) f1 = (Next tt, f2)).
  { destruct (OutputConfig.ExecHash _); cbn [when].
    - rewrite hashExec_eq. eexists. reflexivity.
    - eexists. reflexivity. }
  destruct Hhash as (f2 & Hf2). rewrite run_bind, Hf2.
  exists f1, f2. auto.
Qed.

Lemma removeSocketTail_config (s : state) :
  config (removeSocketTail s) = config s.
Proof.
  unfold removeSocketTail.
  destruct (bpf_GetMap _ _) as [e|m]; [reflexivity|].
  destruct (bpf_GetValue _ _ _) as [e|]; [reflexivity|].
  destruct (bpf_DeleteKey _ _ _) as [[e|] w]; reflexivity.
Qed.

(** [processEvent] never writes to the configuration. *)
Lemma processEvent_config (s : state) (c : context) (a : gmap string value)
    (metas : list ArgMeta) :
  config (st (snd (processEvent s c a metas))) = config s.
Proof.
  apply (processEvent_preserves configView s c a metas);
    [apply configView_writeCase | apply configView_execCase | ].
  unfold configView, on_st. cbn [st]. unfold removeSocketTailOnce_Do.
  destruct (removeSocketTailOnce s); [reflexivity|].
  unfold set_removeSocketTailOnce. cbn [config]. apply removeSocketTail_config.
Qed.

Lemma calls_set_os (w : world) (s : state) : calls (set_os w s) = calls s.
Proof. reflexivity. Qed.

Lemma removeSocketTail_calls (s : state) :
  count isGetMap (calls (removeSocketTail s)) = S (count isGetMap (calls s))
  /\ (count isDeleteKey (calls (removeSocketTail s))
      <= S (count isDeleteKey (calls s)))%nat
  /\ removeSocketTailOnce (removeSocketTail s) = removeSocketTailOnce s.
Proof.
  unfold removeSocketTail.
  destruct (bpf_GetMap _ _) as [e|m]; [|destruct (bpf_GetValue _ _ _) as [e|]];
    [| |destruct (bpf_DeleteKey _ _ _) as [[e|] w]];
    rewrite ?calls_set_os, ?count_log, ?calls_set_os, ?count_log;
    cbn [isGetMap isDeleteKey];
    (split; [lia | split; [lia | reflexivity]]).
Qed.

Lemma deliver_sockets_when_set (s : state)
    (events : list (context * gmap string value * list ArgMeta)) :
  removeSocketTailOnce s = true ->
  Forall (fun ev => EventID (fst (fst ev)) = SocketEventID) events ->
  deliver s events = s.
Proof.
  intros Hset Hall. induction Hall as [|[[c a] metas] events Hid _ IH];
    cbn [deliver]; [reflexivity|].
  cbn [fst] in Hid. rewrite (processEvent_socket _ _ _ _ Hid). cbn [snd st].
  unfold removeSocketTailOnce_Do. rewrite Hset. exact IH.
Qed.

Lemma deliver_when_set (s : state)
    (events : list (context * gmap string value * list ArgMeta)) :
  removeSocketTailOnce s = true ->
  let s' := deliver s events in
  removeSocketTailOnce s' = true
  /\ List.filter isGetMap (calls s') = List.filter isGetMap (calls s)
  /\ List.filter isDeleteKey (calls s') = List.filter isDeleteKey (calls s).
Proof.
  revert s. induction events as [|[[c a] metas] events IH]; intros s Hset;
    cbn [deliver]; [auto|].
  pose proof (once_set_stays s c a metas Hset) as Hview.
  unfold prunerView in Hview. injection Hview as Hflag Hget Hdel.
  destruct (IH _ Hflag) as (IH1 & IH2 & IH3).
  cbv zeta. rewrite IH1, IH2, IH3. auto.
Qed.

(** An exec event with hash-on-output enabled that is processed without
    error ends with the hash block, run on the event's objects and the
    core's cache. *)
Lemma hash_block_ends_exec_event (ct : Z) :
  forall s c a metas filePath pid,
    execReaches s c a filePath pid ct ->
    OutputConfig.ExecHash (Config.Output (config s)) = true ->
    fst (processEvent s c a metas) = None ->
    exists f1,
      hashView f1 = (c, a, metas, fileHashes s, List.filter isHash (calls s))
      /\ processEvent s c a metas
         = (None, snd (hashExec (sourcePath pid filePath)
                         (capturedID (MntID c) (sourcePath pid filePath))
                         ct f1)).
Proof.
  intros s c a metas filePath pid Hreach Hhash Hok.
  destruct (exec_success _ _ _ _ _ _ _ Hreach Hok)
    as (f1 & f2 & Hf1 & _ & Hf2 & Hres).
  rewrite Hhash in Hf2. cbn [when] in Hf2.
  exists f1. split.
  - pose proof (preserves_when hashView
                  (CaptureConfig.Exec (Config.Capture (config s))) _
                  (hashView_captureExec filePath (sourcePath pid filePath)
                     (capturedID (MntID c) (sourcePath pid filePath)) ct)
                  {| st := cachePid c s; ctx := c; args := a; argMetas := metas;
                     err := None |}) as Hp.
    rewrite Hf1 in Hp. exact Hp.
  - rewrite Hf2. cbn [snd]. rewrite <- Hres, <- Hok.
    now destruct (processEvent s c a metas).
Qed.

(** *** The pruning step, as an equation *)

Lemma removeSocketTail_eq (s : state) :
  removeSocketTail s =
    let key := SocketEventID in
    let s1 := log (CallGetMap "sys_exit_tails") s in
    match bpf_GetMap "sys_exit_tails" (os s) with
    | inl _ => s1
    | inr m =>
        let s2 := log (CallGetValue key) s1 in
        match bpf_GetValue m key (os s) with
        | Some _ => s2
        | None =>
            let r := bpf_DeleteKey m key (os s) in
            let s3 := set_os (snd r) (log (CallDeleteKey key) s2) in
            match fst r with
            | Some e => set_os (handleError e (snd r)) (log (CallHandleError e) s3)
            | None => s3
            end
        end
    end.
Proof.
  unfold removeSocketTail. cbv zeta.
  change (os (log (CallGetMap "sys_exit_tails") s)) with (os s).
  destruct (bpf_GetMap _ _) as [e|m]; [reflexivity|].
  change (os (log ?c (log ?d s))) with (os s).
  destruct (bpf_GetValue _ _ _) as [e|]; [reflexivity|].
  destruct (bpf_DeleteKey _ _ _) as [[e|] w]; reflexivity.
Qed.

Lemma calls_log (c : call) (s : state) : calls (log c s) = (calls s ++ [c])%list.
Proof. reflexivity. Qed.

Lemma os_log (c : call) (s : state) : os (log c s) = os s.
Proof. reflexivity. Qed.

Lemma os_set_os (w : world) (s : state) : os (set_os w s) = w.
Proof. reflexivity. Qed.

End DispatcherFacts.

(** C2, as amended.  When one or more socket-creation events are delivered
    to a dispatcher whose one-time guard has not fired, the pruner runs
    once, and what it does is fixed by what the kernel table answers: the
    table is looked up exactly once; if it is found, the key of the socket
    event is looked up once; if the key is there, its deletion is issued
    exactly once, the world is the one the deletion leaves (handed to the
    error handler when the deletion fails), and otherwise no deletion is
    issued and the world is as it was.  From then on the guard stays set
    and no later event, of any type, reaches the table. *)
Theorem socket_tail_pruned_exactly_once `{Env} (s : state)
    (socketEvents laterEvents : list (context * gmap string value * list ArgMeta)) :
  removeSocketTailOnce s = false ->
  socketEvents <> [] ->
  Forall (fun ev => EventID (fst (fst ev)) = SocketEventID) socketEvents ->
  let s1 := deliver s socketEvents in
  let s2 := deliver s1 laterEvents in
  let key := SocketEventID in
  let table := bpf_GetMap "sys_exit_tails" (os s) in
  let attempt m := bpf_DeleteKey m key (os s) in
  calls s1
  = (calls s
     ++ CallGetMap "sys_exit_tails"
        :: match table with
           | inl _ => []
           | inr m =>
               CallGetValue key
               :: match bpf_GetValue m key (os s) with
                  | Some _ => []
                  | None =>
                      CallDeleteKey key
                      :: match fst (attempt m) with
                         | Some e => [CallHandleError e]
                         | None => []
                         end
                  end
           end)%list
  /\ count isGetMap (calls s1) = S (count isGetMap (calls s))
  /\ count isDeleteKey (calls s1)
     = (count isDeleteKey (calls s)
        + match table with
          | inl _ => 0
          | inr m => match bpf_GetValue m key (os s) with
                     | Some _ => 0
                     | None => 1
                     end
          end)%nat
  /\ os s1 = match table with
             | inl _ => os s
             | inr m =>
                 match bpf_GetValue m key (os s) with
                 | Some _ => os s
                 | None =>
                     match fst (attempt m) with
                     | Some e => handleError e (snd (attempt m))
                     | None => snd (attempt m)
                     end
                 end
             end
  /\ removeSocketTailOnce s1 = true
  /\ removeSocketTailOnce s2 = true
  /\ count isGetMap (calls s2) = count isGetMap (calls s1)
  /\ count isDeleteKey (calls s2) = count isDeleteKey (calls s1).
Proof.
  intros Hclear Hne Hall s1 s2 key table attempt.
  assert (Hs1 : s1 = set_removeSocketTailOnce true (removeSocketTail s)).
  { subst s1. destruct Hall as [|[[c a] metas] events Hid Hall]; [contradiction|].
    cbn [deliver]. cbn [fst] in Hid.
    rewrite (processEvent_socket _ _ _ _ Hid). cbn [snd st].
    unfold removeSocketTailOnce_Do. rewrite Hclear.
    now apply deliver_sockets_when_set. }
  assert (Hflag : removeSocketTailOnce s1 = true) by now rewrite Hs1.
  destruct (deliver_when_set s1 laterEvents Hflag) as (H2 & Hget2 & Hdel2).
  fold s2 in H2, Hget2, Hdel2.
  assert (Hcalls1 : calls s1 = calls (removeSocketTail s)) by now rewrite Hs1.
  assert (Hos1 : os s1 = os (removeSocketTail s)) by now rewrite Hs1.
  rewrite removeSocketTail_eq in Hcalls1, Hos1. cbv zeta in Hcalls1, Hos1.
  fold key in Hcalls1, Hos1. fold table in Hcalls1, Hos1.
  unfold count. rewrite Hget2, Hdel2, Hcalls1, Hos1.
  subst attempt. cbv beta.
  destruct table as [e|m].
  { rewrite calls_log, os_log, !List.filter_app, !length_app. cbn.
    repeat split; auto with lia. }
  destruct (bpf_GetValue m key (os s)) as [e|].
  { rewrite !calls_log, !os_log, <- !app_assoc, !List.filter_app, !length_app. cbn.
    repeat split; auto with lia. }
  destruct (bpf_DeleteKey m key (os s)) as [[e|] w]; cbn [fst snd];
    rewrite os_set_os; repeat (rewrite calls_set_os || rewrite calls_log);
    rewrite <- !app_assoc, !List.filter_app, !length_app; cbn;
    repeat split; auto with lia.
Qed.

(** C8, as amended.  For a write event with write-capture enabled the
    dispatcher returns the parse error when [pathname] is absent or not a
    string, and when [pathname] is an absolute path and [dev] (unsigned
    32-bit) or [inode] (unsigned 64-bit) is absent or mistyped.  When
    [pathname] is a string that is empty or not absolute it returns no error
    and ignores the event, whatever [dev] and [inode] are.  With all three
    well-typed and an absolute path it returns no error.  An event that is
    refused or ignored leaves the state as it was. *)
Theorem write_event_argument_checks `{Env} (s : state) (c : context)
    (a : gmap string value) (metas : list ArgMeta) :
  EventID c = VfsWriteEventID \/ EventID c = VfsWritevEventID ->
  CaptureConfig.FileWrite (Config.Capture (config s)) = true ->
  let r := processEvent s c a metas in
  (assertString (a !! "pathname") = None ->
     fst r = Some "error parsing vfs_write args"%string /\ st (snd r) = s)
  /\ (forall filePath,
        assertString (a !! "pathname") = Some filePath ->
        emptyOrRelative filePath = true ->
        fst r = None /\ st (snd r) = s)
  /\ (forall filePath,
        assertString (a !! "pathname") = Some filePath ->
        emptyOrRelative filePath = false ->
        assertUint32 (a !! "dev") = None \/ assertUint64 (a !! "inode") = None ->
        fst r = Some "error parsing vfs_write args"%string /\ st (snd r) = s)
  /\ (forall filePath dev inode,
        assertString (a !! "pathname") = Some filePath ->
        emptyOrRelative filePath = false ->
        assertUint32 (a !! "dev") = Some dev ->
        assertUint64 (a !! "inode") = Some inode ->
        fst r = None).
Proof.
  intros Hid Hfw r. subst r.
  rewrite (processEvent_write_result _ _ _ _ Hid Hfw). cbv zeta.
  split; [|split; [|split]].
  - intros ->. split; reflexivity.
  - intros filePath -> ->. split; reflexivity.
  - intros filePath -> -> [-> | ->]; [split; reflexivity|].
    destruct (assertUint32 _); split; reflexivity.
  - intros filePath dev inode -> -> -> ->. now destruct (decide _).
Qed.

(** C7, as amended.  Two write events with the same mount namespace, device,
    inode and absolute pathname, write-capture enabled: the first call records the
    pathname under the key of (mount, device, inode) and changes nothing
    else, the second call changes no state, neither returns an error, and
    the index holds the one entry for that key (from an empty index, that
    entry alone). *)
Theorem write_event_indexed_once `{Env} (s : state) (c1 c2 : context)
    (a1 a2 : gmap string value) (metas1 metas2 : list ArgMeta)
    (filePath : string) (dev inode : Z) :
  CaptureConfig.FileWrite (Config.Capture (config s)) = true ->
  EventID c1 = VfsWriteEventID \/ EventID c1 = VfsWritevEventID ->
  EventID c2 = VfsWriteEventID \/ EventID c2 = VfsWritevEventID ->
  MntID c2 = MntID c1 ->
  emptyOrRelative filePath = false ->
  assertString (a1 !! "pathname") = Some filePath ->
  assertUint32 (a1 !! "dev") = Some dev ->
  assertUint64 (a1 !! "inode") = Some inode ->
  assertString (a2 !! "pathname") = Some filePath ->
  assertUint32 (a2 !! "dev") = Some dev ->
  assertUint64 (a2 !! "inode") = Some inode ->
  let fileName := writtenFileName (MntID c1) dev inode in
  let r1 := processEvent s c1 a1 metas1 in
  let s1 := st (snd r1) in
  let r2 := processEvent s1 c2 a2 metas2 in
  let s2 := st (snd r2) in
  fst r1 = None /\ fst r2 = None
  /\ s1 = set_writtenFiles (<[fileName := filePath]> (writtenFiles s)) s
  /\ s2 = s1
  /\ writtenFiles s2 !! fileName = Some filePath
  /\ (writtenFiles s = ∅ -> writtenFiles s2 = {[fileName := filePath]}).
Proof.
  intros Hfw Hid1 Hid2 Hmnt Habs Hp1 Hd1 Hi1 Hp2 Hd2 Hi2 fileName r1 s1 r2 s2.
  assert (Hr1 : fst r1 = None
                /\ s1 = set_writtenFiles (<[fileName := filePath]> (writtenFiles s)) s).
  { subst s1 r1. rewrite (processEvent_write_result _ _ _ _ Hid1 Hfw). cbv zeta.
    rewrite Hp1, Habs, Hd1, Hi1. fold fileName.
    destruct (decide _) as [Hin|Hout]; cbn [fst snd st on_st]; split; try reflexivity.
    rewrite (insert_id _ _ _ Hin). symmetry. apply set_writtenFiles_id. }
  destruct Hr1 as [He1 Hs1].
  assert (Hlook : writtenFiles s1 !! fileName = Some filePath).
  { rewrite Hs1. unfold set_writtenFiles. cbn [writtenFiles].
    apply lookup_insert_eq. }
  assert (Hfw1 : CaptureConfig.FileWrite (Config.Capture (config s1)) = true).
  { now rewrite Hs1. }
  assert (Hr2 : fst r2 = None /\ s2 = s1).
  { subst s2 r2. rewrite (processEvent_write_result _ _ _ _ Hid2 Hfw1). cbv zeta.
    rewrite Hp2, Habs, Hd2, Hi2, Hmnt. fold fileName.
    now rewrite decide_True. }
  destruct Hr2 as [He2 Hs2].
  repeat split; try assumption.
  - now rewrite Hs2.
  - intros Hempty. rewrite Hs2, Hs1. unfold set_writtenFiles. cbn [writtenFiles].
    rewrite Hempty. apply insert_empty.
Qed.

(** The cache policy seen from [processEvent]: an exec event with
    hash-on-output enabled, processed without error through candidate
    [pid]. *)
Lemma processEvent_hash_cache `{Env} (s : state) (c : context)
    (a : gmap string value) (metas : list ArgMeta)
    (filePath : string) (pid ct : Z) :
  execReaches s c a filePath pid ct ->
  OutputConfig.ExecHash (Config.Output (config s)) = true ->
  fst (processEvent s c a metas) = None ->
  let src := sourcePath pid filePath in
  let id := capturedID (MntID c) src in
  let hit := fst (lru_Get id (fileHashes s)) in
  let cache1 := snd (lru_Get id (fileHashes s)) in
  let f' := snd (processEvent s c a metas) in
  let stored := exists info, hit = Some info /\ LastCtime info = ct in
  (count isHash (calls (st f')) = count isHash (calls s) <-> stored)
  /\ (forall info, hit = Some info -> LastCtime info = ct ->
        args f' !! "sha256" = Some (VString (Hash info))
        /\ fileHashes (st f') = cache1)
  /\ (~ stored ->
        let h := getFileHash src (os (st f')) in
        args f' !! "sha256" = Some (VString h)
        /\ List.filter isHash (calls (st f'))
           = (List.filter isHash (calls s) ++ [CallGetFileHash src])%list
        /\ fileHashes (st f') = lru_Add id {| LastCtime := ct; Hash := h |} cache1).
Proof.
  intros Hreach Hhash Hok src id hit cache1 f' stored.
  destruct (exec_success _ _ _ _ _ _ _ Hreach Hok)
    as (f1 & f2 & Hf1 & _ & Hf2 & Hres).
  fold src id in Hf1, Hf2. fold f' in Hres. rewrite Hhash in Hf2. cbn [when] in Hf2.
  assert (Hview : hashView f1
                  = (c, a, metas, fileHashes s, List.filter isHash (calls s))).
  { pose proof (preserves_when hashView (CaptureConfig.Exec (Config.Capture (config s)))
                  _ (hashView_captureExec filePath src id ct)
                  {| st := cachePid c s; ctx := c; args := a; argMetas := metas;
                     err := None |}) as Hp.
    rewrite Hf1 in Hp. exact Hp. }
  unfold hashView in Hview. injection Hview as Hc Ha Hm Hcache Hcalls.
  rewrite hashExec_eq in Hf2. injection Hf2 as Hf2. rewrite Hres. clear Hres.
  rewrite Hcache in Hf2. fold hit cache1 in Hf2.
  assert (Hos : os (st f2) = os (st f1)).
  { rewrite <- Hf2. cbn [st]. now destruct (cachedHash hit ct). }
  destruct (cachedHash hit ct) as [h|] eqn:Hcached.
  - pose proof (proj1 (cachedHash_Some _ _ _) Hcached) as (info & Hhit & Hct & Hh).
    assert (Hstored : stored) by (exists info; auto).
    split; [|split].
    + split; [auto|]. intros _. rewrite <- Hf2. unfold count, set_fileHashes.
      cbn [st calls]. now rewrite Hcalls.
    + intros info' Hhit' _. rewrite Hhit in Hhit'. injection Hhit' as <-.
      rewrite <- Hf2. cbn [args st default]. rewrite Hh.
      split; [apply lookup_insert_eq | reflexivity].
    + intros Hno. contradiction.
  - pose proof (proj1 (cachedHash_None _ _) Hcached) as Hno.
    assert (Hcalls2 : List.filter isHash (calls (st f2))
                      = (List.filter isHash (calls s) ++ [CallGetFileHash src])%list).
    { rewrite <- Hf2. unfold set_fileHashes, log. cbn [st calls].
      rewrite List.filter_app, Hcalls. reflexivity. }
    split; [|split].
    + split; [|intros Hst; contradiction].
      unfold count. rewrite Hcalls2, length_app. cbn [length]. lia.
    + intros info Hhit Hct. exfalso. apply Hno. eauto.
    + intros _. cbv zeta. rewrite Hos. rewrite <- Hf2 at 1 2 3.
      cbn [args st default]. unfold set_fileHashes, log. cbn [calls fileHashes].
      repeat split.
      * apply lookup_insert_eq.
      * rewrite <- Hcalls2. rewrite <- Hf2. reflexivity.
Qed.

(** C5.  Whenever the hash block runs for a (namespace, resolved source
    path) pair, it completes, and the cached hash is reused (no hash is
    computed) exactly when the cache holds an entry for the pair whose
    stored change-time is the current one; the reused hash is the stored
    one and the entry is not replaced.  Otherwise the hash is computed from
    the resolved source path, that hash is the one handed out, and the entry
    is replaced by the new (change-time, hash) pair.  An exec event with
    hash-on-output enabled that is processed without error ends with this
    block, run on the event's objects and the core's cache. *)
Theorem hash_cache_reused_iff_ctime_unchanged `{Env}
    (src id : string) (ct : Z) (f : frame) :
  let hit := fst (lru_Get id (fileHashes (st f))) in
  let cache1 := snd (lru_Get id (fileHashes (st f))) in
  let f' := snd (hashExec src id ct f) in
  let stored := exists info, hit = Some info /\ LastCtime info = ct in
  fst (hashExec src id ct f) = Next tt
  /\ (count isHash (calls (st f')) = count isHash (calls (st f)) <-> stored)
  /\ (forall info, hit = Some info -> LastCtime info = ct ->
        args f' !! "sha256" = Some (VString (Hash info))
        /\ fileHashes (st f') = cache1)
  /\ (~ stored ->
        let h := getFileHash src (os (st f)) in
        args f' !! "sha256" = Some (VString h)
        /\ calls (st f') = (calls (st f) ++ [CallGetFileHash src])%list
        /\ fileHashes (st f') = lru_Add id {| LastCtime := ct; Hash := h |} cache1)
  /\ (forall s c a metas filePath pid,
        execReaches s c a filePath pid ct ->
        OutputConfig.ExecHash (Config.Output (config s)) = true ->
        fst (processEvent s c a metas) = None ->
        exists f1,
          hashView f1 = (c, a, metas, fileHashes s, List.filter isHash (calls s))
          /\ processEvent s c a metas
             = (None, snd (hashExec (sourcePath pid filePath)
                             (capturedID (MntID c) (sourcePath pid filePath))
                             ct f1))).
Proof.
  intros hit cache1 f' stored. subst f'. rewrite hashExec_eq. fold hit cache1.
  cbn [fst snd st args].
  split; [reflexivity|].
  destruct (cachedHash hit ct) as [h|] eqn:Hcached.
  - pose proof (proj1 (cachedHash_Some _ _ _) Hcached) as (info & Hhit & Hct & Hh).
    assert (Hstored : stored) by (exists info; auto).
    split; [|split; [|split]].
    + split; [auto | reflexivity].
    + intros info' Hhit' _. rewrite Hhit in Hhit'. injection Hhit' as <-.
      cbn [default]. rewrite Hh. split; [apply lookup_insert_eq | reflexivity].
    + intros Hno. contradiction.
    + apply hash_block_ends_exec_event.
  - pose proof (proj1 (cachedHash_None _ _) Hcached) as Hno.
    split; [|split; [|split]].
    + split; [|intros Hst; contradiction].
      change (calls (set_fileHashes ?x ?y)) with (calls y).
      rewrite count_log. cbn [isHash]. lia.
    + intros info Hhit Hct. exfalso. apply Hno. eauto.
    + intros _. cbn [default]. split; [apply lookup_insert_eq|]. split; reflexivity.
    + apply hash_block_ends_exec_event.
Qed.

(** C9, as amended.  A process-exec event with hash-on-output enabled, an
    absolute pathname, a well-typed ctime and a non-empty bucket for its mount
    namespace, processed without error and with room left in the argument
    count: [args] gains the key [sha256] holding the cached or computed
    hash and is otherwise unchanged, [argMetas] gains exactly one
    descriptor, named [sha256] of type [const char*], at its end, and the
    context's argument count is one more than before. *)
Theorem exec_hash_enriches_event `{Env} (s : state) (c : context)
    (a : gmap string value) (metas : list ArgMeta)
    (filePath : string) (pid ct : Z) :
  execReaches s c a filePath pid ct ->
  OutputConfig.ExecHash (Config.Output (config s)) = true ->
  fst (processEvent s c a metas) = None ->
  0 <= Argnum c + 1 < 2 ^ Argnum_bits ->
  let src := sourcePath pid filePath in
  let id := capturedID (MntID c) src in
  let f' := snd (processEvent s c a metas) in
  let h := default (getFileHash src (os (st f')))
             (cachedHash (fst (lru_Get id (fileHashes s))) ct) in
  args f' = <["sha256" := VString h]> a
  /\ argMetas f' = (metas ++ [{| Name := "sha256"; Type_ := "const char*" |}])%list
  /\ Argnum (ctx f') = Argnum c + 1
  /\ ctx f' = set_Argnum (Argnum c + 1) c.
Proof.
  intros Hreach Hhash Hok Hroom src id f' h.
  destruct (exec_success _ _ _ _ _ _ _ Hreach Hok)
    as (f1 & f2 & Hf1 & _ & Hf2 & Hres).
  fold src id in Hf1, Hf2. fold f' in Hres. rewrite Hhash in Hf2. cbn [when] in Hf2.
  assert (Hview : hashView f1
                  = (c, a, metas, fileHashes s, List.filter isHash (calls s))).
  { pose proof (preserves_when hashView (CaptureConfig.Exec (Config.Capture (config s)))
                  _ (hashView_captureExec filePath src id ct)
                  {| st := cachePid c s; ctx := c; args := a; argMetas := metas;
                     err := None |}) as Hp.
    rewrite Hf1 in Hp. exact Hp. }
  unfold hashView in Hview. injection Hview as Hc Ha Hm Hcache Hcalls.
  rewrite hashExec_eq in Hf2. injection Hf2 as Hf2. rewrite Hcache in Hf2.
  assert (Hos : os (st f2) = os (st f1)).
  { rewrite <- Hf2. cbn [st].
    now destruct (cachedHash (fst (lru_Get id (fileHashes s))) ct). }
  subst h. rewrite Hres, Hos. rewrite <- Hf2.
  cbn [args argMetas ctx]. rewrite Hc, Ha, Hm.
  unfold Go.wrapU. rewrite Z.mod_small by exact Hroom.
  repeat split.
Qed.

(** C6, as amended.  Two process-exec events with exec-capture enabled that
    resolve to the same (namespace, source path), the first processed
    without error:
    the first call copies the file once (unless the state it starts in
    already records the source at that change-time) and records the
    change-time; with the change-time unchanged the second call copies
    nothing; with a different change-time the second call, processed without
    error, makes exactly one more copy and the record then shows the new
    change-time. *)
Theorem exec_capture_once_per_ctime `{Env} (s : state) (c1 c2 : context)
    (a1 a2 : gmap string value) (metas1 metas2 : list ArgMeta)
    (filePath : string) (pid ct1 ct2 : Z) :
  CaptureConfig.Exec (Config.Capture (config s)) = true ->
  MntID c2 = MntID c1 ->
  let id := capturedID (MntID c1) (sourcePath pid filePath) in
  let r1 := processEvent s c1 a1 metas1 in
  let s1 := st (snd r1) in
  let r2 := processEvent s1 c2 a2 metas2 in
  let s2 := st (snd r2) in
  execReaches s c1 a1 filePath pid ct1 ->
  execReaches s1 c2 a2 filePath pid ct2 ->
  fst r1 = None ->
  count isCopy (calls s1)
  = (count isCopy (calls s)
     + (if decide (capturedFiles s !! id = Some ct1) then 0 else 1))%nat
  /\ capturedFiles s1 !! id = Some ct1
  /\ (ct2 = ct1 -> count isCopy (calls s2) = count isCopy (calls s1))
  /\ (ct2 <> ct1 -> fst r2 = None ->
      count isCopy (calls s2) = S (count isCopy (calls s1))
      /\ capturedFiles s2 !! id = Some ct2).
Proof.
  intros Hexec Hmnt id r1 s1 r2 s2 Hreach1 Hreach2 Hok1.
  assert (Hexec1 : CaptureConfig.Exec (Config.Capture (config s1)) = true).
  { subst s1 r1. rewrite (processEvent_config s c1 a1 metas1). exact Hexec. }
  (* the first call *)
  destruct (exec_success _ _ _ _ _ _ _ Hreach1 Hok1)
    as (f1 & f2 & Hf1 & _ & Hf2 & Hres1).
  fold id in Hf1, Hf2. rewrite Hexec in Hf1. cbn [when] in Hf1.
  pose proof (captureExec_cases filePath (sourcePath pid filePath) id ct1
                {| st := cachePid c1 s; ctx := c1; args := a1; argMetas := metas1;
                   err := None |}) as Hcap1.
  rewrite Hf1 in Hcap1. cbn [st] in Hcap1. destruct Hcap1 as (_ & Hrec1 & Hcnt1).
  change (capturedFiles (cachePid c1 s)) with (capturedFiles s) in Hrec1, Hcnt1.
  change (calls (cachePid c1 s)) with (calls s) in Hcnt1.
  assert (Hview1 : captureView f2 = captureView f1).
  { pose proof (preserves_when captureView
                  (OutputConfig.ExecHash (Config.Output (config s))) _
                  (captureView_hashExec (sourcePath pid filePath) id ct1) f1) as Hp.
    rewrite Hf2 in Hp. exact Hp. }
  unfold captureView in Hview1. injection Hview1 as _ Hrec2 Hcopies2.
  assert (Hs1rec : capturedFiles s1 = <[id := ct1]> (capturedFiles s)).
  { subst s1 r1. rewrite Hres1, Hrec2. exact Hrec1. }
  assert (Hs1cnt : count isCopy (calls s1)
                   = (count isCopy (calls s)
                      + (if decide (capturedFiles s !! id = Some ct1) then 0 else 1))%nat).
  { subst s1 r1. rewrite Hres1. unfold count in *. now rewrite Hcopies2, Hcnt1. }
  assert (Hs1look : capturedFiles s1 !! id = Some ct1).
  { rewrite Hs1rec. apply lookup_insert_eq. }
  split; [exact Hs1cnt | split; [exact Hs1look | split]].
  - (* unchanged change-time: whatever the second call does, it does not copy *)
    intros ->. subst s2 r2.
    rewrite (processEvent_exec_reached _ _ _ _ _ _ _ Hreach2).
    rewrite Hmnt. fold id. rewrite Hexec1. cbn [when].
    set (g0 := {| st := cachePid c2 s1; ctx := c2; args := a2; argMetas := metas2;
                  err := None |}).
    assert (Hskip : captureView (snd (captureExec filePath (sourcePath pid filePath)
                                        id ct1 g0)) = captureView g0).
    { apply captureExec_skips. exact Hs1look. }
    unfold run, bind.
    destruct (captureExec filePath (sourcePath pid filePath) id ct1 g0)
      as [[u|e] g1]; cbn [snd] in Hskip.
    + pose proof (preserves_when captureView
                    (OutputConfig.ExecHash (Config.Output (config s1))) _
                    (captureView_hashExec (sourcePath pid filePath) id ct1) g1) as Hp.
      destruct (when _ _ g1) as [[u'|e] g2]; cbn [snd] in Hp;
        unfold gets, return_; cbn [snd];
        unfold captureView in Hp, Hskip; injection Hp as _ _ Hp;
        injection Hskip as _ _ Hskip; unfold count; now rewrite Hp, Hskip.
    + cbn [snd]. unfold captureView in Hskip. injection Hskip as _ _ Hskip.
      unfold count. now rewrite Hskip.
  - (* a different change-time *)
    intros Hne Hok2. subst s2.
    destruct (exec_success _ _ _ _ _ _ _ Hreach2 Hok2)
      as (g1 & g2 & Hg1 & _ & Hg2 & Hres2).
    rewrite Hmnt in Hg1, Hg2. fold id in Hg1, Hg2.
    rewrite Hexec1 in Hg1. cbn [when] in Hg1.
    pose proof (captureExec_cases filePath (sourcePath pid filePath) id ct2
                  {| st := cachePid c2 s1; ctx := c2; args := a2;
                     argMetas := metas2; err := None |}) as Hcap2.
    rewrite Hg1 in Hcap2. cbn [st] in Hcap2. destruct Hcap2 as (_ & Hrec3 & Hcnt3).
    change (capturedFiles (cachePid c2 s1)) with (capturedFiles s1) in Hrec3, Hcnt3.
    change (calls (cachePid c2 s1)) with (calls s1) in Hcnt3.
    rewrite decide_False in Hcnt3 by (rewrite Hs1look; congruence).
    assert (Hview2 : captureView g2 = captureView g1).
    { pose proof (preserves_when captureView
                    (OutputConfig.ExecHash (Config.Output (config s1))) _
                    (captureView_hashExec (sourcePath pid filePath) id ct2) g1) as Hp.
      rewrite Hg2 in Hp. exact Hp. }
    unfold captureView in Hview2. injection Hview2 as _ Hrec4 Hcopies4.
    fold r2 in Hres2. rewrite Hres2. split.
    + unfold count in *. rewrite Hcopies4, Hcnt3. lia.
    + rewrite Hrec4, Hrec3. apply lookup_insert_eq.
Qed.

(** ** The properties on concrete events *)

Lemma not_ending_in_star (f : string) :
  Go.index f (Go.len f - 1) <> Some "*"%char ->
  forall p, f <> (p ++ "*")%string.
Proof. intros Hlast p ->. apply Hlast. apply index_last. Qed.

Ltac solve_reaches :=
  unfold execReaches; repeat (apply conj); vm_compute; reflexivity.

(** C1, at the input on which the code departs from it.  The bucket of the
    event's mount namespace is [[100; 200]]; process 100 has exited, process
    200 is alive and the file can be copied through it.  [processEvent]
    tries [/proc/100/root/bin/ls], returns that candidate's error and never
    tries [/proc/200/root/bin/ls]. *)
Theorem exec_resolution_stops_at_first_failure :
  let r := processEvent (H := Demo.env) Demo.staleBucketState Demo.execCtx
             (Demo.execArgs 1000) [] in
  GetBucket (Env := Demo.env) 7 (pidsInMntns (st (snd r))) = [100; 200]
  /\ fst r = Some "stat /proc/100/root/bin/ls: no such file or directory"
  /\ calls (st (snd r))
     = [CallMkdirAll "/tmp/tracee/out/7";
        CallCopyFileByPath "/proc/100/root/bin/ls" "/tmp/tracee/out/7/exec.5000.ls"]
  /\ fst (CopyFileByPath (H := Demo.env) "/proc/200/root/bin/ls"
            "/tmp/tracee/out/7/exec.5000.ls" Demo.w1) = None.
Proof. vm_compute. repeat split; reflexivity. Qed.

(** C3 as stated fails: the return value passes the return-value filter,
    whose two bounds are set, and [shouldProcessEvent] still answers
    [false], because the argument filter configured for the same event type
    drops the event. *)
Lemma ret_filter_passes_argument_filter_drops :
  let a : gmap string value := {[ "pathname" := VString "/tmp/a" ]} in
  let cfg := Demo.bothFiltersConfig [("pathname", Demo.etcFilter)] in
  RetFilter.Filters (Filter.RetFilter (Config.Filter cfg)) !! EventID Demo.writeCtx
    = Some Demo.retFilter
  /\ IntFilter.Greater Demo.retFilter <> GreaterNotSetInt (Env := Demo.env)
  /\ IntFilter.Less Demo.retFilter <> LessNotSetInt (Env := Demo.env)
  /\ (IntFilter.Greater Demo.retFilter < Retval Demo.writeCtx
        < IntFilter.Less Demo.retFilter
      /\ (Retval Demo.writeCtx ∉ IntFilter.NotEqual Demo.retFilter)
      /\ Retval Demo.writeCtx ∈ IntFilter.Equal Demo.retFilter)
  /\ shouldProcessEvent (H := Demo.env) cfg Demo.writeCtx a = Some false.
Proof.
  cbv zeta. split; [vm_compute; reflexivity|].
  split; [vm_compute; discriminate|]. split; [vm_compute; discriminate|].
  split; [|vm_compute; reflexivity].
  change (-1 < 0 < 10 /\ (0 ∉ [5]) /\ 0 ∈ [0; 3]).
  split; [lia|]. split; [|left].
  intros Hin. apply list_elem_of_In in Hin. destruct Hin as [Hin|[]]. discriminate Hin.
Qed.

(** C7 as stated fails: two identical write events whose pathname is not
    absolute, with [dev] and [inode] well-typed and write-capture enabled.
    Neither call updates the index, which holds no entry for the key
    afterwards. *)
Lemma write_relative_path_never_indexed :
  let s := Demo.state0 (Demo.config0 true false false) ∅ Demo.w1 in
  let r1 := processEvent (H := Demo.env) s Demo.writeCtx Demo.memfdArgs [] in
  let r2 := processEvent (H := Demo.env) (st (snd r1)) Demo.writeCtx
              Demo.memfdArgs [] in
  CaptureConfig.FileWrite (Config.Capture (config s)) = true
  /\ writtenFiles (st (snd r1)) = writtenFiles s
  /\ writtenFiles (st (snd r2)) !! writtenFileName 7 8 100 = None.
Proof. vm_compute. repeat split; reflexivity. Qed.

(** C6 as stated fails: two exec events with exec-capture enabled, the same
    namespace, resolved source path and change-time, but the source cannot
    be copied (the only candidate has exited).  Each call attempts the copy
    and returns its error; nothing is recorded, so the second call does not
    skip the copy. *)
Lemma exec_capture_failed_copy_is_retried :
  let s := Demo.state0 (Demo.config0 false true false) ∅ Demo.w1 in
  let r1 := processEvent (H := Demo.env) s Demo.exitedCtx (Demo.execArgs 1000) [] in
  let r2 := processEvent (H := Demo.env) (st (snd r1)) Demo.exitedCtx
              (Demo.execArgs 1000) [] in
  execReaches (H := Demo.env) s Demo.exitedCtx (Demo.execArgs 1000) "/bin/ls" 100 1000
  /\ execReaches (H := Demo.env) (st (snd r1)) Demo.exitedCtx (Demo.execArgs 1000)
       "/bin/ls" 100 1000
  /\ CaptureConfig.Exec (Config.Capture (config s)) = true
  /\ count isCopy (calls (st (snd r1))) = 1%nat
  /\ count isCopy (calls (st (snd r2))) = 2%nat
  /\ capturedFiles (st (snd r2)) = ∅.
Proof.
  cbv zeta. split; [solve_reaches|]. split; [solve_reaches|].
  vm_compute. repeat split; reflexivity.
Qed.

(** C9 as stated fails: hash-on-output enabled, an absolute pathname, a
    well-typed ctime and a non-empty bucket, but exec-capture is enabled as
    well and the file cannot be copied through the only candidate, which
    has exited.  Processing returns the copy error before the hash block:
    no [sha256] argument, no descriptor, the argument count unchanged. *)
Lemma exec_capture_failure_skips_hash :
  let s := Demo.state0 (Demo.config0 false true true) ∅ Demo.w1 in
  let r := processEvent (H := Demo.env) s Demo.exitedCtx (Demo.execArgs 1000) [] in
  execReaches (H := Demo.env) s Demo.exitedCtx (Demo.execArgs 1000) "/bin/ls" 100 1000
  /\ OutputConfig.ExecHash (Config.Output (config s)) = true
  /\ GetBucket (Env := Demo.env) 7 (pidsInMntns (st (snd r))) = [100]
  /\ fst r = Some "stat /proc/100/root/bin/ls: no such file or directory"
  /\ args (snd r) !! "sha256" = None
  /\ argMetas (snd r) = []
  /\ Argnum (ctx (snd r)) = Argnum Demo.exitedCtx.
Proof.
  cbv zeta. split; [solve_reaches|]. vm_compute. repeat split; reflexivity.
Qed.

(** C8 as stated fails: a write event whose [pathname] is not absolute and
    whose [dev] is absent is ignored without error, although an argument the
    claim lists is absent. *)
Lemma write_relative_path_missing_dev_no_error :
  let a : gmap string value := {[ "pathname" := VString "memfd:buf" ]} in
  let s := Demo.state0 (Demo.config0 true false false) ∅ Demo.w1 in
  CaptureConfig.FileWrite (Config.Capture (config s)) = true
  /\ EventID Demo.writeCtx = VfsWriteEventID (Env := Demo.env)
  /\ assertUint32 (a !! "dev") = None
  /\ fst (processEvent (H := Demo.env) s Demo.writeCtx a []) = None.
Proof. vm_compute. repeat split; reflexivity. Qed.

(** C10 as stated fails: the accept-list holds the empty pattern and the
    named argument is present, yet evaluation returns a decision, because
    the argument's text is empty and [argValStr == f] holds before the
    pattern is indexed. *)
Lemma empty_pattern_empty_value_returns :
  let a : gmap string value := {[ "pathname" := VString EmptyString ]} in
  let cfg := Demo.argFilterConfig [("pathname", Demo.emptyPatternFilter)] in
  In EmptyString (ArgFilterVal.Equal Demo.emptyPatternFilter)
  /\ is_Some (a !! "pathname")
  /\ shouldProcessEvent (H := Demo.env) cfg Demo.writeCtx a = Some true.
Proof. vm_compute. repeat split; eauto. Qed.

(** C2 as stated fails: the kernel table does not hold the key of the
    socket event.  Three socket events from a guard that has not fired:
    the pruner runs once, looks up the table and the key, and issues no
    deletion at all. *)
Lemma socket_key_absent_nothing_deleted :
  let w : Demo.host := {| Demo.files := []; Demo.tails := [] |} in
  let s := Demo.state0 (Demo.config0 true false false) ∅ w in
  let ev : context * gmap string value * list ArgMeta := (Demo.socketCtx, ∅, []) in
  let s1 := deliver (H := Demo.env) s [ev; ev; ev] in
  removeSocketTailOnce s = false
  /\ removeSocketTailOnce s1 = true
  /\ calls s1 = [CallGetMap "sys_exit_tails"; CallGetValue 41]
  /\ count isDeleteKey (calls s1) = 0%nat.
Proof. vm_compute. repeat split; reflexivity. Qed.

(** ** Witnesses: the general results applied to concrete events *)

(** C2, as amended, on three socket events followed by a write event and a
    fourth socket event, the kernel table holding the key: one lookup of
    the table, one of the key, one deletion, and the key is gone. *)
Lemma socket_tail_pruned_exactly_once_witness :
  let s := Demo.state0 (Demo.config0 true false false) ∅ Demo.w1 in
  let sockets : list (context * gmap string value * list ArgMeta) :=
    [(Demo.socketCtx, ∅, []); (Demo.socketCtx, ∅, []); (Demo.socketCtx, ∅, [])] in
  let later : list (context * gmap string value * list ArgMeta) :=
    [(Demo.writeCtx, Demo.writeArgs, []); (Demo.socketCtx, ∅, [])] in
  let s1 := deliver (H := Demo.env) s sockets in
  let s2 := deliver (H := Demo.env) s1 later in
  calls s1 = [CallGetMap "sys_exit_tails"; CallGetValue 41; CallDeleteKey 41]
  /\ count isDeleteKey (calls s1) = 1%nat
  /\ Demo.tails (os s1) = []
  /\ removeSocketTailOnce s2 = true
  /\ count isGetMap (calls s2) = 1%nat
  /\ count isDeleteKey (calls s2) = 1%nat.
Proof.
  intros s sockets later s1 s2.
  assert (Hne : sockets <> []) by discriminate.
  assert (Hall : Forall (fun ev => EventID (fst (fst ev))
                                   = SocketEventID (Env := Demo.env)) sockets)
    by (repeat constructor).
  destruct (socket_tail_pruned_exactly_once (H := Demo.env) s sockets later
              eq_refl Hne Hall)
    as (Hcalls & Hget & Hdel & Hos & _ & Hflag & Hget2 & Hdel2).
  split; [exact Hcalls|]. split; [exact Hdel|].
  split; [exact (f_equal Demo.tails Hos)|]. split; [exact Hflag|].
  split; [exact (eq_trans Hget2 Hget) | exact (eq_trans Hdel2 Hdel)].
Defined.

(** C3, as amended, on a write event returning 0, filter [-1 < ret < 10],
    accept [0; 3], reject [5]. *)
Lemma shouldProcessEvent_ret_filter_both_bounds_witness :
  shouldProcessEvent (H := Demo.env) Demo.retFilterConfig Demo.writeCtx ∅
    = Some true
  <-> -1 < 0 < 10 /\ (0 ∉ [5]) /\ ([0; 3] = [] \/ 0 ∈ [0; 3]).
Proof.
  apply (shouldProcessEvent_ret_filter_both_bounds (H := Demo.env)
           Demo.retFilterConfig Demo.writeCtx ∅ Demo.retFilter).
  - reflexivity.
  - vm_compute. reflexivity.
  - vm_compute. discriminate.
  - vm_compute. discriminate.
  - reflexivity.
Defined.

(** C5 on the cached entry: change-time 1000 is the stored one. *)
Lemma hash_cache_reused_iff_ctime_unchanged_witness :
  let f := {| st := Demo.warmCacheState; ctx := Demo.execCtx;
              args := Demo.execArgs 1000; argMetas := []; err := None |} in
  let f' := snd (hashExec (H := Demo.env) "/proc/200/root/bin/ls"
                   "7:/proc/200/root/bin/ls" 1000 f) in
  count isHash (calls (st f')) = count isHash (calls (st f))
  /\ args f' !! "sha256" = Some (VString (Hash Demo.cachedInfo)).
Proof.
  intros f f'.
  destruct (hash_cache_reused_iff_ctime_unchanged (H := Demo.env)
              "/proc/200/root/bin/ls" "7:/proc/200/root/bin/ls" 1000 f)
    as (_ & Hiff & Hhit & _).
  split.
  - apply (proj2 Hiff). exists Demo.cachedInfo. split; vm_compute; reflexivity.
  - apply (Hhit Demo.cachedInfo); vm_compute; reflexivity.
Defined.

(** C6, as amended, on two exec events for [/bin/ls] in namespace 7, change-time 1000
    then 2000. *)
Lemma exec_capture_once_per_ctime_witness :
  let s := Demo.state0 (Demo.config0 false true false) {[ 7 := [200] ]} Demo.w1 in
  let r1 := processEvent (H := Demo.env) s Demo.execCtx (Demo.execArgs 1000) [] in
  let r2 := processEvent (H := Demo.env) (st (snd r1)) Demo.execCtx
              (Demo.execArgs 2000) [] in
  fst r1 = None /\ fst r2 = None
  /\ count isCopy (calls (st (snd r1))) = 1%nat
  /\ count isCopy (calls (st (snd r2))) = 2%nat
  /\ capturedFiles (st (snd r2)) !! "7:/proc/200/root/bin/ls" = Some 2000.
Proof.
  intros s r1 r2.
  assert (Hok1 : fst r1 = None) by (vm_compute; reflexivity).
  assert (Hok2 : fst r2 = None) by (vm_compute; reflexivity).
  assert (Hreach1 : execReaches (H := Demo.env) s Demo.execCtx
                      (Demo.execArgs 1000) "/bin/ls" 200 1000) by solve_reaches.
  assert (Hreach2 : execReaches (H := Demo.env) (st (snd r1)) Demo.execCtx
                      (Demo.execArgs 2000) "/bin/ls" 200 2000) by solve_reaches.
  destruct (exec_capture_once_per_ctime (H := Demo.env) s Demo.execCtx Demo.execCtx
              (Demo.execArgs 1000) (Demo.execArgs 2000) [] [] "/bin/ls" 200 1000 2000
              eq_refl eq_refl Hreach1 Hreach2 Hok1)
    as (Hc1 & _ & _ & Hdiff).
  destruct (Hdiff ltac:(discriminate) Hok2) as (Hc2 & Hrec).
  split; [exact Hok1|]. split; [exact Hok2|]. split; [exact Hc1|].
  split; [|exact Hrec]. exact (eq_trans Hc2 (f_equal S Hc1)).
Defined.

(** C7, as amended, on the write event for [/tmp/a], device 8, inode 100,
    delivered twice to a core with an empty index. *)
Lemma write_event_indexed_once_witness :
  let s := Demo.state0 (Demo.config0 true false false) ∅ Demo.w1 in
  let r1 := processEvent (H := Demo.env) s Demo.writeCtx Demo.writeArgs [] in
  let r2 := processEvent (H := Demo.env) (st (snd r1)) Demo.writeCtx
              Demo.writeArgs [] in
  fst r1 = None /\ fst r2 = None
  /\ st (snd r2) = st (snd r1)
  /\ writtenFiles (st (snd r2)) = {[ "7/write.dev-8.inode-100" := "/tmp/a" ]}.
Proof.
  intros s r1 r2.
  destruct (write_event_indexed_once (H := Demo.env) s Demo.writeCtx Demo.writeCtx
              Demo.writeArgs Demo.writeArgs [] [] "/tmp/a" 8 100)
    as (H1 & H2 & _ & Hsame & _ & Hone); try (vm_compute; reflexivity).
  - left. reflexivity.
  - left. reflexivity.
  - split; [exact H1|]. split; [exact H2|]. split; [exact Hsame|].
    apply Hone. reflexivity.
Defined.

(** C8, as amended, on a write event without [dev]: refused when the path
    is absolute. *)
Lemma write_event_argument_checks_witness :
  let s := Demo.state0 (Demo.config0 true false false) ∅ Demo.w1 in
  let a : gmap string value :=
    {[ "pathname" := VString "/tmp/a"; "inode" := VUint64 100 ]} in
  fst (processEvent (H := Demo.env) s Demo.writeCtx a [])
  = Some "error parsing vfs_write args".
Proof.
  intros s a.
  destruct (write_event_argument_checks (H := Demo.env) s Demo.writeCtx a [])
    as (_ & _ & Hmissing & _).
  - left. reflexivity.
  - reflexivity.
  - apply (Hmissing "/tmp/a"); [vm_compute; reflexivity | reflexivity |].
    left. vm_compute. reflexivity.
Defined.

(** C9, as amended, on the exec event for [/bin/ls], change-time 1000,
    hash-on-output enabled, process 200 alive in the namespace. *)
Lemma exec_hash_enriches_event_witness :
  let s := Demo.state0 (Demo.config0 false false true) ∅ Demo.w1 in
  let r := processEvent (H := Demo.env) s Demo.execCtx (Demo.execArgs 1000) [] in
  fst r = None
  /\ args (snd r)
     = <["sha256" := VString
           "e3b0c44298fc1c149afbf4c8996fb92427ae41e4649b934ca495991b7852b855"]>
         (Demo.execArgs 1000)
  /\ argMetas (snd r) = [{| Name := "sha256"; Type_ := "const char*" |}]
  /\ Argnum (ctx (snd r)) = Argnum Demo.execCtx + 1.
Proof.
  intros s r.
  assert (Hreach : execReaches (H := Demo.env) s Demo.execCtx
                     (Demo.execArgs 1000) "/bin/ls" 200 1000) by solve_reaches.
  assert (Hok : fst r = None) by (vm_compute; reflexivity).
  assert (Hroom : 0 <= Argnum Demo.execCtx + 1 < 2 ^ Argnum_bits (Env := Demo.env))
    by (change (0 <= 2 + 1 < 2 ^ 8); lia).
  destruct (exec_hash_enriches_event (H := Demo.env) s Demo.execCtx
              (Demo.execArgs 1000) [] "/bin/ls" 200 1000 Hreach eq_refl Hok Hroom)
    as (Hargs & Hmetas & Hnum & _).
  split; [exact Hok|]. split; [|split; [exact Hmetas | exact Hnum]].
  subst r. rewrite Hargs. vm_compute. reflexivity.
Defined.

(** C10, as amended, on the filter [/etc/*] (total) and on the empty
    pattern with the value [/tmp/a] (abort). *)
Lemma argument_filter_total_unless_empty_pattern_witness :
  let a : gmap string value := {[ "pathname" := VString "/tmp/a" ]} in
  is_Some (shouldProcessEvent (H := Demo.env)
             (Demo.argFilterConfig [("pathname", Demo.etcFilter)]) Demo.writeCtx a)
  /\ shouldProcessEvent (H := Demo.env)
       (Demo.argFilterConfig [("pathname", Demo.emptyPatternFilter)])
       Demo.writeCtx a = None.
Proof.
  intros a. split.
  - apply (proj1 (argument_filter_total_unless_empty_pattern (H := Demo.env)
                    (Demo.argFilterConfig [("pathname", Demo.etcFilter)])
                    Demo.writeCtx a)).
    vm_compute. repeat constructor; discriminate.
  - apply (proj2 (argument_filter_total_unless_empty_pattern (H := Demo.env)
                    (Demo.argFilterConfig [("pathname", Demo.emptyPatternFilter)])
                    Demo.writeCtx a)
             [] "pathname" Demo.emptyPatternFilter [] (VString "/tmp/a")).
    + reflexivity.
    + reflexivity.
    + vm_compute. reflexivity.
    + reflexivity.
    + vm_compute. reflexivity.
    + discriminate.
    + left. exists [], []. split; reflexivity.
Defined.

(** ** Further properties of the filter evaluator *)

Section FilterSemantics.
Context `{Env}.

Lemma snoc_inj (a b : string) (c d : ascii) :
  (a ++ String c EmptyString)%string = (b ++ String d EmptyString)%string ->
  a = b /\ c = d.
Proof.
  revert b. induction a as [|x a IH]; intros [|y b]; norm_append; intros Heq.
  - injection Heq as ->. auto.
  - injection Heq as -> Heq. destruct b; discriminate.
  - injection Heq as -> Heq. destruct a; discriminate.
  - injection Heq as -> Heq. destruct (IH _ Heq) as [-> ->]. auto.
Qed.

Lemma retFilterPasses_admits (filter : IntFilter.t) (retVal : Z) :
  retFilterPasses filter retVal = true <-> admits filter retVal.
Proof.
  rewrite retFilterPasses_conj. unfold admits.
  rewrite !andb_true_iff, !negb_true_iff.
  rewrite accept_stage_spec, <- not_true_iff_false, existsb_Zeqb.
  rewrite !andb_false_iff, !negb_false_iff, !Z.eqb_eq, Z.leb_gt, Z.geb_leb, Z.leb_gt.
  tauto.
Qed.

Lemma patternMatches_matches (v f : string) :
  f <> EmptyString ->
  exists b, patternMatches v f = Some b /\ (b = true <-> matchesPattern v f).
Proof.
  intros Hf.
  destruct (string_snoc_cases f) as [-> | (pre & c & ->)]; [contradiction|].
  destruct (Ascii.eqb_spec c "*"%char) as [-> | Hc].
  - exists (Go.HasPrefix v pre). split; [apply patternMatches_wildcard|].
    rewrite HasPrefix_spec. unfold matchesPattern. split.
    + intros [rest ->]. right. eauto.
    + intros [-> | (pre' & rest & Heq & ->)]; [now exists "*"%string|].
      apply snoc_inj in Heq as [-> _]. eauto.
  - assert (Hstar : forall p, (pre ++ String c EmptyString)%string <> (p ++ "*")%string).
    { intros p Heq. apply snoc_inj in Heq as [_ ->]. contradiction. }
    pose proof (patternMatches_exact v _ Hstar) as Hex.
    destruct (patternMatches_total v (pre ++ String c EmptyString) Hf) as [b Hb].
    exists b. split; [exact Hb|]. rewrite Hb in Hex. unfold matchesPattern.
    split.
    + intros ->. left. now apply Hex.
    + intros [Heq | (pre' & rest & Heq & _)].
      * apply Hex in Heq. congruence.
      * exfalso. exact (Hstar _ Heq).
Qed.

Lemma anyPatternMatches_matches (v : string) (fs : list string) :
  Forall (fun f => f <> EmptyString) fs ->
  exists b, anyPatternMatches v fs = Some b
            /\ (b = true <-> Exists (matchesPattern v) fs).
Proof.
  induction 1 as [|f fs Hf _ (b & Hb & IH)]; cbn [anyPatternMatches].
  - exists false. split; [reflexivity|]. rewrite Exists_nil. split; [discriminate | tauto].
  - destruct (patternMatches_matches v f Hf) as (m & -> & Hm). cbn.
    destruct m.
    + exists true. split; [reflexivity|]. split; [|reflexivity].
      intros _. apply Exists_cons_hd. now apply Hm.
    + exists b. split; [exact Hb|]. rewrite Exists_cons, <- IH.
      split; [tauto|]. intros [Hx | Hx]; [|exact Hx].
      apply Hm in Hx. discriminate.
Qed.

Lemma argFilterEntry_accepts (args : gmap string value)
    (entry : string * ArgFilterVal.t) :
  Forall (fun f => f <> EmptyString) (ArgFilterVal.Equal (snd entry)) ->
  Forall (fun f => f <> EmptyString) (ArgFilterVal.NotEqual (snd entry)) ->
  exists b, argFilterEntry args entry = Some b
            /\ (b = true <->
                forall v, args !! fst entry = Some v -> accepts (snd entry) (Sprint v)).
Proof.
  destruct entry as [argName filter]. cbn [fst snd]. intros Heq Hne.
  unfold argFilterEntry. destruct (args !! argName) as [argVal|].
  - destruct (anyPatternMatches_matches (Sprint argVal) _ Heq) as (m & -> & Hm).
    destruct (anyPatternMatches_matches (Sprint argVal) _ Hne) as (r & -> & Hr).
    cbn. unfold accepts.
    assert (Hnone : r = false <->
              Forall (fun f => ~ matchesPattern (Sprint argVal) f)
                     (ArgFilterVal.NotEqual filter)).
    { rewrite <- not_true_iff_false, Hr. symmetry. apply Forall_Exists_neg. }
    destruct (ArgFilterVal.Equal filter) as [|f0 fs0] eqn:Hlist.
    + assert (m = false) as ->.
      { destruct m; [|reflexivity]. destruct Hm as [Hm _].
        specialize (Hm eq_refl). inversion Hm. }
      cbn. exists (negb r). split; [now destruct r|].
      rewrite negb_true_iff, Hnone. split.
      * intros Hall v [= <-]. auto.
      * intros Hall. now apply (Hall argVal).
    + replace (0 <? Z.of_nat (length (f0 :: fs0))) with true
        by (symmetry; apply Z.ltb_lt; cbn [length]; lia).
      rewrite andb_true_r. destruct m; cbn.
      * exists (negb r). split; [now destruct r|].
        rewrite negb_true_iff, Hnone. split.
        -- intros Hall v [= <-]. split; [right; now apply Hm | exact Hall].
        -- intros Hall. now apply (Hall argVal).
      * exists false. split; [reflexivity|]. split; [discriminate|].
        intros Hall. destruct (Hall argVal eq_refl) as [[Hnil | Hex] _];
          [discriminate|]. apply Hm in Hex. discriminate.
  - exists true. split; [reflexivity|]. split; [|reflexivity]. intros _ v Hv.
    discriminate.
Qed.

Lemma argFilterLoop_accepts (args : gmap string value)
    (entries : list (string * ArgFilterVal.t)) :
  patternsNonEmpty entries ->
  exists b, argFilterLoop args entries = Some b
            /\ (b = true <->
                Forall (fun e : string * ArgFilterVal.t =>
                          forall v, args !! fst e = Some v -> accepts (snd e) (Sprint v))
                       entries).
Proof.
  induction 1 as [|entry entries [Heq Hne] _ (b & Hb & IH)]; cbn [argFilterLoop].
  - exists true. split; [reflexivity|]. split; [constructor | reflexivity].
  - destruct (argFilterEntry_accepts args entry Heq Hne) as (g & -> & Hg). cbn.
    destruct g.
    + exists b. split; [exact Hb|]. rewrite Forall_cons, <- IH, <- Hg. tauto.
    + exists false. split; [reflexivity|]. split; [discriminate|].
      rewrite Forall_cons, <- Hg. intros [Hx _]. discriminate.
Qed.

Lemma patternsNonEmpty_Permutation (entries entries' : list (string * ArgFilterVal.t)) :
  entries ≡ₚ entries' -> patternsNonEmpty entries -> patternsNonEmpty entries'.
Proof. unfold patternsNonEmpty. intros Hp. now rewrite Hp. Qed.

Lemma argFilterLoop_Permutation (args : gmap string value)
    (entries entries' : list (string * ArgFilterVal.t)) :
  patternsNonEmpty entries -> entries ≡ₚ entries' ->
  argFilterLoop args entries = argFilterLoop args entries'.
Proof.
  intros Hne Hperm.
  pose proof (patternsNonEmpty_Permutation _ _ Hperm Hne) as Hne'.
  destruct (argFilterLoop_accepts args entries Hne) as (b & -> & Hb).
  destruct (argFilterLoop_accepts args entries' Hne') as (b' & -> & Hb').
  rewrite Hperm in Hb. rewrite <- Hb' in Hb.
  f_equal. destruct b, b'; try reflexivity; [symmetry|]; now apply Hb.
Qed.

Lemma matchesPattern_cases (v f : string) :
  matchesPattern v f <->
  (exists pre rest, f = (pre ++ "*")%string /\ v = (pre ++ rest)%string)
  \/ ((forall pre, f <> (pre ++ "*")%string) /\ v = f).
Proof.
  unfold matchesPattern. split.
  - intros [-> | Hw]; [|now left].
    destruct (string_snoc_cases f) as [-> | (pre & c & ->)].
    + right. split; [|reflexivity]. intros pre Heq.
      destruct pre; rewrite ?append_nil, ?append_cons in Heq; discriminate.
    + destruct (Ascii.eqb_spec c "*"%char) as [-> | Hc].
      * left. exists pre, "*"%string. auto.
      * right. split; [|reflexivity]. intros p Heq.
        apply snoc_inj in Heq as [_ ->]. contradiction.
  - intros [Hw | [_ ->]]; [now right | now left].
Qed.

(** The test of lines 64 and 73 succeeds exactly on the values that match
    the pattern, the empty pattern included. *)
Lemma patternMatches_reading (v f : string) :
  patternMatches v f = Some true <-> matchesPattern v f.
Proof.
  destruct (decide (f = EmptyString)) as [-> | Hf].
  - assert (Hstar : forall p, EmptyString <> (p ++ "*")%string).
    { intros p Heq. destruct p; rewrite ?append_nil, ?append_cons in Heq;
        discriminate. }
    rewrite (patternMatches_exact v EmptyString Hstar), matchesPattern_cases.
    split; [intros ->; right; auto|].
    intros [(pre & rest & Heq & _) | [_ ->]]; [|reflexivity].
    exfalso. exact (Hstar _ Heq).
  - destruct (patternMatches_matches v f Hf) as (b & -> & Hb).
    rewrite <- Hb. split; [now intros [= ->] | now intros ->].
Qed.

(** What an answer of the loops tells, whatever the patterns are. *)
Lemma anyPatternMatches_true (v : string) (fs : list string) :
  anyPatternMatches v fs = Some true -> Exists (matchesPattern v) fs.
Proof.
  induction fs as [|f fs IH]; cbn [anyPatternMatches]; [discriminate|].
  destruct (patternMatches v f) as [[|]|] eqn:Hf; cbn; [| |discriminate].
  - intros _. apply Exists_cons_hd. now apply patternMatches_reading.
  - intros Hrest. apply Exists_cons_tl. now apply IH.
Qed.

Lemma anyPatternMatches_false (v : string) (fs : list string) :
  anyPatternMatches v fs = Some false ->
  Forall (fun f => ~ matchesPattern v f) fs.
Proof.
  induction fs as [|f fs IH]; cbn [anyPatternMatches]; [constructor|].
  destruct (patternMatches v f) as [[|]|] eqn:Hf; cbn; [discriminate| |discriminate].
  intros Hrest. constructor; [|now apply IH].
  intros Hm. apply patternMatches_reading in Hm. congruence.
Qed.

Lemma argFilterEntry_true (args : gmap string value) (argName : string)
    (filter : ArgFilterVal.t) (argVal : value) :
  args !! argName = Some argVal ->
  argFilterEntry args (argName, filter) = Some true ->
  accepts filter (Sprint argVal).
Proof.
  intros Harg. unfold argFilterEntry. rewrite Harg.
  destruct (anyPatternMatches _ (ArgFilterVal.Equal filter)) as [m|] eqn:Hm;
    cbn; [|discriminate].
  destruct (negb m && _) eqn:Hguard; [discriminate|].
  destruct (anyPatternMatches _ (ArgFilterVal.NotEqual filter)) as [[|]|] eqn:Hr;
    cbn; [discriminate| |discriminate].
  intros _. split; [|now apply anyPatternMatches_false].
  destruct m; [right; now apply anyPatternMatches_true|].
  left. cbn in Hguard. apply Z.ltb_ge in Hguard.
  destruct (ArgFilterVal.Equal filter); [reflexivity | cbn [length] in Hguard; lia].
Qed.

Lemma argFilterEntry_false (args : gmap string value) (argName : string)
    (filter : ArgFilterVal.t) :
  argFilterEntry args (argName, filter) = Some false ->
  exists argVal, args !! argName = Some argVal
                 /\ ~ accepts filter (Sprint argVal).
Proof.
  unfold argFilterEntry. destruct (args !! argName) as [argVal|]; [|discriminate].
  intros Hentry. exists argVal. split; [reflexivity|]. intros [Hacc Hrej].
  destruct (anyPatternMatches _ (ArgFilterVal.Equal filter)) as [m|] eqn:Hm;
    cbn in Hentry; [|discriminate].
  destruct (negb m && _) eqn:Hguard.
  - apply andb_true_iff in Hguard as [Hneg Hlen].
    apply negb_true_iff in Hneg as ->. apply Z.ltb_lt in Hlen.
    apply anyPatternMatches_false in Hm.
    destruct Hacc as [Hnil | Hex]; [rewrite Hnil in Hlen; cbn in Hlen; lia|].
    apply Exists_exists in Hex as (f & Hin & Hf).
    rewrite Forall_forall in Hm. exact (Hm f Hin Hf).
  - destruct (anyPatternMatches _ (ArgFilterVal.NotEqual filter)) as [[|]|] eqn:Hr;
      cbn in Hentry; try discriminate.
    apply anyPatternMatches_true in Hr.
    apply Exists_exists in Hr as (f & Hin & Hf).
    rewrite Forall_forall in Hrej. exact (Hrej f Hin Hf).
Qed.

Lemma argFilterLoop_true (args : gmap string value)
    (entries : list (string * ArgFilterVal.t)) :
  argFilterLoop args entries = Some true ->
  forall argName filter argVal,
    (argName, filter) ∈ entries -> args !! argName = Some argVal ->
    accepts filter (Sprint argVal).
Proof.
  induction entries as [|[n0 f0] entries IH]; cbn [argFilterLoop].
  - intros _ argName filter argVal Hin. now apply elem_of_nil in Hin.
  - destruct (argFilterEntry args (n0, f0)) as [[|]|] eqn:Hentry; cbn;
      [|discriminate|discriminate].
    intros Hrest argName filter argVal Hin Harg.
    apply elem_of_cons in Hin as [[= -> ->] | Hin].
    + exact (argFilterEntry_true _ _ _ _ Harg Hentry).
    + exact (IH Hrest _ _ _ Hin Harg).
Qed.

Lemma argFilterLoop_false (args : gmap string value)
    (entries : list (string * ArgFilterVal.t)) :
  argFilterLoop args entries = Some false ->
  exists argName filter argVal,
    (argName, filter) ∈ entries /\ args !! argName = Some argVal
    /\ ~ accepts filter (Sprint argVal).
Proof.
  induction entries as [|[n0 f0] entries IH]; cbn [argFilterLoop]; [discriminate|].
  destruct (argFilterEntry args (n0, f0)) as [[|]|] eqn:Hentry; cbn;
    [| |discriminate].
  - intros Hrest. destruct (IH Hrest) as (argName & filter & argVal & Hin & Hrest').
    exists argName, filter, argVal. split; [now apply list_elem_of_further | exact Hrest'].
  - intros _. destruct (argFilterEntry_false _ _ _ Hentry) as (argVal & Harg & Hno).
    exists n0, f0, argVal. split; [apply list_elem_of_here | auto].
Qed.

End FilterSemantics.

(** C4.  In argument filtering a pattern is read as follows: a pattern
    ending in [*] matches the values that start with the pattern minus
    the marker, and a pattern not ending in [*] matches only the value
    equal to it.  The test the code applies to the textual form of an
    argument (lines 64 and 73) succeeds exactly on the values that match.
    A filter lets a value through when the value matches a pattern of its
    accept-list (or that list is empty) and no pattern of its reject-list.
    When the argument family lets the event through, every configured
    argument that the event carries has a textual form its filter lets
    through; when it drops the event, the event carries a configured
    argument whose textual form its filter does not let through; and with
    no empty pattern configured it does answer.  A configured argument
    that the event does not carry is skipped: the answer is the one of
    the loop over the other entries.  When the return-value family lets
    the event through, this answer is the decision of
    [shouldProcessEvent]. *)
Theorem argument_filter_pattern_semantics `{Env}
    (cfg : Config.t) (ctx : context) (args : gmap string value)
    (entries : list (string * ArgFilterVal.t)) :
  ArgFilter.Enabled (Filter.ArgFilter (Config.Filter cfg)) = true ->
  ArgFilter.Filters (Filter.ArgFilter (Config.Filter cfg)) !! EventID ctx
    = Some entries ->
  let matches (v f : string) : Prop :=
    (exists pre rest, f = (pre ++ "*")%string /\ v = (pre ++ rest)%string)
    \/ ((forall pre, f <> (pre ++ "*")%string) /\ v = f) in
  let passes (filter : ArgFilterVal.t) (v : string) : Prop :=
    (ArgFilterVal.Equal filter = []
     \/ exists f, f ∈ ArgFilterVal.Equal filter /\ matches v f)
    /\ (forall f, f ∈ ArgFilterVal.NotEqual filter -> ~ matches v f) in
  (forall v f, patternMatches v f = Some true <-> matches v f)
  /\ (argFilterStage cfg ctx args = Some true ->
      forall argName filter argVal,
        (argName, filter) ∈ entries -> args !! argName = Some argVal ->
        passes filter (Sprint argVal))
  /\ (argFilterStage cfg ctx args = Some false ->
      exists argName filter argVal,
        (argName, filter) ∈ entries /\ args !! argName = Some argVal
        /\ ~ passes filter (Sprint argVal))
  /\ (patternsNonEmpty entries -> argFilterStage cfg ctx args <> None)
  /\ (forall before argName filter after,
        entries = (before ++ (argName, filter) :: after)%list ->
        args !! argName = None ->
        argFilterStage cfg ctx args = argFilterLoop args (before ++ after)%list)
  /\ (retFilterStage cfg ctx = true ->
      shouldProcessEvent cfg ctx args = argFilterStage cfg ctx args).
Proof.
  intros Hen Hflt matches passes.
  assert (Hread : forall v f, matchesPattern v f <-> matches v f)
    by (intros v f; apply matchesPattern_cases).
  assert (Hpass : forall filter v, accepts filter v <-> passes filter v).
  { intros filter v. unfold accepts, passes.
    rewrite Exists_exists, Forall_forall.
    split; (intros [Hacc Hrej]; split;
            [destruct Hacc as [Hnil | (f & Hin & Hm)];
               [now left | right; exists f; split; [exact Hin | now apply Hread]]
            |intros f Hin Hm; apply (Hrej f Hin); now apply Hread]). }
  assert (Hstage : argFilterStage cfg ctx args = argFilterLoop args entries).
  { unfold argFilterStage. now rewrite Hen, Hflt. }
  rewrite Hstage. repeat apply conj.
  - intros v f. rewrite patternMatches_reading. apply Hread.
  - intros Hloop argName filter argVal Hin Harg.
    apply Hpass. exact (argFilterLoop_true _ _ Hloop _ _ _ Hin Harg).
  - intros Hloop.
    destruct (argFilterLoop_false _ _ Hloop) as (argName & filter & argVal & Hin & Harg & Hno).
    exists argName, filter, argVal. split; [exact Hin|]. split; [exact Harg|].
    intros Hp. apply Hno. now apply Hpass.
  - intros Hne Hnone.
    destruct (argFilterLoop_accepts args entries Hne) as (b & Hb & _). congruence.
  - intros before argName filter after -> Habs. now apply argFilterLoop_skip.
  - intros Hret. unfold shouldProcessEvent. now rewrite Hret, Hstage.
Qed.

(** C4 on the filter [/etc/*] except [/etc/hostname] for [pathname] and a
    filter on [flags], which the events do not carry: [/etc/passwd] is
    let through, [/tmp/a] is dropped. *)
Lemma argument_filter_pattern_semantics_witness :
  let entries := [("pathname", Demo.etcFilter); ("flags", Demo.flagsFilter)] in
  let cfg := Demo.argFilterConfig entries in
  shouldProcessEvent (H := Demo.env) cfg Demo.writeCtx
    {[ "pathname" := VString "/etc/passwd" ]} = Some true
  /\ shouldProcessEvent (H := Demo.env) cfg Demo.writeCtx
       {[ "pathname" := VString "/tmp/a" ]} = Some false.
Proof.
  intros entries cfg.
  assert (Hflt : ArgFilter.Filters (Filter.ArgFilter (Config.Filter cfg))
                   !! EventID Demo.writeCtx = Some entries)
    by (vm_compute; reflexivity).
  assert (Hne : patternsNonEmpty entries) by (repeat constructor; discriminate).
  assert (Hhead : forall (e : string * ArgFilterVal.t) l x, x ∈ e :: l -> x = e \/ x ∈ l)
    by (intros e l x Hin; now apply elem_of_cons in Hin).
  split.
  - destruct (argument_filter_pattern_semantics (H := Demo.env) cfg Demo.writeCtx
                {[ "pathname" := VString "/etc/passwd" ]} entries eq_refl Hflt)
      as (_ & _ & Hdrop & Htotal & _ & Hlink).
    rewrite (Hlink eq_refl). specialize (Htotal Hne).
    destruct (argFilterStage _ _ _) as [[|]|]; [reflexivity | exfalso | contradiction].
    destruct (Hdrop eq_refl) as (argName & filter & argVal & Hin & Harg & Hno).
    apply Hno. apply Hhead in Hin as [[= -> ->] | Hin].
    + vm_compute in Harg. injection Harg as <-. split.
      * right. exists "/etc/*"%string. split; [apply list_elem_of_here|].
        left. exists "/etc/"%string, "passwd"%string. split; reflexivity.
      * intros f Hf. apply list_elem_of_singleton in Hf as ->.
        intros [(pre & rest & Heq & _) | [_ Heq]]; [|discriminate Heq].
        revert pre Heq. apply not_ending_in_star. vm_compute. discriminate.
    + apply Hhead in Hin as [[= -> ->] | Hin]; [|now apply elem_of_nil in Hin].
      vm_compute in Harg. discriminate Harg.
  - destruct (argument_filter_pattern_semantics (H := Demo.env) cfg Demo.writeCtx
                {[ "pathname" := VString "/tmp/a" ]} entries eq_refl Hflt)
      as (_ & Hpass & _ & Htotal & _ & Hlink).
    rewrite (Hlink eq_refl). specialize (Htotal Hne).
    destruct (argFilterStage _ _ _) as [[|]|]; [exfalso | reflexivity | contradiction].
    destruct (Hpass eq_refl "pathname"%string Demo.etcFilter (VString "/tmp/a"))
      as [[Hnil | (f & Hf & Hm)] _].
    + apply list_elem_of_here.
    + vm_compute. reflexivity.
    + discriminate Hnil.
    + apply list_elem_of_singleton in Hf as ->.
      destruct Hm as [(pre & rest & Heq & Hv) | [Hstar _]].
      * change "/etc/*"%string with ("/etc/" ++ "*")%string in Heq.
        apply snoc_inj in Heq as [<- _].
        rewrite ?append_nil, ?append_cons in Hv. discriminate Hv.
      * now apply (Hstar "/etc/"%string).
Defined.

(** X1.  The return-value family is evaluated first and alone decides a
    rejection.  With the family disabled, or no filter for the event's
    type, the decision is the argument family's.  With a filter, the event
    goes on to the argument family exactly when the return value is in the
    accept-list (or the list is empty), is not in the reject-list, and
    lies strictly inside the bounds, where a bound holding its sentinel is
    no bound; otherwise the answer is [false] whatever the argument
    filters hold. *)
Theorem return_value_filter_semantics `{Env}
    (cfg : Config.t) (ctx : context) (args : gmap string value) :
  let rf := Filter.RetFilter (Config.Filter cfg) in
  (RetFilter.Enabled rf = false \/ RetFilter.Filters rf !! EventID ctx = None ->
   shouldProcessEvent cfg ctx args = argFilterStage cfg ctx args)
  /\ (forall filter,
        RetFilter.Enabled rf = true ->
        RetFilter.Filters rf !! EventID ctx = Some filter ->
        (admits filter (Retval ctx) ->
         shouldProcessEvent cfg ctx args = argFilterStage cfg ctx args)
        /\ (~ admits filter (Retval ctx) ->
            shouldProcessEvent cfg ctx args = Some false)).
Proof.
  intros rf. subst rf. unfold shouldProcessEvent, retFilterStage. split.
  - intros [-> | Hnone]; [reflexivity|].
    rewrite Hnone. now destruct (RetFilter.Enabled _).
  - intros filter -> ->. rewrite <- retFilterPasses_admits.
    destruct (retFilterPasses filter (Retval ctx)); split; intros Hx;
      try reflexivity; [exfalso; now apply Hx | discriminate].
Qed.

(** X2.  With argument filtering enabled and no empty pattern configured
    for the event's type, the argument family answers, and it answers
    [true] exactly when every configured argument that the event carries
    has a textual form that its filter lets through: the accept-list is
    empty or has a matching pattern, and no pattern of the reject-list
    matches.  A configured argument the event does not carry asks for
    nothing. *)
Theorem argument_filter_semantics `{Env}
    (cfg : Config.t) (ctx : context) (args : gmap string value)
    (entries : list (string * ArgFilterVal.t)) :
  ArgFilter.Enabled (Filter.ArgFilter (Config.Filter cfg)) = true ->
  ArgFilter.Filters (Filter.ArgFilter (Config.Filter cfg)) !! EventID ctx
    = Some entries ->
  patternsNonEmpty entries ->
  exists b,
    argFilterStage cfg ctx args = Some b
    /\ (b = true <->
        forall argName filter v,
          (argName, filter) ∈ entries -> args !! argName = Some v ->
          accepts filter (Sprint v)).
Proof.
  intros Hen Hflt Hne. unfold argFilterStage. rewrite Hen, Hflt. simpl default.
  destruct (argFilterLoop_accepts args entries Hne) as (b & Hb & Hiff).
  exists b. split; [exact Hb|]. rewrite Hiff, Forall_forall. split.
  - intros Hall argName filter v Hin. exact (Hall (argName, filter) Hin v).
  - intros Hall [argName filter] Hin v. exact (Hall argName filter v Hin).
Qed.

(** X3.  The order in which the range over the argument filters of an
    event type visits them does not matter when no pattern is empty: two
    configurations that differ only in that order take the same decision
    on every event. *)
Theorem argument_filter_order_irrelevant `{Env}
    (cfg cfg' : Config.t) (ctx : context) (args : gmap string value)
    (entries entries' : list (string * ArgFilterVal.t)) :
  Filter.RetFilter (Config.Filter cfg') = Filter.RetFilter (Config.Filter cfg) ->
  ArgFilter.Enabled (Filter.ArgFilter (Config.Filter cfg'))
    = ArgFilter.Enabled (Filter.ArgFilter (Config.Filter cfg)) ->
  ArgFilter.Filters (Filter.ArgFilter (Config.Filter cfg)) !! EventID ctx
    = Some entries ->
  ArgFilter.Filters (Filter.ArgFilter (Config.Filter cfg')) !! EventID ctx
    = Some entries' ->
  entries ≡ₚ entries' ->
  patternsNonEmpty entries ->
  shouldProcessEvent cfg ctx args = shouldProcessEvent cfg' ctx args.
Proof.
  intros Hret Hen Hflt Hflt' Hperm Hne.
  unfold shouldProcessEvent, retFilterStage, argFilterStage.
  rewrite Hret, Hen, Hflt, Hflt'. simpl default.
  now rewrite (argFilterLoop_Permutation args entries entries' Hne Hperm).
Qed.

(** ** Further properties of the dispatcher *)

Ltac frame_solve :=
  intros;
  unfold eventView, indexView, pidsView, profileView, captureStoreView,
    besidesIndexView, hashView, captureView, configView, prunerView,
    eventView, on_st, log, set_os, set_fileHashes, set_writtenFiles,
    set_capturedFiles, set_profiledFiles, set_pidsInMntns,
    set_removeSocketTailOnce, cachePid, set_err, set_args, set_ctx, set_argMetas;
  cbn [st ctx args argMetas err calls removeSocketTailOnce config fileHashes
       capturedFiles writtenFiles profiledFiles pidsInMntns os];
  rewrite ?List.filter_app;
  cbn [List.filter isGetMap isDeleteKey isHash isCopy isMkdirAll isHandleError];
  rewrite ?app_nil_r; reflexivity.

Ltac call_solve :=
  intros ?;
  unfold MkdirAll, callCopyFileByPath, callGetFileHash, fileHashes_Get,
    fileHashes_Add, modify;
  repeat match goal with
         | |- context [let (_, _) := ?x in _] => destruct x
         end;
  cbn [snd]; frame_solve.

Ltac keeps_step :=
  first
    [ apply preserves_pure | apply preserves_return | apply preserves_gets
    | apply preserves_orReturn
    | apply preserves_when
    | apply preserves_bind; [|intros ?]
    | apply preserves_forRange; intros ?
    | match goal with
      | |- preserves _ (match ?x with _ => _ end) => destruct x
      end ].

Ltac keeps := repeat (keeps_step || call_solve).

Section DispatcherEquations.
Context `{Env}.

(** *** The blocks of the exec case, as equations *)

Lemma captureCopy_eq (src dst id : string) (ct : Z) (f : frame) :
  captureCopy src dst id ct f =
    if decide (capturedFiles (st f) !! id = Some ct) then (Next tt, f)
    else
      let r := CopyFileByPath src dst (os (st f)) in
      let s1 := set_os (snd r) (log (CallCopyFileByPath src dst) (st f)) in
      match fst r with
      | Some e =>
          (Return (Some e),
           {| st := s1; ctx := ctx f; args := args f; argMetas := argMetas f;
              err := Some e |})
      | None =>
          (Next tt,
           {| st := set_capturedFiles (<[id := ct]> (capturedFiles (st f))) s1;
              ctx := ctx f; args := args f; argMetas := argMetas f;
              err := None |})
      end.
Proof.
  unfold captureCopy. unfold bind at 1. unfold gets at 1.
  assert (Hcopy :
    (let! e := callCopyFileByPath src dst in
     modify (set_err e) >>
     match e with
     | Some _ => return_ e
     | None =>
         modify (on_st (fun s =>
           set_capturedFiles (<[id := ct]> (capturedFiles s)) s))
     end) f
    = let r := CopyFileByPath src dst (os (st f)) in
      let s1 := set_os (snd r) (log (CallCopyFileByPath src dst) (st f)) in
      match fst r with
      | Some e =>
          (Return (Some e),
           {| st := s1; ctx := ctx f; args := args f; argMetas := argMetas f;
              err := Some e |})
      | None =>
          (Next tt,
           {| st := set_capturedFiles (<[id := ct]> (capturedFiles (st f))) s1;
              ctx := ctx f; args := args f; argMetas := argMetas f;
              err := None |})
      end).
  { unfold bind, callCopyFileByPath, modify, return_. cbv zeta.
    destruct (CopyFileByPath src dst (os (st f))) as [[e|] w]; reflexivity. }
  destruct (capturedFiles (st f) !! id) as [lastCtime|] eqn:Hlook.
  - destruct (Z.eqb_spec lastCtime ct) as [-> | Hne]; cbn [negb when].
    + now rewrite decide_True.
    + rewrite decide_False by congruence. exact Hcopy.
  - cbn [when]. rewrite decide_False by congruence. exact Hcopy.
Qed.

Lemma captureExec_eq (filePath src id : string) (ct : Z) (f : frame) :
  captureExec filePath src id ct f =
    let cfg := config (st f) in
    let c := ctx f in
    let r := os_MkdirAll (destinationDir cfg c) (os (st f)) in
    let s1 := set_os (snd r) (log (CallMkdirAll (destinationDir cfg c)) (st f)) in
    match fst r with
    | Some e =>
        (Return (Some e),
         {| st := s1; ctx := ctx f; args := args f; argMetas := argMetas f;
            err := err f |})
    | None =>
        let s2 :=
          if CaptureConfig.Profile (Config.Capture cfg)
          then set_profiledFiles
                 (updateProfile (profileKey cfg c filePath ct) (Ts c)
                    (profiledFiles s1)) s1
          else s1 in
        captureCopy src (destinationFile cfg c filePath) id ct
          {| st := s2; ctx := ctx f; args := args f; argMetas := argMetas f;
             err := err f |}
    end.
Proof.
  rewrite captureExec_unfold. unfold MkdirAll. cbv zeta.
  destruct (os_MkdirAll _ _) as [[e|] w]; cbn [fst snd]; [reflexivity|].
  unfold bind at 1.
  destruct (CaptureConfig.Profile _); reflexivity.
Qed.

(** What follows the two blocks: the error the function returns is the
    local [err], which the hash block does not touch. *)
Lemma run_exec_tail (capture : M unit) (hashOn : bool) (src id : string) (ct : Z)
    (f : frame) :
  run (capture >> when hashOn (hashExec src id ct) >>
       let! e := gets err in return_ e) f
  = match capture f with
    | (Return e, f1) => (e, f1)
    | (Next _, f1) => (err f1, snd (when hashOn (hashExec src id ct) f1))
    end.
Proof.
  rewrite run_bind. destruct (capture f) as [[u|e] f1]; [|reflexivity].
  rewrite run_bind. destruct hashOn; cbn [when].
  - rewrite hashExec_eq. reflexivity.
  - reflexivity.
Qed.

(** A process-exec event, case by case. *)
Lemma processEvent_exec_cases (s : state) (c : context) (a : gmap string value)
    (metas : list ArgMeta) :
  EventID c = SchedProcessExecEventID ->
  let g0 := enter (cachePid c s) c a metas in
  processEvent s c a metas =
    if CaptureConfig.Exec (Config.Capture (config s))
       || OutputConfig.ExecHash (Config.Output (config s))
    then
      match assertString (a !! "pathname") with
      | None => (Some parseExecError, g0)
      | Some filePath =>
          if emptyOrRelative filePath then (None, g0)
          else
            match GetBucket (MntID c) (pidsInMntns (cachePid c s)) with
            | [] => (None, g0)
            | pid :: _ =>
                match assertInt64 (a !! "ctime") with
                | None => (Some parseCtimeError, g0)
                | Some ct =>
                    let src := sourcePath pid filePath in
                    let id := capturedID (MntID c) src in
                    run (when (CaptureConfig.Exec (Config.Capture (config s)))
                           (captureExec filePath src id ct) >>
                         when (OutputConfig.ExecHash (Config.Output (config s)))
                           (hashExec src id ct) >>
                         let! e := gets err in
                         return_ e) g0
                end
            end
      end
    else (None, g0).
Proof.
  intros Hid g0.
  destruct (CaptureConfig.Exec (Config.Capture (config s))
            || OutputConfig.ExecHash (Config.Output (config s))) eqn:Hon.
  - destruct (assertString (a !! "pathname")) as [filePath|] eqn:Hpath.
    + destruct (emptyOrRelative filePath) eqn:Habs.
      * rewrite (processEvent_exec _ _ _ _ Hid).
        unfold run, execCase, bind, gets, modify, orReturn, pure, return_.
        cbn [st ctx args on_st set_err]. rewrite config_cachePid, Hon.
        cbn [when st ctx args on_st set_err]. rewrite Hpath, Habs. reflexivity.
      * destruct (GetBucket (MntID c) (pidsInMntns (cachePid c s)))
          as [|pid rest] eqn:Hbucket.
        -- rewrite (processEvent_exec _ _ _ _ Hid).
           unfold run, execCase, bind, gets, modify, orReturn, pure, return_.
           cbn [st ctx args on_st set_err]. rewrite config_cachePid, Hon.
           cbn [when st ctx args on_st set_err]. rewrite Hpath, Habs.
           cbn [st ctx args on_st set_err argMetas err]. rewrite Hbucket.
           reflexivity.
        -- destruct (assertInt64 (a !! "ctime")) as [ct|] eqn:Hct.
           ++ apply processEvent_exec_reached. unfold execReaches.
              rewrite Hbucket. auto 10.
           ++ rewrite (processEvent_exec _ _ _ _ Hid).
              unfold run, execCase, bind, gets, modify, orReturn, pure, return_.
              cbn [st ctx args on_st set_err]. rewrite config_cachePid, Hon.
              cbn [when st ctx args on_st set_err]. rewrite Hpath, Habs.
              cbn [st ctx args on_st set_err argMetas err]. rewrite Hbucket.
              rewrite forRange_execBody.
              unfold execBody, bind, gets, modify, orReturn, pure, return_.
              cbn [st ctx args on_st set_err argMetas err]. rewrite Hct.
              reflexivity.
    + rewrite (processEvent_exec _ _ _ _ Hid).
      unfold run, execCase, bind, gets, modify, orReturn, pure, return_.
      cbn [st ctx args on_st set_err]. rewrite config_cachePid, Hon.
      cbn [when st ctx args on_st set_err]. rewrite Hpath. reflexivity.
  - rewrite (processEvent_exec _ _ _ _ Hid).
    unfold run, execCase, bind, gets, modify, orReturn, pure, return_.
    cbn [st ctx args on_st set_err]. rewrite config_cachePid, Hon. reflexivity.
Qed.

(** *** What the one-time pruning step leaves alone *)

Lemma sameTables_refl (s : state) : sameTables s s.
Proof. unfold sameTables. auto 10. Qed.

Lemma sameTables_set_os (w : world) (s x : state) :
  sameTables s x -> sameTables s (set_os w x).
Proof. intros Hx. exact Hx. Qed.

Lemma sameTables_once (b : bool) (s x : state) :
  sameTables s x -> sameTables s (set_removeSocketTailOnce b x).
Proof. intros Hx. exact Hx. Qed.

Lemma sameTables_log (c : call) (s x : state) :
  isCopy c = false -> isMkdirAll c = false -> isHash c = false ->
  sameTables s x -> sameTables s (log c x).
Proof.
  intros Hc Hm Hh (H1 & H2 & H3 & H4 & H5 & H6 & H7 & H8 & H9).
  unfold sameTables.
  rewrite !filter_log by assumption. auto 10.
Qed.

Lemma removeSocketTail_keeps (s : state) : sameTables s (removeSocketTail s).
Proof.
  unfold removeSocketTail.
  destruct (bpf_GetMap _ _) as [e|m]; [|destruct (bpf_GetValue _ _ _) as [e|]];
    [| |destruct (bpf_DeleteKey _ _ _) as [[e|] w]];
    repeat first [ apply sameTables_refl | apply sameTables_set_os
                 | apply sameTables_log; [reflexivity..|] ].
Qed.

Lemma socket_step_keeps (s : state) :
  sameTables s (removeSocketTailOnce_Do removeSocketTail s).
Proof.
  unfold removeSocketTailOnce_Do.
  destruct (removeSocketTailOnce s); [apply sameTables_refl|].
  apply sameTables_once, removeSocketTail_keeps.
Qed.

End DispatcherEquations.

Section DispatcherFrames.
Context `{Env}.

(** *** Events other than process-exec events *)

Lemma processEvent_keeps_nonexec {V} (view : frame -> V) (s : state) (c : context)
    (a : gmap string value) (metas : list ArgMeta) :
  EventID c <> SchedProcessExecEventID ->
  preserves view writeCase ->
  view (on_st (removeSocketTailOnce_Do removeSocketTail) (enter s c a metas))
    = view (enter s c a metas) ->
  view (snd (processEvent s c a metas)) = view (enter s c a metas).
Proof.
  intros Hne Hwrite Hsocket.
  assert (Hcase : forall m : M unit, preserves view m ->
            view (snd (run (m >> return_ None) (enter s c a metas)))
            = view (enter s c a metas)).
  { intros m Hm. apply run_preserves.
    apply preserves_bind; [exact Hm | intros; apply preserves_return]. }
  destruct (decide (EventID c = VfsWriteEventID)) as [Hw|Hw];
    [rewrite processEvent_write by auto; now apply Hcase|].
  destruct (decide (EventID c = VfsWritevEventID)) as [Hwv|Hwv];
    [rewrite processEvent_write by auto; now apply Hcase|].
  destruct (decide (EventID c = SocketEventID)) as [Hs|Hs].
  - rewrite processEvent_socket by auto. exact Hsocket.
  - now rewrite processEvent_other.
Qed.

Lemma processEvent_write_off (s : state) (c : context) (a : gmap string value)
    (metas : list ArgMeta) :
  EventID c = VfsWriteEventID \/ EventID c = VfsWritevEventID ->
  CaptureConfig.FileWrite (Config.Capture (config s)) = false ->
  processEvent s c a metas = (None, enter s c a metas).
Proof.
  intros Hid Hoff. rewrite (processEvent_write _ _ _ _ Hid).
  unfold run, writeCase, bind, gets. cbn [st]. rewrite Hoff. reflexivity.
Qed.

Lemma besidesIndexView_writeCase : preserves besidesIndexView writeCase.
Proof. unfold writeCase. keeps. Qed.

Lemma hashView_writeCase : preserves hashView writeCase.
Proof. unfold writeCase. keeps. Qed.

Lemma captureStoreView_writeCase : preserves captureStoreView writeCase.
Proof. unfold writeCase. keeps. Qed.

Lemma pidsView_writeCase : preserves pidsView writeCase.
Proof. unfold writeCase. keeps. Qed.

Lemma pidsView_captureExec (filePath src id : string) (ct : Z) :
  preserves pidsView (captureExec filePath src id ct).
Proof. unfold captureExec, captureCopy. keeps. Qed.

Lemma pidsView_hashExec (src id : string) (ct : Z) :
  preserves pidsView (hashExec src id ct).
Proof. unfold hashExec. keeps. Qed.

Lemma indexView_captureExec (filePath src id : string) (ct : Z) :
  preserves indexView (captureExec filePath src id ct).
Proof. unfold captureExec, captureCopy. keeps. Qed.

Lemma indexView_hashExec (src id : string) (ct : Z) :
  preserves indexView (hashExec src id ct).
Proof. unfold hashExec. keeps. Qed.

Lemma indexView_execCase : preserves indexView execCase.
Proof.
  unfold execCase, execBody.
  repeat (apply indexView_captureExec || apply indexView_hashExec
          || keeps_step || call_solve).
Qed.

Lemma profileView_captureCopy (src dst id : string) (ct : Z) :
  preserves profileView (captureCopy src dst id ct).
Proof. unfold captureCopy. keeps. Qed.

Lemma profileView_hashExec (src id : string) (ct : Z) :
  preserves profileView (hashExec src id ct).
Proof. unfold hashExec. keeps. Qed.

Lemma captureStoreView_hashExec (src id : string) (ct : Z) :
  preserves captureStoreView (hashExec src id ct).
Proof. unfold hashExec. keeps. Qed.

(** The tail of an exec event that reached the loop body. *)
Lemma exec_tail_preserves {V} (view : frame -> V) (captureOn hashOn : bool)
    (filePath src id : string) (ct : Z) (f : frame) :
  (captureOn = true -> preserves view (captureExec filePath src id ct)) ->
  (hashOn = true -> preserves view (hashExec src id ct)) ->
  view (snd (run (when captureOn (captureExec filePath src id ct) >>
                  when hashOn (hashExec src id ct) >>
                  let! e := gets err in return_ e) f))
  = view f.
Proof.
  intros Hcap Hhash. apply run_preserves.
  apply preserves_bind; [|intros ?; apply preserves_bind;
                           [|intros ?; apply preserves_bind;
                               [apply preserves_gets
                               |intros ?; apply preserves_return]]].
  - destruct captureOn; [now apply Hcap | apply preserves_pure].
  - destruct hashOn; [now apply Hhash | apply preserves_pure].
Qed.

(** A view that the step recording the process, the capture block (when
    enabled) and the hash block (when enabled) leave alone is left alone
    by a process-exec event. *)
Lemma processEvent_exec_preserves {V} (view : frame -> V) (s : state)
    (c : context) (a : gmap string value) (metas : list ArgMeta) :
  EventID c = SchedProcessExecEventID ->
  (CaptureConfig.Exec (Config.Capture (config s)) = true ->
   forall filePath src id ct, preserves view (captureExec filePath src id ct)) ->
  (OutputConfig.ExecHash (Config.Output (config s)) = true ->
   forall src id ct, preserves view (hashExec src id ct)) ->
  view (snd (processEvent s c a metas)) = view (enter (cachePid c s) c a metas).
Proof.
  intros Hid Hcap Hhash. rewrite (processEvent_exec_cases _ _ _ _ Hid). cbv zeta.
  destruct (_ || _); [|reflexivity].
  destruct (assertString _) as [filePath|]; [|reflexivity].
  destruct (emptyOrRelative filePath); [reflexivity|].
  destruct (GetBucket _ _) as [|pid rest]; [reflexivity|].
  destruct (assertInt64 _) as [ct|]; [|reflexivity].
  apply exec_tail_preserves; intros Hon; [now apply Hcap | now apply Hhash].
Qed.

(** How one event changes the Written-File index. *)
Lemma processEvent_index_step (s : state) (c : context) (a : gmap string value)
    (metas : list ArgMeta) :
  let s' := st (snd (processEvent s c a metas)) in
  writtenFiles s' = writtenFiles s
  \/ exists dev inode filePath,
       (EventID c = VfsWriteEventID \/ EventID c = VfsWritevEventID)
       /\ emptyOrRelative filePath = false
       /\ assertString (a !! "pathname") = Some filePath
       /\ assertUint32 (a !! "dev") = Some dev
       /\ assertUint64 (a !! "inode") = Some inode
       /\ writtenFiles s'
          = <[writtenFileName (MntID c) dev inode := filePath]> (writtenFiles s).
Proof.
  cbv zeta.
  destruct (decide (EventID c = VfsWriteEventID \/ EventID c = VfsWritevEventID))
    as [Hid|Hid].
  - destruct (CaptureConfig.FileWrite (Config.Capture (config s))) eqn:Hfw.
    + rewrite (processEvent_write_result _ _ _ _ Hid Hfw). cbv zeta.
      destruct (assertString _) as [filePath|] eqn:Hp; [|now left].
      destruct (emptyOrRelative filePath) eqn:Habs; [now left|].
      destruct (assertUint32 _) as [dev|] eqn:Hd; [|now left].
      destruct (assertUint64 _) as [inode|] eqn:Hi; [|now left].
      destruct (decide _); [now left|]. right.
      exists dev, inode, filePath. auto 10.
    + rewrite (processEvent_write_off _ _ _ _ Hid Hfw). now left.
  - left.
    destruct (decide (EventID c = SchedProcessExecEventID)) as [He|He].
    + rewrite (processEvent_exec _ _ _ _ He).
      apply (run_preserves indexView).
      apply preserves_bind; [apply indexView_execCase | intros; apply preserves_return].
    + destruct (decide (EventID c = SocketEventID)) as [Hs|Hs].
      * rewrite processEvent_socket by auto. cbn [snd st].
        apply (socket_step_keeps s).
      * rewrite processEvent_other by tauto. reflexivity.
Qed.

End DispatcherFrames.

(** X4.  Events of a type other than the four the dispatcher knows are
    ignored: each returns no error and leaves the state, the context, the
    arguments and the descriptors as they were, so a whole sequence of
    them leaves the state unchanged. *)
Theorem unmatched_events_are_ignored `{Env} (s : state)
    (events : list (context * gmap string value * list ArgMeta)) :
  Forall (fun ev =>
            EventID (fst (fst ev)) ∉
              [VfsWriteEventID; VfsWritevEventID; SchedProcessExecEventID;
               SocketEventID]) events ->
  Forall (fun ev =>
            processEvent s (fst (fst ev)) (snd (fst ev)) (snd ev)
            = (None, enter s (fst (fst ev)) (snd (fst ev)) (snd ev))) events
  /\ deliver s events = s.
Proof.
  induction 1 as [|[[c a] metas] events Hid _ [IH1 IH2]]; [split; [constructor | reflexivity]|].
  cbn [fst snd] in Hid. rewrite !not_elem_of_cons in Hid.
  destruct Hid as (Hw & Hwv & He & Hs & _).
  pose proof (processEvent_other s c a metas Hw Hwv He Hs) as Hother.
  split.
  - constructor; [exact Hother | exact IH1].
  - cbn [deliver]. rewrite Hother. exact IH2.
Qed.

(** X5.  A write event changes nothing but the Written-File index: the
    configuration, every other table, the one-time guard, the world, the
    calls made, the context, the arguments and the descriptors are as
    before, whatever the arguments are.  The only error it can return is
    the parse error, and with write-capture off it does nothing at all,
    even when its arguments are missing or mistyped. *)
Theorem write_event_touches_only_the_index `{Env} (s : state) (c : context)
    (a : gmap string value) (metas : list ArgMeta) :
  EventID c = VfsWriteEventID \/ EventID c = VfsWritevEventID ->
  let r := processEvent s c a metas in
  besidesIndexView (snd r) = besidesIndexView (enter s c a metas)
  /\ (fst r = None \/ fst r = Some "error parsing vfs_write args"%string)
  /\ (CaptureConfig.FileWrite (Config.Capture (config s)) = false ->
      r = (None, enter s c a metas)).
Proof.
  intros Hid r. subst r. split; [|split].
  - rewrite (processEvent_write _ _ _ _ Hid). apply run_preserves.
    apply preserves_bind;
      [apply besidesIndexView_writeCase | intros; apply preserves_return].
  - destruct (CaptureConfig.FileWrite (Config.Capture (config s))) eqn:Hfw.
    + rewrite (processEvent_write_result _ _ _ _ Hid Hfw). cbv zeta.
      destruct (assertString _) as [filePath|]; [|now right].
      destruct (emptyOrRelative filePath); [now left|].
      destruct (assertUint32 _) as [dev|]; [|now right].
      destruct (assertUint64 _) as [inode|]; [|now right].
      destruct (decide _); now left.
    + rewrite (processEvent_write_off _ _ _ _ Hid Hfw). now left.
  - now apply processEvent_write_off.
Qed.

(** X6.  The Written-File index only ever holds absolute paths: if every
    path in it is non-empty and starts with [/], the same is true after
    any sequence of events. *)
Theorem written_index_holds_absolute_paths `{Env} (s : state)
    (events : list (context * gmap string value * list ArgMeta)) :
  map_Forall (fun _ p => emptyOrRelative p = false) (writtenFiles s) ->
  map_Forall (fun _ p => emptyOrRelative p = false)
             (writtenFiles (deliver s events)).
Proof.
  revert s. induction events as [|[[c a] metas] events IH]; intros s Hall;
    cbn [deliver]; [exact Hall|].
  apply IH.
  destruct (processEvent_index_step s c a metas)
    as [-> | (dev & inode & filePath & _ & Habs & _ & _ & _ & ->)]; [exact Hall|].
  now apply map_Forall_insert_2.
Qed.

(** X7.  A process-exec event records its process in the bucket of its
    mount namespace before anything else, whatever the configuration and
    the arguments are and whether or not the event is then refused:
    forced insertion for process 1 of the namespace, ordinary insertion
    otherwise.  No other event touches the PID index. *)
Theorem exec_event_always_caches_pid `{Env} (s : state) (c : context)
    (a : gmap string value) (metas : list ArgMeta) :
  let s' := st (snd (processEvent s c a metas)) in
  (EventID c = SchedProcessExecEventID ->
   pidsInMntns s'
   = (if Pid c =? 1 then ForceAddBucketItem else AddBucketItem)
       (MntID c) (HostPid c) (pidsInMntns s))
  /\ (EventID c <> SchedProcessExecEventID -> pidsInMntns s' = pidsInMntns s).
Proof.
  cbv zeta. split.
  - intros Hid.
    apply (processEvent_exec_preserves pidsView s c a metas Hid).
    + intros _ filePath src id ct. apply pidsView_captureExec.
    + intros _ src id ct. apply pidsView_hashExec.
  - intros Hne.
    apply (processEvent_keeps_nonexec pidsView s c a metas Hne).
    + apply pidsView_writeCase.
    + unfold pidsView, enter, on_st. cbn [st]. apply (socket_step_keeps s).
Qed.

(** X8.  The checks a process-exec event goes through, in order.  With
    exec-capture and hash-on-output both off the event only records its
    process and returns no error, whatever its arguments.  Otherwise a
    missing or mistyped [pathname] is a parse error; an empty or relative
    [pathname] is ignored without error; an absolute [pathname] with an
    empty bucket for the namespace is accepted without error and without
    looking at [ctime]; and with a candidate in the bucket a missing or
    mistyped [ctime] is a parse error.  In each of these cases nothing but
    the PID index has changed. *)
Theorem exec_event_argument_checks `{Env} (s : state) (c : context)
    (a : gmap string value) (metas : list ArgMeta) :
  EventID c = SchedProcessExecEventID ->
  let r := processEvent s c a metas in
  let g0 := enter (cachePid c s) c a metas in
  let bucket := GetBucket (MntID c) (pidsInMntns (cachePid c s)) in
  (CaptureConfig.Exec (Config.Capture (config s)) = false ->
   OutputConfig.ExecHash (Config.Output (config s)) = false ->
   r = (None, g0))
  /\ (CaptureConfig.Exec (Config.Capture (config s))
      || OutputConfig.ExecHash (Config.Output (config s)) = true ->
      (assertString (a !! "pathname") = None ->
       r = (Some "error parsing sched_process_exec args"%string, g0))
      /\ (forall filePath,
            assertString (a !! "pathname") = Some filePath ->
            (emptyOrRelative filePath = true -> r = (None, g0))
            /\ (emptyOrRelative filePath = false -> bucket = [] -> r = (None, g0))
            /\ (emptyOrRelative filePath = false -> bucket <> [] ->
                assertInt64 (a !! "ctime") = None ->
                r = (Some "error parsing sched_process_exec args: ctime"%string,
                     g0)))).
Proof.
  intros Hid r g0 bucket. subst r bucket.
  rewrite (processEvent_exec_cases _ _ _ _ Hid). cbv zeta. fold g0. split.
  - intros -> ->. reflexivity.
  - intros ->. split.
    + intros ->. reflexivity.
    + intros filePath ->. split; [|split].
      * intros ->. reflexivity.
      * intros -> ->. reflexivity.
      * intros -> Hne ->.
        destruct (GetBucket _ _); [contradiction | reflexivity].
Qed.

Section ExecBlocks.
Context `{Env}.

(** An exec event that reaches the loop body with exec-capture on: what
    the call returns, in terms of the capture block. *)
Lemma processEvent_exec_capture (s : state) (c : context) (a : gmap string value)
    (metas : list ArgMeta) (filePath : string) (pid ct : Z) :
  execReaches s c a filePath pid ct ->
  CaptureConfig.Exec (Config.Capture (config s)) = true ->
  let src := sourcePath pid filePath in
  let id := capturedID (MntID c) src in
  processEvent s c a metas =
    match captureExec filePath src id ct (enter (cachePid c s) c a metas) with
    | (Return e, f1) => (e, f1)
    | (Next _, f1) =>
        (err f1,
         snd (when (OutputConfig.ExecHash (Config.Output (config s)))
                (hashExec src id ct) f1))
    end.
Proof.
  intros Hreach Hexec src id.
  rewrite (processEvent_exec_reached _ _ _ _ _ _ _ Hreach). fold src id.
  rewrite Hexec. cbn [when].
  apply (run_exec_tail (captureExec filePath src id ct)).
Qed.

(** The frame in which the copy step starts when the directory could be
    made. *)
Lemma captureExec_after_mkdir (filePath src id : string) (ct : Z) (f : frame)
    (w : world) :
  os_MkdirAll (destinationDir (config (st f)) (ctx f)) (os (st f)) = (None, w) ->
  let s1 := set_os w (log (CallMkdirAll (destinationDir (config (st f)) (ctx f)))
                        (st f)) in
  let s2 :=
    if CaptureConfig.Profile (Config.Capture (config (st f)))
    then set_profiledFiles
           (updateProfile (profileKey (config (st f)) (ctx f) filePath ct)
              (Ts (ctx f)) (profiledFiles (st f))) s1
    else s1 in
  captureExec filePath src id ct f =
    captureCopy src (destinationFile (config (st f)) (ctx f) filePath) id ct
      {| st := s2; ctx := ctx f; args := args f; argMetas := argMetas f;
         err := err f |}.
Proof.
  intros Hmk. rewrite captureExec_eq. cbv zeta. rewrite Hmk. reflexivity.
Qed.

Lemma hashView_captureCopy (src dst id : string) (ct : Z) :
  preserves hashView (captureCopy src dst id ct).
Proof. unfold captureCopy. keeps. Qed.

End ExecBlocks.

(** X9.  When the per-namespace destination directory cannot be made, a
    process-exec event with exec-capture on returns the error of
    [os.MkdirAll] at once: the only traces of the event are its process
    in the PID index and the attempt to make the directory.  Nothing is
    copied, recorded or profiled, and the hash block does not run even if
    hash-on-output is on. *)
Theorem exec_capture_mkdir_failure `{Env} (s : state) (c : context)
    (a : gmap string value) (metas : list ArgMeta)
    (filePath : string) (pid ct : Z) (e : Go.error) (w : world) :
  execReaches s c a filePath pid ct ->
  CaptureConfig.Exec (Config.Capture (config s)) = true ->
  os_MkdirAll (destinationDir (config s) c) (os s) = (Some e, w) ->
  processEvent s c a metas
  = (Some e,
     enter (set_os w (log (CallMkdirAll (destinationDir (config s) c))
                        (cachePid c s))) c a metas).
Proof.
  intros Hreach Hexec Hmk.
  rewrite (processEvent_exec_capture _ _ _ _ _ _ _ Hreach Hexec).
  rewrite captureExec_eq. cbv zeta.
  change (os (st (enter (cachePid c s) c a metas))) with (os s).
  change (config (st (enter (cachePid c s) c a metas))) with (config s).
  change (ctx (enter (cachePid c s) c a metas)) with c.
  rewrite Hmk. reflexivity.
Qed.

(** X10.  With exec-capture and profiling on, a process-exec event that
    reaches the capture block and whose destination directory can be made
    updates the profile record of (destination path, change-time) whether
    the file is then copied, found already captured, or fails to copy;
    with profiling off the profile records are left alone. *)
Theorem exec_profile_updated_regardless_of_copy `{Env} (s : state) (c : context)
    (a : gmap string value) (metas : list ArgMeta)
    (filePath : string) (pid ct : Z) :
  execReaches s c a filePath pid ct ->
  CaptureConfig.Exec (Config.Capture (config s)) = true ->
  fst (os_MkdirAll (destinationDir (config s) c) (os s)) = None ->
  profiledFiles (st (snd (processEvent s c a metas)))
  = if CaptureConfig.Profile (Config.Capture (config s))
    then updateProfile (profileKey (config s) c filePath ct) (Ts c)
           (profiledFiles s)
    else profiledFiles s.
Proof.
  intros Hreach Hexec Hmk.
  rewrite (processEvent_exec_capture _ _ _ _ _ _ _ Hreach Hexec).
  destruct (os_MkdirAll (destinationDir (config s) c) (os s)) as [e w] eqn:Hmk'.
  cbn [fst] in Hmk. subst e.
  rewrite (captureExec_after_mkdir _ _ _ _ (enter (cachePid c s) c a metas) w Hmk').
  cbv zeta.
  change (config (st (enter (cachePid c s) c a metas))) with (config s).
  match goal with
  | |- context [captureCopy ?src ?dst ?id ?ct ?f2] =>
      pose proof (profileView_captureCopy src dst id ct f2) as Hcopy;
      assert (Hstart : profileView f2
                = if CaptureConfig.Profile (Config.Capture (config s))
                  then updateProfile (profileKey (config s) c filePath ct) (Ts c)
                         (profiledFiles s)
                  else profiledFiles s)
        by (unfold profileView; cbn [st]; now destruct (CaptureConfig.Profile _));
      destruct (captureCopy src dst id ct f2) as [[u|e] f1]
  end; cbn [snd] in Hcopy |- *.
  - rewrite <- Hstart, <- Hcopy.
    apply (preserves_when profileView _ _ (profileView_hashExec _ _ _) f1).
  - now rewrite <- Hstart, <- Hcopy.
Qed.

(** X11.  When the copy fails, a process-exec event with exec-capture on
    returns the error of [CopyFileByPath]; the attempt is counted, the
    Captured-File records are left as they were (so the next event for
    the file tries again), and the hash block does not run: the event's
    context, arguments and descriptors, the hash cache and the hashes
    computed are as before. *)
Theorem exec_capture_copy_failure `{Env} (s : state) (c : context)
    (a : gmap string value) (metas : list ArgMeta)
    (filePath : string) (pid ct : Z) (e : Go.error) (w : world) :
  execReaches s c a filePath pid ct ->
  CaptureConfig.Exec (Config.Capture (config s)) = true ->
  let src := sourcePath pid filePath in
  let id := capturedID (MntID c) src in
  os_MkdirAll (destinationDir (config s) c) (os s) = (None, w) ->
  capturedFiles s !! id <> Some ct ->
  fst (CopyFileByPath src (destinationFile (config s) c filePath) w) = Some e ->
  let r := processEvent s c a metas in
  fst r = Some e
  /\ capturedFiles (st (snd r)) = capturedFiles s
  /\ count isCopy (calls (st (snd r))) = S (count isCopy (calls s))
  /\ hashView (snd r) = hashView (enter s c a metas).
Proof.
  intros Hreach Hexec src id Hmk Hrec Hcopy r. subst r.
  rewrite (processEvent_exec_capture _ _ _ _ _ _ _ Hreach Hexec). fold src id.
  rewrite (captureExec_after_mkdir _ _ _ _ (enter (cachePid c s) c a metas) w Hmk).
  cbv zeta.
  change (config (st (enter (cachePid c s) c a metas))) with (config s).
  change (ctx (enter (cachePid c s) c a metas)) with c.
  match goal with
  | |- context [captureCopy _ _ _ _ ?f] => set (f2 := f)
  end.
  assert (Hrec2 : capturedFiles (st f2) = capturedFiles s)
    by (subst f2; cbn [st]; now destruct (CaptureConfig.Profile _)).
  assert (Hos2 : os (st f2) = w)
    by (subst f2; cbn [st]; now destruct (CaptureConfig.Profile _)).
  assert (Hcalls2 : calls (st f2)
            = (calls s ++ [CallMkdirAll (destinationDir (config s) c)])%list)
    by (subst f2; cbn [st]; now destruct (CaptureConfig.Profile _)).
  assert (Hhash2 : fileHashes (st f2) = fileHashes s)
    by (subst f2; cbn [st]; now destruct (CaptureConfig.Profile _)).
  assert (Hev2 : eventView f2 = (c, a, metas)) by reflexivity.
  clearbody f2.
  rewrite captureCopy_eq. cbv zeta.
  rewrite decide_False by (rewrite Hrec2; exact Hrec).
  rewrite Hos2, Hcopy. cbn [fst snd st].
  split; [reflexivity|]. split; [exact Hrec2|]. split.
  - rewrite calls_set_os, count_log. cbn [isCopy]. unfold count.
    rewrite Hcalls2, List.filter_app, length_app. cbn. lia.
  - unfold hashView. cbn [ctx args argMetas st].
    change (fileHashes (set_os ?x ?y)) with (fileHashes y).
    change (calls (set_os ?x ?y)) with (calls y).
    change (fileHashes (log ?x ?y)) with (fileHashes y).
    rewrite filter_log by reflexivity.
    rewrite Hhash2, Hcalls2, List.filter_app. cbn [List.filter isHash].
    rewrite app_nil_r. unfold eventView in Hev2. now injection Hev2 as -> -> ->.
Qed.

Section Sequences.
Context `{Env}.

Lemma capture_off_event (s : state) (c : context) (a : gmap string value)
    (metas : list ArgMeta) :
  CaptureConfig.Exec (Config.Capture (config s)) = false ->
  captureStoreView (snd (processEvent s c a metas))
  = captureStoreView (enter s c a metas).
Proof.
  intros Hoff.
  destruct (decide (EventID c = SchedProcessExecEventID)) as [Hid|Hne].
  - rewrite (processEvent_exec_preserves captureStoreView s c a metas Hid).
    + reflexivity.
    + intros Hon. congruence.
    + intros _ src id ct. apply captureStoreView_hashExec.
  - apply (processEvent_keeps_nonexec captureStoreView s c a metas Hne).
    + apply captureStoreView_writeCase.
    + unfold captureStoreView, enter, on_st. cbn [st].
      destruct (socket_step_keeps s) as (_ & _ & -> & -> & _ & _ & -> & -> & _).
      reflexivity.
Qed.

Lemma hash_off_event (s : state) (c : context) (a : gmap string value)
    (metas : list ArgMeta) :
  OutputConfig.ExecHash (Config.Output (config s)) = false
  \/ EventID c <> SchedProcessExecEventID ->
  hashView (snd (processEvent s c a metas)) = hashView (enter s c a metas).
Proof.
  intros Hcond.
  destruct (decide (EventID c = SchedProcessExecEventID)) as [Hid|Hne].
  - destruct Hcond as [Hoff|Hne]; [|contradiction].
    rewrite (processEvent_exec_preserves hashView s c a metas Hid).
    + reflexivity.
    + intros _ filePath src id ct. apply hashView_captureExec.
    + intros Hon. congruence.
  - apply (processEvent_keeps_nonexec hashView s c a metas Hne).
    + apply hashView_writeCase.
    + unfold hashView, enter, on_st. cbn [st ctx args argMetas].
      destruct (socket_step_keeps s) as (_ & _ & _ & _ & -> & _ & _ & _ & ->).
      reflexivity.
Qed.

(** *** Records are kept *)

Lemma recordsKept_refl (s : state) : recordsKept s s.
Proof. unfold recordsKept. eauto 10. Qed.

Lemma recordsKept_trans (s1 s2 s3 : state) :
  recordsKept s1 s2 -> recordsKept s2 s3 -> recordsKept s1 s3.
Proof.
  intros (Hw1 & Hc1 & Hp1) (Hw2 & Hc2 & Hp2). split; [|split].
  - auto.
  - auto.
  - intros k pf Hk. destruct (Hp1 k pf Hk) as (pf' & Hk' & Hts').
    destruct (Hp2 k pf' Hk') as (pf'' & Hk'' & Hts'').
    exists pf''. split; [exact Hk'' | congruence].
Qed.

Lemma recordsKept_same (s s' : state) :
  writtenFiles s' = writtenFiles s -> capturedFiles s' = capturedFiles s ->
  profiledFiles s' = profiledFiles s -> recordsKept s s'.
Proof. intros Hw Hc Hp. unfold recordsKept. rewrite Hw, Hc, Hp. eauto 10. Qed.

Lemma is_Some_insert_keeps {A} (m : gmap string A) (k k' : string) (x : A) :
  is_Some (m !! k') -> is_Some (<[k := x]> m !! k').
Proof.
  intros Hk'. destruct (decide (k = k')) as [->|Hne].
  - rewrite lookup_insert_eq. eauto.
  - now rewrite lookup_insert_ne.
Qed.

Lemma updateProfile_keeps (key : string) (ts : Z)
    (m : gmap string profilerInfo) (k : string) (pf : profilerInfo) :
  m !! k = Some pf ->
  exists pf', updateProfile key ts m !! k = Some pf'
              /\ FirstExecutionTs pf' = FirstExecutionTs pf.
Proof.
  intros Hk. unfold updateProfile.
  destruct (decide (key = k)) as [->|Hne].
  - rewrite Hk, lookup_insert_eq. eauto.
  - destruct (m !! key); rewrite lookup_insert_ne by exact Hne; eauto.
Qed.

Lemma recordsKept_index (k p : string) (s : state) :
  recordsKept s (set_writtenFiles (<[k := p]> (writtenFiles s)) s).
Proof.
  split; [|split]; cbn; eauto 10. intros k'. apply is_Some_insert_keeps.
Qed.

Lemma recordsKept_captured (id : string) (ct : Z) (s : state) :
  recordsKept s (set_capturedFiles (<[id := ct]> (capturedFiles s)) s).
Proof.
  split; [|split]; cbn; eauto 10. intros k'. apply is_Some_insert_keeps.
Qed.

Lemma recordsKept_profile (key : string) (ts : Z) (s : state) :
  recordsKept s (set_profiledFiles (updateProfile key ts (profiledFiles s)) s).
Proof.
  split; [|split]; cbn; eauto 10. intros k pf. apply updateProfile_keeps.
Qed.

Section Steps.
Context (R : frame -> frame -> Prop).
Hypothesis R_refl : forall f, R f f.
Hypothesis R_trans : forall f1 f2 f3, R f1 f2 -> R f2 f3 -> R f1 f3.

Lemma steps_pure {A} (a : A) : steps R (pure a).
Proof. intros f. apply R_refl. Qed.

Lemma steps_return {A} (e : option Go.error) : steps R (@return_ _ A e).
Proof. intros f. apply R_refl. Qed.

Lemma steps_gets {A} (g : frame -> A) : steps R (gets g).
Proof. intros f. apply R_refl. Qed.

Lemma steps_modify (g : frame -> frame) :
  (forall f, R f (g f)) -> steps R (modify g).
Proof. intros Hg f. apply Hg. Qed.

Lemma steps_bind {A B} (m : M A) (k : A -> M B) :
  steps R m -> (forall a, steps R (k a)) -> steps R (bind m k).
Proof.
  intros Hm Hk f. unfold bind. specialize (Hm f).
  destruct (m f) as [[a|e] f1]; cbn [snd] in *.
  - exact (R_trans _ _ _ Hm (Hk a f1)).
  - exact Hm.
Qed.

Lemma steps_when (b : bool) (m : M unit) : steps R m -> steps R (when b m).
Proof. intros Hm. destruct b; [exact Hm | apply steps_pure]. Qed.

Lemma steps_orReturn {A} (x : option A) (e : option Go.error) :
  steps R (orReturn x e).
Proof. destruct x; [apply steps_pure | apply steps_return]. Qed.

Lemma steps_forRange {A} (xs : list A) (body : A -> M ctl) :
  (forall x, steps R (body x)) -> steps R (forRange xs body).
Proof.
  intros Hbody. induction xs as [|x xs IH]; cbn [forRange].
  - apply steps_pure.
  - apply steps_bind; [apply Hbody|].
    intros [|]; [apply steps_pure | exact IH].
Qed.

Lemma run_steps (m : M unit) (f : frame) : steps R m -> R f (snd (run m f)).
Proof.
  intros Hm. unfold run. specialize (Hm f).
  destruct (m f) as [[u|e] f1]; exact Hm.
Qed.

End Steps.

Lemma recordsKeptF_refl (f : frame) : recordsKeptF f f.
Proof. apply recordsKept_refl. Qed.

Lemma recordsKeptF_trans (f1 f2 f3 : frame) :
  recordsKeptF f1 f2 -> recordsKeptF f2 f3 -> recordsKeptF f1 f3.
Proof. apply recordsKept_trans. Qed.

Lemma recordsKeptF_writeCase : steps recordsKeptF writeCase.
Proof.
  intros f. unfold writeCase, bind, gets, when, orReturn, pure, return_, modify.
  destruct (CaptureConfig.FileWrite _); [|apply recordsKeptF_refl].
  destruct (assertString _) as [filePath|]; [|apply recordsKeptF_refl].
  destruct (emptyOrRelative filePath); [apply recordsKeptF_refl|].
  destruct (assertUint32 _) as [dev|]; [|apply recordsKeptF_refl].
  destruct (assertUint64 _) as [inode|]; [|apply recordsKeptF_refl].
  destruct (writtenFiles (st f) !! _) as [indexName|];
    [destruct (String.eqb indexName filePath); [apply recordsKeptF_refl|]|];
    apply recordsKept_index.
Qed.

Ltac kept_leaf :=
  intros ?;
  unfold MkdirAll, callCopyFileByPath, callGetFileHash, fileHashes_Get,
    fileHashes_Add, modify;
  repeat match goal with
         | |- context [let (_, _) := ?x in _] => destruct x
         end;
  cbn [snd];
  first [ apply recordsKept_captured | apply recordsKept_profile
        | apply recordsKept_same; reflexivity ].

Ltac kept_step :=
  first
    [ apply steps_pure; [apply recordsKeptF_refl]
    | apply steps_return; [apply recordsKeptF_refl]
    | apply steps_gets; [apply recordsKeptF_refl]
    | apply steps_orReturn; [apply recordsKeptF_refl]
    | apply steps_when; [apply recordsKeptF_refl|]
    | apply steps_bind; [apply recordsKeptF_trans| |intros ?]
    | apply steps_forRange; [apply recordsKeptF_refl|apply recordsKeptF_trans|intros ?]
    | match goal with
      | |- steps _ (match ?x with _ => _ end) => destruct x
      end ].

Lemma recordsKeptF_captureExec (filePath src id : string) (ct : Z) :
  steps recordsKeptF (captureExec filePath src id ct).
Proof. unfold captureExec, captureCopy. repeat (kept_step || kept_leaf). Qed.

Lemma recordsKeptF_hashExec (src id : string) (ct : Z) :
  steps recordsKeptF (hashExec src id ct).
Proof. unfold hashExec. repeat (kept_step || kept_leaf). Qed.

Lemma recordsKeptF_execCase : steps recordsKeptF execCase.
Proof.
  unfold execCase, execBody.
  repeat (apply recordsKeptF_captureExec || apply recordsKeptF_hashExec
          || kept_step || kept_leaf).
Qed.

Lemma recordsKept_event (s : state) (c : context) (a : gmap string value)
    (metas : list ArgMeta) :
  recordsKept s (st (snd (processEvent s c a metas))).
Proof.
  assert (Hcase : forall m : M unit, steps recordsKeptF m ->
            recordsKept s (st (snd (run (m >> return_ None) (enter s c a metas))))).
  { intros m Hm.
    apply (run_steps recordsKeptF (m >> return_ None) (enter s c a metas)).
    apply steps_bind; [apply recordsKeptF_trans | exact Hm |].
    intros ?. apply steps_return, recordsKeptF_refl. }
  destruct (decide (EventID c = VfsWriteEventID)) as [Hw|Hw];
    [rewrite processEvent_write by auto; apply Hcase, recordsKeptF_writeCase|].
  destruct (decide (EventID c = VfsWritevEventID)) as [Hwv|Hwv];
    [rewrite processEvent_write by auto; apply Hcase, recordsKeptF_writeCase|].
  destruct (decide (EventID c = SchedProcessExecEventID)) as [He|He];
    [rewrite processEvent_exec by auto; apply Hcase, recordsKeptF_execCase|].
  destruct (decide (EventID c = SocketEventID)) as [Hs|Hs].
  - rewrite processEvent_socket by auto. cbn [snd st].
    destruct (socket_step_keeps s) as (_ & Hwf & Hcf & Hpf & _).
    now apply recordsKept_same.
  - rewrite processEvent_other by auto. apply recordsKept_refl.
Qed.

End Sequences.

(** X12.  With exec-capture off, no sequence of events copies a file,
    makes a directory, records a captured file or touches a profile
    record. *)
Theorem capture_disabled_never_copies `{Env} (s : state)
    (events : list (context * gmap string value * list ArgMeta)) :
  CaptureConfig.Exec (Config.Capture (config s)) = false ->
  let s' := deliver s events in
  capturedFiles s' = capturedFiles s
  /\ profiledFiles s' = profiledFiles s
  /\ count isCopy (calls s') = count isCopy (calls s)
  /\ count isMkdirAll (calls s') = count isMkdirAll (calls s).
Proof.
  revert s. induction events as [|[[c a] metas] events IH]; intros s Hoff;
    cbn [deliver]; [auto|].
  pose proof (capture_off_event s c a metas Hoff) as Hview.
  unfold captureStoreView, enter in Hview. cbn [st] in Hview.
  injection Hview as Hcf Hpf Hcopy Hmk.
  destruct (IH (st (snd (processEvent s c a metas)))) as (IH1 & IH2 & IH3 & IH4).
  { now rewrite processEvent_config. }
  cbv zeta. unfold count in *. rewrite IH1, IH2, IH3, IH4, Hcf, Hpf, Hcopy, Hmk. auto.
Qed.

(** X13.  The event is only ever altered by hash enrichment.  With
    hash-on-output off, or for any event that is not a process-exec
    event, [processEvent] hands back the context, the arguments and the
    descriptors it was given, leaves the hash cache alone and computes no
    hash; with hash-on-output off this holds along any sequence of
    events. *)
Theorem hash_disabled_leaves_events_alone `{Env} (s : state) :
  (forall c a metas,
     OutputConfig.ExecHash (Config.Output (config s)) = false
     \/ EventID c <> SchedProcessExecEventID ->
     let f' := snd (processEvent s c a metas) in
     ctx f' = c /\ args f' = a /\ argMetas f' = metas
     /\ fileHashes (st f') = fileHashes s
     /\ count isHash (calls (st f')) = count isHash (calls s))
  /\ (forall events,
        OutputConfig.ExecHash (Config.Output (config s)) = false ->
        fileHashes (deliver s events) = fileHashes s
        /\ count isHash (calls (deliver s events)) = count isHash (calls s)).
Proof.
  split.
  - intros c a metas Hcond. cbv zeta.
    pose proof (hash_off_event s c a metas Hcond) as Hview.
    unfold hashView, enter in Hview. cbn [st ctx args argMetas] in Hview.
    injection Hview as -> -> -> -> Hcalls. unfold count. now rewrite Hcalls.
  - intros events. revert s.
    induction events as [|[[c a] metas] events IH]; intros s Hoff;
      cbn [deliver]; [auto|].
    pose proof (hash_off_event s c a metas (or_introl Hoff)) as Hview.
    unfold hashView, enter in Hview. cbn [st ctx args argMetas] in Hview.
    injection Hview as _ _ _ Hcache Hcalls.
    destruct (IH (st (snd (processEvent s c a metas)))) as (IH1 & IH2).
    { now rewrite processEvent_config. }
    unfold count in *. now rewrite IH1, IH2, Hcache, Hcalls.
Qed.

(** X14.  No record is ever dropped: along any sequence of events a key
    of the Written-File index, of the Captured-File records or of the
    profile records stays a key, and a profile record keeps the first
    execution time it was created with. *)
Theorem records_are_never_dropped `{Env} (s : state)
    (events : list (context * gmap string value * list ArgMeta)) :
  recordsKept s (deliver s events).
Proof.
  revert s. induction events as [|[[c a] metas] events IH]; intros s;
    cbn [deliver]; [apply recordsKept_refl|].
  exact (recordsKept_trans _ _ _ (recordsKept_event s c a metas) (IH _)).
Qed.

(** X15.  The configuration is read-only: no sequence of events changes
    it. *)
Theorem configuration_is_never_written `{Env} (s : state)
    (events : list (context * gmap string value * list ArgMeta)) :
  config (deliver s events) = config s.
Proof.
  revert s. induction events as [|[[c a] metas] events IH]; intros s;
    cbn [deliver]; [reflexivity|].
  rewrite IH. apply processEvent_config.
Qed.

(** X16.  A socket-creation event never fails and never touches the event
    or the core's tables, whatever the kernel table answers: it returns no
    error, hands back the context, the arguments and the descriptors it
    was given, leaves the configuration, the indices, the records and
    the hash cache alone, and leaves the one-time guard set, also when
    the lookup or the deletion failed, so that pruning is not tried
    again. *)
Theorem socket_event_is_never_fatal `{Env} (s : state) (c : context)
    (a : gmap string value) (metas : list ArgMeta) :
  EventID c = SocketEventID ->
  let r := processEvent s c a metas in
  fst r = None
  /\ eventView (snd r) = (c, a, metas)
  /\ sameTables s (st (snd r))
  /\ removeSocketTailOnce (st (snd r)) = true.
Proof.
  intros Hid r. subst r. rewrite (processEvent_socket _ _ _ _ Hid).
  cbn [fst snd st]. split; [reflexivity|]. split; [reflexivity|].
  split; [apply socket_step_keeps|].
  unfold removeSocketTailOnce_Do.
  destruct (removeSocketTailOnce s) eqn:Hflag; [exact Hflag | reflexivity].
Qed.

(** X17.  How the pruner routes errors.  The kernel table is asked to
    delete the key exactly when the table was found and the lookup of the
    key succeeded.  A failed table lookup or key lookup is dropped
    silently: the error handler is not called and the world is left as it
    was.  The error handler is called exactly when the deletion itself
    fails, with that error, after the deletion attempt. *)
Theorem pruner_reports_only_deletion_errors `{Env} (s : state) :
  let s' := removeSocketTail s in
  let key := SocketEventID in
  let attempt m := bpf_DeleteKey m key (os s) in
  ((forall m, bpf_GetMap "sys_exit_tails" (os s) = inr m ->
              bpf_GetValue m key (os s) <> None) ->
   os s' = os s
   /\ count isDeleteKey (calls s') = count isDeleteKey (calls s)
   /\ count isHandleError (calls s') = count isHandleError (calls s))
  /\ (forall m,
        bpf_GetMap "sys_exit_tails" (os s) = inr m ->
        bpf_GetValue m key (os s) = None ->
        calls s'
        = (calls s ++ [CallGetMap "sys_exit_tails"; CallGetValue key;
                       CallDeleteKey key]
                   ++ match fst (attempt m) with
                      | Some e => [CallHandleError e]
                      | None => []
                      end)%list
        /\ os s' = match fst (attempt m) with
                   | Some e => handleError e (snd (attempt m))
                   | None => snd (attempt m)
                   end).
Proof.
  cbv zeta. rewrite removeSocketTail_eq. cbv zeta. split.
  - intros Hfail.
    destruct (bpf_GetMap _ _) as [e|m].
    + rewrite os_log, !count_log. cbn. auto with lia.
    + destruct (bpf_GetValue m SocketEventID (os s)) as [e|] eqn:Hval.
      * rewrite !os_log, !count_log. cbn. auto with lia.
      * exfalso. now apply (Hfail m).
  - intros m -> ->.
    destruct (bpf_DeleteKey m SocketEventID (os s)) as [[e|] w]; cbn [fst snd].
    + rewrite os_set_os. repeat (rewrite calls_set_os || rewrite calls_log).
      rewrite <- !app_assoc. auto.
    + rewrite os_set_os. repeat (rewrite calls_set_os || rewrite calls_log).
      rewrite <- !app_assoc, app_nil_r. auto.
Qed.

(** X18.  Where the errors of [processEvent] come from.  A write event
    can only return its parse error, and only with write-capture on.  A
    process-exec event can only return one of its two parse errors, the
    error of making the destination directory, or the error of copying
    the file, the last two only with exec-capture on.  No other event
    returns an error, and neither hashing nor the kernel table ever makes
    an event fail. *)
Theorem processEvent_error_sources `{Env} (s : state) (c : context)
    (a : gmap string value) (metas : list ArgMeta) (e : Go.error) :
  fst (processEvent s c a metas) = Some e ->
  ((EventID c = VfsWriteEventID \/ EventID c = VfsWritevEventID)
   /\ CaptureConfig.FileWrite (Config.Capture (config s)) = true
   /\ e = "error parsing vfs_write args"%string)
  \/ (EventID c = SchedProcessExecEventID
      /\ (e = "error parsing sched_process_exec args"%string
          \/ e = "error parsing sched_process_exec args: ctime"%string
          \/ (CaptureConfig.Exec (Config.Capture (config s)) = true
              /\ (fst (os_MkdirAll (destinationDir (config s) c) (os s)) = Some e
                  \/ exists pid filePath,
                       fst (CopyFileByPath (sourcePath pid filePath)
                              (destinationFile (config s) c filePath)
                              (snd (os_MkdirAll (destinationDir (config s) c)
                                      (os s))))
                       = Some e)))).
Proof.
  intros Herr.
  destruct (decide (EventID c = VfsWriteEventID \/ EventID c = VfsWritevEventID))
    as [Hid|Hid].
  { left. split; [exact Hid|].
    destruct (CaptureConfig.FileWrite (Config.Capture (config s))) eqn:Hfw.
    - split; [reflexivity|].
      rewrite (processEvent_write_result _ _ _ _ Hid Hfw) in Herr. cbv zeta in Herr.
      destruct (assertString _) as [filePath|]; [|now injection Herr].
      destruct (emptyOrRelative filePath); [discriminate|].
      destruct (assertUint32 _) as [dev|]; [|now injection Herr].
      destruct (assertUint64 _) as [inode|]; [|now injection Herr].
      destruct (decide _); discriminate.
    - rewrite (processEvent_write_off _ _ _ _ Hid Hfw) in Herr. discriminate. }
  destruct (decide (EventID c = SchedProcessExecEventID)) as [He|He].
  2:{ exfalso.
      destruct (decide (EventID c = SocketEventID)) as [Hs|Hs].
      - rewrite processEvent_socket in Herr by auto. discriminate.
      - rewrite processEvent_other in Herr by tauto. discriminate. }
  right. split; [exact He|].
  rewrite (processEvent_exec_cases _ _ _ _ He) in Herr. cbv zeta in Herr.
  destruct (_ || _); [|discriminate].
  destruct (assertString _) as [filePath|]; [|left; now injection Herr].
  destruct (emptyOrRelative filePath); [discriminate|].
  destruct (GetBucket _ _) as [|pid rest]; [discriminate|].
  destruct (assertInt64 _) as [ct|]; [|right; left; now injection Herr].
  right. right.
  rewrite (run_exec_tail
             (when (CaptureConfig.Exec (Config.Capture (config s)))
                (captureExec filePath (sourcePath pid filePath)
                   (capturedID (MntID c) (sourcePath pid filePath)) ct))) in Herr.
  destruct (CaptureConfig.Exec (Config.Capture (config s))); [|discriminate].
  split; [reflexivity|]. cbn [when] in Herr.
  rewrite captureExec_eq in Herr. cbv zeta in Herr.
  change (os (st (enter (cachePid c s) c a metas))) with (os s) in Herr.
  change (config (st (enter (cachePid c s) c a metas))) with (config s) in Herr.
  change (ctx (enter (cachePid c s) c a metas)) with c in Herr.
  destruct (os_MkdirAll (destinationDir (config s) c) (os s)) as [[e'|] w];
    cbn [fst snd] in Herr |- *; [left; exact Herr|].
  right. exists pid, filePath.
  match type of Herr with
  | context [captureCopy _ _ _ _ ?f] => set (f2 := f) in Herr
  end.
  assert (Hos2 : os (st f2) = w)
    by (subst f2; cbn [st]; now destruct (CaptureConfig.Profile _)).
  assert (Herr2 : err f2 = None) by reflexivity.
  clearbody f2.
  rewrite captureCopy_eq in Herr. cbv zeta in Herr.
  destruct (decide _); [cbn [fst] in Herr; congruence|].
  rewrite Hos2 in Herr.
  destruct (CopyFileByPath _ _ w) as [[e2|] w2]; cbn [fst snd] in Herr |- *;
    [exact Herr | discriminate].
Qed.

(** ** The profile accumulator *)

Lemma wrapS_succ (w z : Z) :
  1 <= w -> Go.wrapS w (Go.wrapS w z + 1) = Go.wrapS w (z + 1).
Proof.
  intros Hw. unfold Go.wrapS.
  assert (Hpos : 0 < 2 ^ w) by (apply Z.pow_pos_nonneg; lia).
  replace ((z + 2 ^ (w - 1)) mod 2 ^ w - 2 ^ (w - 1) + 1 + 2 ^ (w - 1))
    with ((z + 2 ^ (w - 1)) mod 2 ^ w + 1) by lia.
  rewrite Z.add_mod_idemp_l by lia. f_equal. f_equal. lia.
Qed.

Lemma wrapS_small (w z : Z) :
  1 <= w -> - 2 ^ (w - 1) <= z < 2 ^ (w - 1) -> Go.wrapS w z = z.
Proof.
  intros Hw Hz. unfold Go.wrapS.
  assert (Hdouble : 2 ^ w = 2 * 2 ^ (w - 1)).
  { replace w with (Z.succ (w - 1)) at 1 by lia. apply Z.pow_succ_r. lia. }
  rewrite Z.mod_small by lia. lia.
Qed.

Lemma updateProfile_again `{Env} (key : string) (n first : Z) (later : list Z) :
  1 <= Times_bits ->
  forall m : gmap string profilerInfo,
    m !! key = Some {| Times := Go.wrapS Times_bits n; FirstExecutionTs := first |} ->
    fold_left (fun acc t => updateProfile key t acc) later m !! key
    = Some {| Times := Go.wrapS Times_bits (n + Z.of_nat (length later));
              FirstExecutionTs := first |}.
Proof.
  intros Hbits. revert n.
  induction later as [|t later IH]; intros n m Hm; cbn [fold_left length].
  - rewrite Hm. do 3 f_equal. lia.
  - rewrite (IH (n + 1)).
    + do 3 f_equal. lia.
    + unfold updateProfile. rewrite Hm, lookup_insert_eq. cbn [Times FirstExecutionTs].
      now rewrite wrapS_succ.
Qed.

Lemma updateProfile_other `{Env} (key k : string) (later : list Z) :
  k <> key ->
  forall m : gmap string profilerInfo,
    fold_left (fun acc t => updateProfile key t acc) later m !! k = m !! k.
Proof.
  intros Hne. induction later as [|t later IH]; intros m; cbn [fold_left];
    [reflexivity|].
  rewrite IH. unfold updateProfile.
  destruct (m !! key); now rewrite lookup_insert_ne.
Qed.

(** X19.  The profile accumulator counts executions and remembers the
    first one.  Starting without a record for a key, after [updateProfile]
    has been called for that key with the timestamps [ts], then
    [later], the record holds the number of calls (wrapped to the width of
    the counter) and the timestamp of the first call; the records of
    other keys are untouched.  As long as the number of calls fits the
    counter, the count is exact. *)
Theorem profile_counts_executions `{Env} (key : string) (ts : Z) (later : list Z)
    (m : gmap string profilerInfo) :
  2 <= Times_bits ->
  m !! key = None ->
  let m' := fold_left (fun acc t => updateProfile key t acc) (ts :: later) m in
  let n := 1 + Z.of_nat (length later) in
  m' !! key = Some {| Times := Go.wrapS Times_bits n; FirstExecutionTs := ts |}
  /\ (n < 2 ^ (Times_bits - 1) ->
      m' !! key = Some {| Times := n; FirstExecutionTs := ts |})
  /\ (forall k, k <> key -> m' !! k = m !! k).
Proof.
  intros Hbits Hnone m' n.
  assert (Hone : Go.wrapS Times_bits 1 = 1).
  { apply wrapS_small; [lia|].
    assert (2 ^ 1 <= 2 ^ (Times_bits - 1)) by (apply Z.pow_le_mono_r; lia).
    change (2 ^ 1) with 2 in *. lia. }
  assert (Hkey : m' !! key
                 = Some {| Times := Go.wrapS Times_bits n; FirstExecutionTs := ts |}).
  { subst m' n. cbn [fold_left].
    apply updateProfile_again; [lia|].
    unfold updateProfile. rewrite Hnone, lookup_insert_eq. now rewrite Hone. }
  split; [exact Hkey|]. split.
  - intros Hfits. rewrite Hkey. do 2 f_equal.
    apply wrapS_small; [lia|]. subst n.
    assert (0 < 2 ^ (Times_bits - 1)) by (apply Z.pow_pos_nonneg; lia). lia.
  - intros k Hne. subst m'. now apply updateProfile_other.
Qed.

(** ** The file copier *)

Lemma CopyFileByPath_trace (E : Env) (src dst : string)
    (w : @world E) (tr : list (Traced.osEvent E)) :
  Traced.released E (w, tr)
    (snd (CopyFileByPath (H := Traced.extend E) src dst (w, tr))).
Proof.
  unfold Traced.released, CopyFileByPath.
  cbn [os_Stat os_Open os_Create io_Copy file_Close Traced.extend fst snd].
  destruct (@os_Stat E src w) as [e|[|]]; cbn [negb].
  - exists []. split; [now rewrite app_nil_r | constructor].
  - destruct (@os_Open E src w) as [[e|source] w1]; cbn [Traced.handed fst snd].
    + exists []. split; [reflexivity | constructor].
    + destruct (@os_Create E dst w1) as [[e|destination] w2];
        cbn [Traced.handed fst snd].
      * exists [Traced.Opened E source; Traced.Closed E source].
        split; [now rewrite app_nil_r, <- app_assoc | repeat constructor].
      * destruct (@io_Copy E destination source w2) as [e w3]; cbn [fst snd].
        exists [Traced.Opened E source; Traced.Opened E destination;
                Traced.Copied E destination source;
                Traced.Closed E destination; Traced.Closed E source].
        split; [now rewrite <- !app_assoc|].
        apply Traced.balanced_open, Traced.balanced_open, Traced.balanced_copy;
          [now left | right; now left |].
        repeat constructor.
  - exists []. split; [now rewrite app_nil_r | constructor].
Qed.

(** X20.  [CopyFileByPath] releases its handles on every path.  Run on
    any file system extended with a trace of handles, it returns the same
    error and leaves the same file system as without the trace, and the
    events it adds to the trace are balanced: every handle that
    [os.Open] or [os.Create] handed out is closed exactly once, the
    destination before the source, bytes are copied only between handles
    that are open, and no handle is left open, whether the copy succeeds
    or fails at any step. *)
Theorem CopyFileByPath_releases_its_handles (E : Env) (src dst : string)
    (w : @world E) (tr : list (Traced.osEvent E)) :
  let r := CopyFileByPath (H := Traced.extend E) src dst (w, tr) in
  fst r = fst (CopyFileByPath (H := E) src dst w)
  /\ fst (snd r) = snd (CopyFileByPath (H := E) src dst w)
  /\ exists evs, snd (snd r) = (tr ++ evs)%list /\ Traced.balanced E [] evs.
Proof.
  cbv zeta. split; [|split]; [| |exact (CopyFileByPath_trace E src dst w tr)];
    unfold CopyFileByPath;
    cbn [os_Stat os_Open os_Create io_Copy file_Close Traced.extend fst snd];
    (destruct (@os_Stat E src w) as [e|[|]]; cbn [negb]; [reflexivity| |reflexivity]);
    (destruct (@os_Open E src w) as [[e|source] w1]; cbn [fst snd]; [reflexivity|]);
    (destruct (@os_Create E dst w1) as [[e|destination] w2]; cbn [fst snd];
     [reflexivity|]);
    destruct (@io_Copy E destination source w2) as [e w3]; reflexivity.
Qed.

(** X21.  When [CopyFileByPath] fails before anything is opened, and when
    it succeeds.  A source that cannot be stat'ed, or that is not a regular
    file, gives an error (for the latter, the path followed by
    [is not a regular file]) and leaves the file system exactly as it
    was: in particular the destination is neither created nor truncated.
    The copy returns no error exactly when the source is a regular file
    and opening it, creating the destination and copying the bytes all
    succeed. *)
Theorem CopyFileByPath_outcome `{Env} (src dst : string) (w : world) :
  let r := CopyFileByPath src dst w in
  (forall e, os_Stat src w = inl e -> r = (Some e, w))
  /\ (os_Stat src w = inr false ->
      r = (Some (src ++ " is not a regular file")%string, w))
  /\ (fst r = None <->
      exists source w1 destination w2 w3,
        os_Stat src w = inr true
        /\ os_Open src w = (inr source, w1)
        /\ os_Create dst w1 = (inr destination, w2)
        /\ io_Copy destination source w2 = (None, w3)).
Proof.
  cbv zeta. unfold CopyFileByPath. split; [|split].
  - intros e ->. reflexivity.
  - intros ->. reflexivity.
  - destruct (os_Stat src w) as [e|[|]]; cbn [negb].
    + split; [discriminate | intros (? & ? & ? & ? & ? & [=] & _)].
    + destruct (os_Open src w) as [[e|source] w1].
      * split; [discriminate | intros (? & ? & ? & ? & ? & _ & [=] & _)].
      * destruct (os_Create dst w1) as [[e|destination] w2] eqn:Hcreate.
        -- split; [discriminate|].
           intros (so & w1' & de & w2' & w3' & _ & Hopen & Hcr & _).
           injection Hopen as <- <-. rewrite Hcreate in Hcr. discriminate.
        -- destruct (io_Copy destination source w2) as [e w3] eqn:Hcopy.
           cbn [fst]. split.
           ++ intros ->. exists source, w1, destination, w2, w3. auto.
           ++ intros (so & w1' & de & w2' & w3' & _ & Hopen & Hcr & Hc).
              injection Hopen as <- <-. rewrite Hcreate in Hcr.
              injection Hcr as <- <-. rewrite Hcopy in Hc. now injection Hc.
    + split; [discriminate | intros (? & ? & ? & ? & ? & [=] & _)].
Qed.

(** ** The keys of the indices *)

Lemma uint_chars (u : Decimal.uint) (c : ascii) :
  In c (list_ascii_of_string (NilEmpty.string_of_uint u)) ->
  In c (list_ascii_of_string "0123456789").
Proof.
  induction u; cbn [NilEmpty.string_of_uint list_ascii_of_string];
    (intros [<- | Hin]; [cbn; tauto | auto]) || (intros []).
Qed.

Lemma Itoa_chars (z : Z) (c : ascii) :
  In c (list_ascii_of_string (Go.Itoa z)) ->
  In c (list_ascii_of_string "-0123456789").
Proof.
  assert (Hnz : forall u, In c (list_ascii_of_string (NilZero.string_of_uint u)) ->
                          In c (list_ascii_of_string "0123456789")).
  { intros u. destruct u;
      match goal with
      | |- In _ (list_ascii_of_string (NilZero.string_of_uint Decimal.Nil)) -> _ =>
          cbn; tauto
      | |- In _ (list_ascii_of_string (NilZero.string_of_uint ?v)) -> _ =>
          exact (uint_chars v c)
      end. }
  unfold Go.Itoa, NilZero.string_of_int. destruct (Z.to_int z) as [u|u].
  - intros Hin. right. exact (Hnz _ Hin).
  - cbn [list_ascii_of_string]. intros [<- | Hin]; [now left | right; exact (Hnz _ Hin)].
Qed.

Lemma Itoa_without (z : Z) (c : ascii) :
  ~ In c (list_ascii_of_string "-0123456789") ->
  ~ In c (list_ascii_of_string (Go.Itoa z)).
Proof. intros Hc Hin. apply Hc. exact (Itoa_chars z c Hin). Qed.

Lemma Itoa_inj (z z' : Z) : Go.Itoa z = Go.Itoa z' -> z = z'.
Proof.
  assert (Hparse : forall n, NilZero.int_of_string (Go.Itoa n) = Some (Z.to_int n)).
  { intros n. apply NilZero.isi; destruct n; cbn; intros [= Hnil];
      exact (Unsigned.to_uint_nonnil _ Hnil). }
  intros Heq. apply to_int_inj.
  pose proof (Hparse z) as Hz. rewrite Heq, Hparse in Hz. now injection Hz.
Qed.

(** Two strings that agree, each cut at the first occurrence of a
    separator, agree on both sides of it. *)
Lemma split_at_first (c : ascii) (s1 s2 r1 r2 : string) :
  ~ In c (list_ascii_of_string s1) -> ~ In c (list_ascii_of_string s2) ->
  (s1 ++ String c r1)%string = (s2 ++ String c r2)%string ->
  s1 = s2 /\ r1 = r2.
Proof.
  revert s2. induction s1 as [|x s1 IH]; intros [|y s2];
    cbn [list_ascii_of_string]; norm_append; intros H1 H2 Heq.
  - injection Heq as ->. auto.
  - injection Heq as -> _. exfalso. apply H2. now left.
  - injection Heq as -> _. exfalso. apply H1. now left.
  - injection Heq as -> Heq.
    destruct (IH s2 ltac:(intros Hin; apply H1; now right)
                 ltac:(intros Hin; apply H2; now right) Heq) as [-> ->].
    auto.
Qed.

Ltac norm_append_in H := rewrite ?append_nil, ?append_cons in H.

Ltac not_a_digit :=
  cbn; intros Hin;
  repeat match type of Hin with
         | _ \/ _ => destruct Hin as [Hin | Hin]
         end; (discriminate Hin || contradiction).

(** X22.  The keys of the indices do not collide.  Two Written-File keys
    are equal only for the same mount namespace, device and inode; two
    Captured-File keys (which are also the keys of the hash cache) are
    equal only for the same mount namespace, the same process through
    which the file is reached and the same path. *)
Theorem index_keys_do_not_collide :
  (forall m d i m' d' i',
     writtenFileName m d i = writtenFileName m' d' i' ->
     m = m' /\ d = d' /\ i = i')
  /\ (forall m pid p m' pid' p',
        capturedID m (sourcePath pid p) = capturedID m' (sourcePath pid' p') ->
        m = m' /\ pid = pid' /\ p = p').
Proof.
  split.
  - intros m d i m' d' i'. unfold writtenFileName. norm_append. intros Heq.
    apply split_at_first in Heq as [Hm Heq];
      [|apply Itoa_without; not_a_digit..].
    norm_append_in Heq.
    injection Heq as Heq.
    apply split_at_first in Heq as [Hd Heq];
      [|apply Itoa_without; not_a_digit..].
    norm_append_in Heq.
    injection Heq as Heq.
    auto using Itoa_inj.
  - intros m pid p m' pid' p'. unfold capturedID, sourcePath. norm_append.
    intros Heq.
    apply split_at_first in Heq as [Hm Heq];
      [|apply Itoa_without; not_a_digit..].
    injection Heq as Heq.
    apply split_at_first in Heq as [Hpid Heq];
      [|apply Itoa_without; not_a_digit..].
    norm_append_in Heq.
    injection Heq as Heq.
    auto using Itoa_inj.
Qed.

(** ** Further end-to-end properties *)

Lemma filter_log_app `{Env} (p : call -> bool) (c : call) (s : state) :
  List.filter p (calls (log c s))
  = (List.filter p (calls s) ++ if p c then [c] else [])%list.
Proof.
  unfold log. cbn [calls]. rewrite List.filter_app. cbn [List.filter].
  now destruct (p c).
Qed.

Lemma processEvent_write_indexed `{Env} (s : state) (c : context)
    (a : gmap string value) (metas : list ArgMeta)
    (filePath : string) (dev inode : Z) :
  EventID c = VfsWriteEventID \/ EventID c = VfsWritevEventID ->
  CaptureConfig.FileWrite (Config.Capture (config s)) = true ->
  assertString (a !! "pathname") = Some filePath ->
  emptyOrRelative filePath = false ->
  assertUint32 (a !! "dev") = Some dev ->
  assertUint64 (a !! "inode") = Some inode ->
  processEvent s c a metas
  = (None,
     enter (set_writtenFiles
              (<[writtenFileName (MntID c) dev inode := filePath]> (writtenFiles s))
              s) c a metas).
Proof.
  intros Hid Hfw Hp Habs Hd Hi.
  rewrite (processEvent_write_result _ _ _ _ Hid Hfw). cbv zeta.
  rewrite Hp, Habs, Hd, Hi.
  destruct (decide _) as [Hin|Hout]; [|reflexivity].
  rewrite (insert_id _ _ _ Hin), set_writtenFiles_id. reflexivity.
Qed.

(** X23.  The Written-File index holds the most recent path.  Two write
    events for the same mount namespace, device and inode that carry
    different absolute paths, write-capture enabled: neither returns an
    error, and afterwards the entry of the key holds the path of the
    second event; every other entry is as it was before the two events. *)
Theorem write_index_keeps_last_path `{Env} (s : state) (c1 c2 : context)
    (a1 a2 : gmap string value) (metas1 metas2 : list ArgMeta)
    (path1 path2 : string) (dev inode : Z) :
  CaptureConfig.FileWrite (Config.Capture (config s)) = true ->
  EventID c1 = VfsWriteEventID \/ EventID c1 = VfsWritevEventID ->
  EventID c2 = VfsWriteEventID \/ EventID c2 = VfsWritevEventID ->
  MntID c2 = MntID c1 ->
  emptyOrRelative path1 = false -> emptyOrRelative path2 = false ->
  assertString (a1 !! "pathname") = Some path1 ->
  assertString (a2 !! "pathname") = Some path2 ->
  assertUint32 (a1 !! "dev") = Some dev -> assertUint32 (a2 !! "dev") = Some dev ->
  assertUint64 (a1 !! "inode") = Some inode ->
  assertUint64 (a2 !! "inode") = Some inode ->
  let key := writtenFileName (MntID c1) dev inode in
  let r1 := processEvent s c1 a1 metas1 in
  let r2 := processEvent (st (snd r1)) c2 a2 metas2 in
  fst r1 = None /\ fst r2 = None
  /\ writtenFiles (st (snd r2)) = <[key := path2]> (writtenFiles s)
  /\ writtenFiles (st (snd r2)) !! key = Some path2.
Proof.
  intros Hfw Hid1 Hid2 Hmnt Habs1 Habs2 Hp1 Hp2 Hd1 Hd2 Hi1 Hi2 key r1 r2.
  subst r2 r1.
  rewrite (processEvent_write_indexed s c1 a1 metas1 path1 dev inode)
    by assumption.
  cbn [fst snd st enter].
  rewrite (processEvent_write_indexed _ c2 a2 metas2 path2 dev inode)
    by assumption.
  cbn [fst snd st enter]. unfold set_writtenFiles. cbn [writtenFiles].
  rewrite Hmnt. fold key. rewrite insert_insert_eq.
  repeat split. apply lookup_insert_eq.
Qed.

(** X24.  What exec-capture asks of the file system.  A process-exec
    event with exec-capture on that reaches the capture block asks once
    for the directory named after the mount namespace under the capture
    root, also when the file is already captured.  It then asks for one
    copy, from [/proc/<pid>/root<pathname>] to the file
    [exec.<timestamp>.<base name>] in that directory, exactly when the
    directory could be made and the Captured-File record does not show the
    current change-time; otherwise it asks for no copy. *)
Theorem exec_capture_file_system_requests `{Env} (s : state) (c : context)
    (a : gmap string value) (metas : list ArgMeta)
    (filePath : string) (pid ct : Z) :
  execReaches s c a filePath pid ct ->
  CaptureConfig.Exec (Config.Capture (config s)) = true ->
  let dir := destinationDir (config s) c in
  let src := sourcePath pid filePath in
  let dst := destinationFile (config s) c filePath in
  let s' := st (snd (processEvent s c a metas)) in
  List.filter isMkdirAll (calls s')
  = (List.filter isMkdirAll (calls s) ++ [CallMkdirAll dir])%list
  /\ List.filter isCopy (calls s')
     = (List.filter isCopy (calls s)
        ++ if decide (fst (os_MkdirAll dir (os s)) = None)
           then if decide (capturedFiles s !! capturedID (MntID c) src = Some ct)
                then []
                else [CallCopyFileByPath src dst]
           else [])%list.
Proof.
  intros Hreach Hexec dir src dst s'. subst s'.
  rewrite (processEvent_exec_capture _ _ _ _ _ _ _ Hreach Hexec). fold src.
  rewrite captureExec_eq. cbv zeta.
  change (os (st (enter (cachePid c s) c a metas))) with (os s).
  change (config (st (enter (cachePid c s) c a metas))) with (config s).
  change (ctx (enter (cachePid c s) c a metas)) with c.
  fold dir dst.
  destruct (os_MkdirAll dir (os s)) as [[e|] w]; cbn [fst snd].
  { rewrite decide_False by discriminate. cbn [st].
    rewrite calls_set_os, !filter_log_app. cbn [isMkdirAll isCopy].
    change (calls (st (enter (cachePid c s) c a metas))) with (calls s).
    now rewrite app_nil_r. }
  rewrite (decide_True _ _ eq_refl).
  match goal with
  | |- context [captureCopy _ _ _ _ ?f] => set (f2 := f)
  end.
  assert (Hrec2 : capturedFiles (st f2) = capturedFiles s)
    by (subst f2; cbn [st]; now destruct (CaptureConfig.Profile _)).
  assert (Hcalls2 : calls (st f2) = (calls s ++ [CallMkdirAll dir])%list)
    by (subst f2; cbn [st]; now destruct (CaptureConfig.Profile _)).
  clearbody f2.
  assert (Hhash : forall f1,
            List.filter isMkdirAll
              (calls (st (snd (when (OutputConfig.ExecHash (Config.Output (config s)))
                                 (hashExec src (capturedID (MntID c) src) ct) f1))))
            = List.filter isMkdirAll (calls (st f1))
            /\ List.filter isCopy
                 (calls (st (snd (when (OutputConfig.ExecHash (Config.Output (config s)))
                                    (hashExec src (capturedID (MntID c) src) ct) f1))))
               = List.filter isCopy (calls (st f1))).
  { intros f1.
    pose proof (preserves_when captureStoreView
                  (OutputConfig.ExecHash (Config.Output (config s))) _
                  (captureStoreView_hashExec src (capturedID (MntID c) src) ct) f1)
      as Hp.
    unfold captureStoreView in Hp. injection Hp as _ _ Hc Hm. auto. }
  rewrite captureCopy_eq. cbv zeta. rewrite Hrec2.
  destruct (decide (capturedFiles s !! capturedID (MntID c) src = Some ct)).
  - cbv beta iota. cbn [snd]. destruct (Hhash f2) as [-> ->].
    rewrite Hcalls2, !List.filter_app. cbn [List.filter isMkdirAll isCopy].
    now rewrite !app_nil_r.
  - destruct (CopyFileByPath src dst (os (st f2))) as [[e|] w2];
      cbn [fst snd]; cbv beta iota; cbn [fst snd st].
    + rewrite calls_set_os, !filter_log_app, Hcalls2, !List.filter_app.
      cbn [List.filter isMkdirAll isCopy]. now rewrite !app_nil_r.
    + match goal with
      | |- context [when _ _ ?f1] => destruct (Hhash f1) as [-> ->]
      end.
      cbn [st]. change (calls (set_capturedFiles ?x ?y)) with (calls y).
      rewrite calls_set_os, !filter_log_app, Hcalls2, !List.filter_app.
      cbn [List.filter isMkdirAll isCopy]. now rewrite !app_nil_r.
Qed.

(** X25.  The hash cache, across two events.  Suppose the cache gives
    back what was just added to it and gives the same answer when asked
    twice.  Then of two process-exec events with hash-on-output on that
    reach the same (namespace, source path) with the same change-time and
    are processed without error, the second computes no hash and carries
    the same [sha256] as the first. *)
Theorem exec_hash_reused_by_next_event `{Env} (s : state) (c1 c2 : context)
    (a1 a2 : gmap string value) (metas1 metas2 : list ArgMeta)
    (filePath : string) (pid ct : Z) :
  (forall k v cache, fst (lru_Get k (lru_Add k v cache)) = Some v) ->
  (forall k cache, fst (lru_Get k (snd (lru_Get k cache))) = fst (lru_Get k cache)) ->
  OutputConfig.ExecHash (Config.Output (config s)) = true ->
  MntID c2 = MntID c1 ->
  let r1 := processEvent s c1 a1 metas1 in
  let s1 := st (snd r1) in
  let r2 := processEvent s1 c2 a2 metas2 in
  execReaches s c1 a1 filePath pid ct ->
  execReaches s1 c2 a2 filePath pid ct ->
  fst r1 = None -> fst r2 = None ->
  count isHash (calls (st (snd r2))) = count isHash (calls s1)
  /\ args (snd r2) !! "sha256" = args (snd r1) !! "sha256"
  /\ is_Some (args (snd r1) !! "sha256").
Proof.
  intros Hadd Hget Hhash Hmnt r1 s1 r2 Hreach1 Hreach2 Hok1 Hok2.
  assert (Hhash1 : OutputConfig.ExecHash (Config.Output (config s1)) = true).
  { subst s1 r1. now rewrite processEvent_config. }
  pose proof (processEvent_hash_cache s c1 a1 metas1 filePath pid ct
                Hreach1 Hhash Hok1) as H1.
  pose proof (processEvent_hash_cache s1 c2 a2 metas2 filePath pid ct
                Hreach2 Hhash1 Hok2) as H2.
  cbv zeta in H1, H2. rewrite Hmnt in H2.
  set (id := capturedID (MntID c1) (sourcePath pid filePath)) in *.
  fold r1 in H1. fold s1 in H1. fold r2 in H2.
  destruct H1 as (_ & Hhit1 & Hmiss1). destruct H2 as (Hiff2 & Hhit2 & _).
  assert (Hstored2 : exists info,
            fst (lru_Get id (fileHashes s1)) = Some info /\ LastCtime info = ct
            /\ args (snd r1) !! "sha256" = Some (VString (Hash info))).
  { destruct (fst (lru_Get id (fileHashes s))) as [info|] eqn:Hlook.
    - destruct (decide (LastCtime info = ct)) as [Hct|Hct].
      + destruct (Hhit1 info eq_refl Hct) as [Hargs Hcache].
        exists info. fold s1 in Hcache. rewrite Hcache, Hget, Hlook. auto.
      + destruct Hmiss1 as (Hargs & _ & Hcache).
        { intros (info' & [= <-] & Hct'). contradiction. }
        fold s1 in Hcache. rewrite Hcache, Hadd. eexists. split; [reflexivity|].
        split; [reflexivity | exact Hargs].
    - destruct Hmiss1 as (Hargs & _ & Hcache).
      { intros (info' & [=] & _). }
      fold s1 in Hcache. rewrite Hcache, Hadd. eexists. split; [reflexivity|].
      split; [reflexivity | exact Hargs]. }
  destruct Hstored2 as (info & Hlook2 & Hct2 & Hargs1).
  split; [|split].
  - apply Hiff2. eauto.
  - rewrite Hargs1. apply (Hhit2 info Hlook2 Hct2).
  - rewrite Hargs1. eauto.
Qed.

(** ** Process-exec events and the rest of the core; handles across events *)

(** X26.  A process-exec event never touches the configuration, the
    Written-File index, the one-time guard or the kernel table, whatever
    its arguments are and however it ends. *)
Theorem exec_event_leaves_index_and_pruner_alone `{Env} (s : state) (c : context)
    (a : gmap string value) (metas : list ArgMeta) :
  EventID c = SchedProcessExecEventID ->
  let s' := st (snd (processEvent s c a metas)) in
  config s' = config s
  /\ writtenFiles s' = writtenFiles s
  /\ removeSocketTailOnce s' = removeSocketTailOnce s
  /\ List.filter isGetMap (calls s') = List.filter isGetMap (calls s)
  /\ List.filter isDeleteKey (calls s') = List.filter isDeleteKey (calls s).
Proof.
  intros Hid s'. subst s'. rewrite (processEvent_exec _ _ _ _ Hid).
  assert (Hrun : forall V (view : frame -> V), preserves view execCase ->
            view (snd (run (execCase >> return_ None) (enter s c a metas)))
            = view (enter s c a metas)).
  { intros V view Hview. apply run_preserves.
    apply preserves_bind; [exact Hview | intros; apply preserves_return]. }
  pose proof (Hrun _ configView configView_execCase) as Hconfig.
  pose proof (Hrun _ indexView indexView_execCase) as Hindex.
  pose proof (Hrun _ prunerView prunerView_execCase) as Hpruner.
  unfold prunerView in Hpruner. injection Hpruner as Hflag Hget Hdel.
  auto.
Qed.

Section HandleSafety.
Variable E : Env.

Lemma balanced_app (open : list (@file E)) (evs1 evs2 : list (Traced.osEvent E)) :
  Traced.balanced E open evs1 -> Traced.balanced E [] evs2 ->
  Traced.balanced E open (evs1 ++ evs2).
Proof.
  intros H1 H2. induction H1; cbn [app]; [exact H2 | | |];
    constructor; assumption.
Qed.

Lemma released_refl (w : Traced.tracedWorld E) : Traced.released E w w.
Proof. exists []. split; [now rewrite app_nil_r | constructor]. Qed.

Lemma released_trans (w1 w2 w3 : Traced.tracedWorld E) :
  Traced.released E w1 w2 -> Traced.released E w2 w3 -> Traced.released E w1 w3.
Proof.
  intros (e1 & H1 & B1) (e2 & H2 & B2). exists (e1 ++ e2)%list. split.
  - now rewrite H2, H1, app_assoc.
  - now apply balanced_app.
Qed.

Lemma released_same_trace (w w' : Traced.tracedWorld E) :
  snd w' = snd w -> Traced.released E w w'.
Proof.
  intros Hsame. exists []. split; [now rewrite app_nil_r | constructor].
Qed.

(** the relation on the frames of the core running on the traced file
    system *)
Lemma releasedF_refl (f : @frame (Traced.extend E)) :
  Traced.released E (os (st f)) (os (st f)).
Proof. apply released_refl. Qed.

Lemma releasedF_step_MkdirAll (path : string) :
  steps (H := Traced.extend E)
    (fun f f' => Traced.released E (os (st f)) (os (st f')))
    (MkdirAll (H := Traced.extend E) path).
Proof.
  intros f. unfold MkdirAll. cbn [os_MkdirAll Traced.extend].
  destruct (@os_MkdirAll E path (fst (os (st f)))) as [e w'].
  cbn [snd]. apply released_same_trace. reflexivity.
Qed.

Lemma releasedF_step_copy (src dst : string) :
  steps (H := Traced.extend E)
    (fun f f' => Traced.released E (os (st f)) (os (st f')))
    (callCopyFileByPath (H := Traced.extend E) src dst).
Proof.
  intros f. unfold callCopyFileByPath.
  pose proof (CopyFileByPath_trace E src dst (fst (os (st f))) (snd (os (st f))))
    as Hcopy.
  rewrite <- surjective_pairing in Hcopy.
  destruct (CopyFileByPath src dst (os (st f))) as [e w']. exact Hcopy.
Qed.

End HandleSafety.

Ltac released_leaf :=
  intros ?;
  unfold callGetFileHash, fileHashes_Get, fileHashes_Add, modify;
  repeat match goal with
         | |- context [let (_, _) := ?x in _] => destruct x
         end;
  cbn [snd]; apply released_same_trace; reflexivity.

Ltac released_step E :=
  first
    [ apply steps_pure; [intros ?; apply released_refl]
    | apply steps_return; [intros ?; apply released_refl]
    | apply steps_gets; [intros ?; apply released_refl]
    | apply steps_orReturn; [intros ?; apply released_refl]
    | apply steps_when; [intros ?; apply released_refl|]
    | apply steps_bind; [intros ? ? ?; apply released_trans| |intros ?]
    | apply steps_forRange;
        [intros ?; apply released_refl|intros ? ? ?; apply released_trans|intros ?]
    | apply releasedF_step_MkdirAll
    | apply releasedF_step_copy
    | match goal with
      | |- steps _ (match ?x with _ => _ end) => destruct x
      end ].

Lemma released_writeCase (E : Env) :
  steps (H := Traced.extend E)
    (fun f f' => Traced.released E (os (st f)) (os (st f')))
    (writeCase (H := Traced.extend E)).
Proof. unfold writeCase. repeat (released_step E || released_leaf). Qed.

Lemma released_execCase (E : Env) :
  steps (H := Traced.extend E)
    (fun f f' => Traced.released E (os (st f)) (os (st f')))
    (execCase (H := Traced.extend E)).
Proof.
  unfold execCase, execBody, captureExec, captureCopy, hashExec.
  repeat (released_step E || released_leaf).
Qed.

Lemma released_socket (E : Env) (s : @state (Traced.extend E)) :
  Traced.released E (os s)
    (os (removeSocketTailOnce_Do (H := Traced.extend E)
           (removeSocketTail (H := Traced.extend E)) s)).
Proof.
  apply released_same_trace. unfold removeSocketTailOnce_Do.
  destruct (removeSocketTailOnce s); [reflexivity|].
  change (os (set_removeSocketTailOnce true ?x)) with (os x).
  rewrite removeSocketTail_eq. cbv zeta.
  destruct (bpf_GetMap _ _) as [e|m]; [reflexivity|].
  destruct (bpf_GetValue m SocketEventID (os s)) as [e|]; [reflexivity|].
  cbn [bpf_DeleteKey handleError Traced.extend].
  destruct (@bpf_DeleteKey E m _ (fst (os s))) as [[e|] w']; reflexivity.
Qed.

Lemma released_event (E : Env) (s : @state (Traced.extend E)) (c : context)
    (a : gmap string value) (metas : list ArgMeta) :
  Traced.released E (os s)
    (os (st (snd (processEvent (H := Traced.extend E) s c a metas)))).
Proof.
  set (R := fun f f' : @frame (Traced.extend E) =>
              Traced.released E (os (st f)) (os (st f'))).
  assert (Hcase : forall m : M unit, steps R m ->
            R (enter s c a metas) (snd (run (m >> return_ None) (enter s c a metas)))).
  { intros m Hm. apply (run_steps R).
    apply steps_bind; [intros ? ? ?; apply released_trans | exact Hm |].
    intros ?. apply steps_return. intros ?. apply released_refl. }
  destruct (decide (EventID c = VfsWriteEventID)) as [Hw|Hw];
    [rewrite processEvent_write by auto; apply Hcase, released_writeCase|].
  destruct (decide (EventID c = VfsWritevEventID)) as [Hwv|Hwv];
    [rewrite processEvent_write by auto; apply Hcase, released_writeCase|].
  destruct (decide (EventID c = SchedProcessExecEventID)) as [He|He];
    [rewrite processEvent_exec by auto; apply Hcase, released_execCase|].
  destruct (decide (EventID c = SocketEventID)) as [Hs|Hs].
  - rewrite processEvent_socket by auto. cbn [snd st]. apply released_socket.
  - rewrite processEvent_other by auto. apply released_refl.
Qed.

(** X27.  The core never leaks a file handle.  Run on any file system
    extended with a trace of handles, any sequence of events adds a
    balanced trace: every handle that [os.Open] or [os.Create] handed to
    the core while the events were processed has been closed, and none is
    left open, however each event ended. *)
Theorem events_release_their_handles (E : Env) (s : @state (Traced.extend E))
    (events : list (context * gmap string value * list ArgMeta)) :
  exists evs,
    snd (os (deliver (H := Traced.extend E) s events)) = (snd (os s) ++ evs)%list
    /\ Traced.balanced E [] evs.
Proof.
  change (Traced.released E (os s) (os (deliver (H := Traced.extend E) s events))).
  revert s. induction events as [|[[c a] metas] events IH]; intros s;
    cbn [deliver]; [apply released_refl|].
  exact (released_trans E _ _ _ (released_event E s c a metas) (IH _)).
Qed.

(** ** Witnesses of the further properties *)

(** X1 on the filter with both bounds unset and reject-list [5]: the
    return value 0 goes on to the argument family, the return value 5 is
    rejected. *)
Lemma return_value_filter_semantics_witness :
  let cfg := Samples.retConfig Samples.unboundedFilter in
  let rejected : context :=
    {| EventID := 1018; Pid := 300; HostPid := 200; MntID := 7; Ts := 5000;
       Retval := 5; Argnum := 2 |} in
  shouldProcessEvent (H := Demo.env) cfg Demo.writeCtx ∅
    = argFilterStage cfg Demo.writeCtx ∅
  /\ shouldProcessEvent (H := Demo.env) cfg rejected ∅ = Some false.
Proof.
  intros cfg rejected. split.
  - apply (proj2 (return_value_filter_semantics (H := Demo.env) cfg Demo.writeCtx ∅)
             Samples.unboundedFilter eq_refl).
    + vm_compute. reflexivity.
    + split; [now left|]. split; [|split; now left].
      intros Hin. apply list_elem_of_In in Hin. destruct Hin as [Hin|[]].
      discriminate Hin.
  - apply (proj2 (return_value_filter_semantics (H := Demo.env) cfg rejected ∅)
             Samples.unboundedFilter eq_refl).
    + vm_compute. reflexivity.
    + intros (_ & Hnot & _). apply Hnot. apply list_elem_of_In. now left.
Defined.

(** X2 on the filter [/etc/*] except [/etc/hostname] and the value
    [/etc/passwd]. *)
Lemma argument_filter_semantics_witness :
  let a : gmap string value := {[ "pathname" := VString "/etc/passwd" ]} in
  let cfg := Demo.argFilterConfig [("pathname", Demo.etcFilter)] in
  exists b,
    argFilterStage cfg Demo.writeCtx a = Some b
    /\ (b = true <->
        forall argName filter v,
          (argName, filter) ∈ [("pathname", Demo.etcFilter)] ->
          a !! argName = Some v -> accepts filter (Sprint v)).
Proof.
  intros a cfg.
  apply (argument_filter_semantics (H := Demo.env) cfg Demo.writeCtx a
           [("pathname", Demo.etcFilter)]).
  - reflexivity.
  - vm_compute. reflexivity.
  - repeat constructor; discriminate.
Defined.

(** X3 on the filters of [pathname] and [flags], in both orders. *)
Lemma argument_filter_order_irrelevant_witness :
  let a : gmap string value := {[ "pathname" := VString "/etc/passwd" ]} in
  shouldProcessEvent (H := Demo.env)
    (Demo.argFilterConfig [("pathname", Demo.etcFilter); ("flags", Demo.flagsFilter)])
    Demo.writeCtx a
  = shouldProcessEvent (H := Demo.env)
      (Demo.argFilterConfig [("flags", Demo.flagsFilter); ("pathname", Demo.etcFilter)])
      Demo.writeCtx a.
Proof.
  intros a.
  apply (argument_filter_order_irrelevant (H := Demo.env) _ _ Demo.writeCtx a
           [("pathname", Demo.etcFilter); ("flags", Demo.flagsFilter)]
           [("flags", Demo.flagsFilter); ("pathname", Demo.etcFilter)]).
  - reflexivity.
  - reflexivity.
  - vm_compute. reflexivity.
  - vm_compute. reflexivity.
  - apply perm_swap.
  - repeat constructor; discriminate.
Defined.

(** X4 on two events of type 999. *)
Lemma unmatched_events_are_ignored_witness :
  let s := Demo.state0 (Demo.config0 true true true) ∅ Demo.w1 in
  let ev : context * gmap string value * list ArgMeta :=
    (Demo.mkctx 999 300 200 7, Demo.execArgs 1000, []) in
  deliver (H := Demo.env) s [ev; ev] = s.
Proof.
  intros s ev.
  apply (unmatched_events_are_ignored (H := Demo.env) s [ev; ev]).
  repeat constructor;
    change (999 ∉ [1018; 1019; 1004; 41]);
    rewrite !not_elem_of_cons; repeat split; try discriminate;
    apply not_elem_of_nil.
Defined.

(** X5 on the write event for [/tmp/a]. *)
Lemma write_event_touches_only_the_index_witness :
  let s := Demo.state0 (Demo.config0 true true true) {[ 7 := [200] ]} Demo.w1 in
  let r := processEvent (H := Demo.env) s Demo.writeCtx Demo.writeArgs [] in
  besidesIndexView (snd r) = besidesIndexView (enter s Demo.writeCtx Demo.writeArgs [])
  /\ (fst r = None \/ fst r = Some "error parsing vfs_write args"%string).
Proof.
  intros s r.
  destruct (write_event_touches_only_the_index (H := Demo.env) s Demo.writeCtx
              Demo.writeArgs []) as (Hview & Herr & _).
  - left. reflexivity.
  - split; [exact Hview | exact Herr].
Defined.

(** X6 on a write to [/tmp/a] followed by a write to a memory-backed
    file. *)
Lemma written_index_holds_absolute_paths_witness :
  let s := Demo.state0 (Demo.config0 true false false) ∅ Demo.w1 in
  map_Forall (fun _ p => emptyOrRelative p = false)
    (writtenFiles
       (deliver (H := Demo.env) s
          [(Demo.writeCtx, Demo.writeArgs, []); (Demo.writeCtx, Demo.memfdArgs, [])])).
Proof.
  intros s.
  apply (written_index_holds_absolute_paths (H := Demo.env) s).
  apply map_Forall_empty.
Defined.

(** X7 on an exec event of process 300, host process 200, in namespace
    7, with neither exec-capture nor hash-on-output on. *)
Lemma exec_event_always_caches_pid_witness :
  let s := Demo.state0 (Demo.config0 false false false) ∅ Demo.w1 in
  GetBucket (Env := Demo.env) 7
    (pidsInMntns (st (snd (processEvent (H := Demo.env) s Demo.execCtx ∅ []))))
  = [200].
Proof.
  intros s.
  rewrite (proj1 (exec_event_always_caches_pid (H := Demo.env) s Demo.execCtx ∅ [])
             eq_refl).
  vm_compute. reflexivity.
Defined.

(** X8 on an exec event without [ctime]: accepted when the bucket of the
    namespace is empty (an index without room), refused when process 200
    is in the bucket. *)
Lemma exec_event_argument_checks_witness :
  let a : gmap string value := {[ "pathname" := VString "/bin/ls" ]} in
  let cfg := Demo.config0 false true false in
  fst (processEvent (H := Samples.envWith false 0) (Samples.stateWith false 0 cfg ∅ Demo.w1)
         Demo.execCtx a []) = None
  /\ fst (processEvent (H := Demo.env) (Demo.state0 cfg ∅ Demo.w1) Demo.execCtx a [])
     = Some "error parsing sched_process_exec args: ctime"%string.
Proof.
  intros a cfg. split.
  - destruct (exec_event_argument_checks (H := Samples.envWith false 0)
                (Samples.stateWith false 0 cfg ∅ Demo.w1) Demo.execCtx a [] eq_refl)
      as (_ & Hon).
    destruct (Hon eq_refl) as (_ & Hpath).
    destruct (Hpath "/bin/ls"%string) as (_ & Hempty & _); [vm_compute; reflexivity|].
    rewrite Hempty; [reflexivity | reflexivity | vm_compute; reflexivity].
  - destruct (exec_event_argument_checks (H := Demo.env)
                (Demo.state0 cfg ∅ Demo.w1) Demo.execCtx a [] eq_refl)
      as (_ & Hon).
    destruct (Hon eq_refl) as (_ & Hpath).
    destruct (Hpath "/bin/ls"%string) as (_ & _ & Hctime); [vm_compute; reflexivity|].
    rewrite Hctime; [reflexivity | reflexivity | vm_compute; discriminate
                    | vm_compute; reflexivity].
Defined.

(** X9 on an exec event for [/bin/ls] with a read-only capture root. *)
Lemma exec_capture_mkdir_failure_witness :
  let s := Samples.stateWith true 4 (Demo.config0 false true true) ∅ Demo.w1 in
  let r := processEvent (H := Samples.envWith true 4) s Demo.execCtx
             (Demo.execArgs 1000) [] in
  fst r = Some "mkdir /tmp/tracee/out/7: read-only file system"%string
  /\ calls (st (snd r)) = [CallMkdirAll "/tmp/tracee/out/7"]
  /\ args (snd r) = Demo.execArgs 1000.
Proof.
  intros s r. subst r.
  rewrite (exec_capture_mkdir_failure (H := Samples.envWith true 4) s Demo.execCtx
             (Demo.execArgs 1000) [] "/bin/ls" 200 1000
             "mkdir /tmp/tracee/out/7: read-only file system" Demo.w1).
  - repeat split.
  - solve_reaches.
  - reflexivity.
  - vm_compute. reflexivity.
Defined.

(** X10 on an exec event of a process that has exited: the copy fails and
    the profile record is there. *)
Lemma exec_profile_updated_regardless_of_copy_witness :
  let s := Demo.state0 Samples.profilingConfig ∅ Demo.w1 in
  let r := processEvent (H := Demo.env) s Demo.exitedCtx (Demo.execArgs 1000) [] in
  fst r <> None
  /\ profiledFiles (st (snd r)) !! "/tmp/tracee/out/7/exec.ls:1000"
     = Some {| Times := 1; FirstExecutionTs := 5000 |}.
Proof.
  intros s r. split; [vm_compute; discriminate|]. subst r.
  rewrite (exec_profile_updated_regardless_of_copy (H := Demo.env) s Demo.exitedCtx
             (Demo.execArgs 1000) [] "/bin/ls" 100 1000).
  - vm_compute. reflexivity.
  - solve_reaches.
  - reflexivity.
  - reflexivity.
Defined.

(** X11 on an exec event of a process that has exited, hash-on-output
    on. *)
Lemma exec_capture_copy_failure_witness :
  let s := Demo.state0 (Demo.config0 false true true) ∅ Demo.w1 in
  let r := processEvent (H := Demo.env) s Demo.exitedCtx (Demo.execArgs 1000) [] in
  fst r = Some "stat /proc/100/root/bin/ls: no such file or directory"%string
  /\ capturedFiles (st (snd r)) = ∅
  /\ count isCopy (calls (st (snd r))) = 1%nat
  /\ args (snd r) = Demo.execArgs 1000.
Proof.
  intros s r.
  destruct (exec_capture_copy_failure (H := Demo.env) s Demo.exitedCtx
              (Demo.execArgs 1000) [] "/bin/ls" 100 1000
              "stat /proc/100/root/bin/ls: no such file or directory" Demo.w1)
    as (Herr & Hrec & Hcount & Hview).
  - solve_reaches.
  - reflexivity.
  - reflexivity.
  - vm_compute. discriminate.
  - vm_compute. reflexivity.
  - split; [exact Herr|]. split; [exact Hrec|]. split; [exact Hcount|].
    exact (f_equal (fun v => snd (fst (fst (fst v)))) Hview).
Defined.

(** X12 on an exec event, a write event and a socket event with
    exec-capture off. *)
Lemma capture_disabled_never_copies_witness :
  let s := Demo.state0 (Demo.config0 true false true) {[ 7 := [200] ]} Demo.w1 in
  let s' := deliver (H := Demo.env) s
              [(Demo.execCtx, Demo.execArgs 1000, []);
               (Demo.writeCtx, Demo.writeArgs, []); (Demo.socketCtx, ∅, [])] in
  capturedFiles s' = ∅ /\ profiledFiles s' = ∅
  /\ count isCopy (calls s') = 0%nat /\ count isMkdirAll (calls s') = 0%nat.
Proof.
  intros s s'.
  apply (capture_disabled_never_copies (H := Demo.env) s). reflexivity.
Defined.

(** X13 on an exec event with hash-on-output off and exec-capture on. *)
Lemma hash_disabled_leaves_events_alone_witness :
  let s := Demo.state0 (Demo.config0 false true false) ∅ Demo.w1 in
  let f' := snd (processEvent (H := Demo.env) s Demo.execCtx (Demo.execArgs 1000) []) in
  ctx f' = Demo.execCtx /\ args f' = Demo.execArgs 1000 /\ argMetas f' = [].
Proof.
  intros s f'.
  destruct (proj1 (hash_disabled_leaves_events_alone (H := Demo.env) s)
              Demo.execCtx (Demo.execArgs 1000) [] (or_introl eq_refl))
    as (Hctx & Hargs & Hmetas & _).
  split; [exact Hctx|]. split; [exact Hargs | exact Hmetas].
Defined.

(** X16 on a socket event whose key is not in the kernel table. *)
Lemma socket_event_is_never_fatal_witness :
  let w : Demo.host := {| Demo.files := []; Demo.tails := [] |} in
  let s := Demo.state0 (Demo.config0 true true true) ∅ w in
  let r := processEvent (H := Demo.env) s Demo.socketCtx (Demo.execArgs 1000) [] in
  fst r = None /\ args (snd r) = Demo.execArgs 1000
  /\ removeSocketTailOnce (st (snd r)) = true.
Proof.
  intros w s r.
  destruct (socket_event_is_never_fatal (H := Demo.env) s Demo.socketCtx
              (Demo.execArgs 1000) [] eq_refl) as (Herr & Hview & _ & Hflag).
  split; [exact Herr|]. split; [|exact Hflag].
  exact (f_equal (fun v => snd (fst v)) Hview).
Defined.

(** X17 on a kernel table that holds the key: the deletion is asked for
    and succeeds. *)
Lemma pruner_reports_only_deletion_errors_witness :
  let s := Demo.state0 (Demo.config0 true true true) ∅ Demo.w1 in
  calls (removeSocketTail (H := Demo.env) s)
  = [CallGetMap "sys_exit_tails"; CallGetValue 41; CallDeleteKey 41].
Proof.
  intros s.
  destruct (proj2 (pruner_reports_only_deletion_errors (H := Demo.env) s) tt)
    as [Hcalls _].
  - reflexivity.
  - reflexivity.
  - exact Hcalls.
Defined.

(** X18 on a write event without [dev]. *)
Lemma processEvent_error_sources_witness :
  let s := Demo.state0 (Demo.config0 true false false) ∅ Demo.w1 in
  let a : gmap string value :=
    {[ "pathname" := VString "/tmp/a"; "inode" := VUint64 100 ]} in
  fst (processEvent (H := Demo.env) s Demo.writeCtx a [])
    = Some "error parsing vfs_write args"%string
  /\ ((EventID Demo.writeCtx = VfsWriteEventID (Env := Demo.env)
       \/ EventID Demo.writeCtx = VfsWritevEventID (Env := Demo.env))
      \/ EventID Demo.writeCtx = SchedProcessExecEventID (Env := Demo.env)).
Proof.
  intros s a.
  assert (Herr : fst (processEvent (H := Demo.env) s Demo.writeCtx a [])
                 = Some "error parsing vfs_write args"%string)
    by (vm_compute; reflexivity).
  split; [exact Herr|].
  destruct (processEvent_error_sources (H := Demo.env) s Demo.writeCtx a []
              "error parsing vfs_write args" Herr) as [(Hid & _) | (Hid & _)].
  - left. exact Hid.
  - right. exact Hid.
Defined.

(** X19 on three executions, at times 10, 20 and 30. *)
Lemma profile_counts_executions_witness :
  fold_left (fun acc t => updateProfile (H := Demo.env) "exec.ls:1000" t acc)
    [10; 20; 30] ∅ !! "exec.ls:1000"
  = Some {| Times := 3; FirstExecutionTs := 10 |}.
Proof.
  destruct (profile_counts_executions (H := Demo.env) "exec.ls:1000" 10 [20; 30] ∅)
    as (_ & Hexact & _).
  - change (2 <= 64). lia.
  - reflexivity.
  - apply Hexact. change (1 + 2 < 2 ^ (64 - 1)). lia.
Defined.

(** X21 on a source that does not exist, and on one that does. *)
Lemma CopyFileByPath_outcome_witness :
  CopyFileByPath (H := Demo.env) "/proc/100/root/bin/ls" "/tmp/out" Demo.w1
  = (Some "stat /proc/100/root/bin/ls: no such file or directory"%string, Demo.w1)
  /\ fst (CopyFileByPath (H := Demo.env) "/proc/200/root/bin/ls" "/tmp/out" Demo.w1)
     = None.
Proof.
  split.
  - apply (proj1 (CopyFileByPath_outcome (H := Demo.env) "/proc/100/root/bin/ls"
                    "/tmp/out" Demo.w1)).
    vm_compute. reflexivity.
  - apply (proj2 (proj2 (CopyFileByPath_outcome (H := Demo.env)
                           "/proc/200/root/bin/ls" "/tmp/out" Demo.w1))).
    exists "/proc/200/root/bin/ls"%string, Demo.w1, "/tmp/out"%string.
    eexists. eexists. repeat split; vm_compute; reflexivity.
Defined.

(** X23 on a write to [/tmp/a] followed by a write to [/tmp/b] on the
    same device and inode. *)
Lemma write_index_keeps_last_path_witness :
  let s := Demo.state0 (Demo.config0 true false false) ∅ Demo.w1 in
  let a2 : gmap string value :=
    {[ "pathname" := VString "/tmp/b"; "dev" := VUint32 8; "inode" := VUint64 100 ]} in
  let r1 := processEvent (H := Demo.env) s Demo.writeCtx Demo.writeArgs [] in
  let r2 := processEvent (H := Demo.env) (st (snd r1)) Demo.writeCtx a2 [] in
  writtenFiles (st (snd r2)) !! "7/write.dev-8.inode-100" = Some "/tmp/b"%string.
Proof.
  intros s a2 r1 r2.
  assert (Hp1 : assertString (Demo.writeArgs !! "pathname") = Some "/tmp/a"%string)
    by (vm_compute; reflexivity).
  assert (Hp2 : assertString (a2 !! "pathname") = Some "/tmp/b"%string)
    by (vm_compute; reflexivity).
  assert (Hd1 : assertUint32 (Demo.writeArgs !! "dev") = Some 8)
    by (vm_compute; reflexivity).
  assert (Hd2 : assertUint32 (a2 !! "dev") = Some 8) by (vm_compute; reflexivity).
  assert (Hi1 : assertUint64 (Demo.writeArgs !! "inode") = Some 100)
    by (vm_compute; reflexivity).
  assert (Hi2 : assertUint64 (a2 !! "inode") = Some 100) by (vm_compute; reflexivity).
  exact (proj2 (proj2 (proj2
           (write_index_keeps_last_path (H := Demo.env) s Demo.writeCtx Demo.writeCtx
              Demo.writeArgs a2 [] [] "/tmp/a" "/tmp/b" 8 100
              eq_refl (or_introl eq_refl) (or_introl eq_refl) eq_refl eq_refl eq_refl
              Hp1 Hp2 Hd1 Hd2 Hi1 Hi2)))).
Defined.

(** X24 on an exec event for [/bin/ls] seen through process 200. *)
Lemma exec_capture_file_system_requests_witness :
  let s := Demo.state0 (Demo.config0 false true false) ∅ Demo.w1 in
  let s' := st (snd (processEvent (H := Demo.env) s Demo.execCtx
                       (Demo.execArgs 1000) [])) in
  List.filter isMkdirAll (calls s') = [CallMkdirAll "/tmp/tracee/out/7"]
  /\ List.filter isCopy (calls s')
     = [CallCopyFileByPath "/proc/200/root/bin/ls" "/tmp/tracee/out/7/exec.5000.ls"].
Proof.
  intros s s'.
  destruct (exec_capture_file_system_requests (H := Demo.env) s Demo.execCtx
              (Demo.execArgs 1000) [] "/bin/ls" 200 1000) as (Hmk & Hcopy).
  - solve_reaches.
  - reflexivity.
  - split; [exact Hmk | exact Hcopy].
Defined.

(** X25 on two exec events for [/bin/ls] at change-time 1000. *)
Lemma exec_hash_reused_by_next_event_witness :
  let s := Demo.state0 (Demo.config0 false false true) ∅ Demo.w1 in
  let r1 := processEvent (H := Demo.env) s Demo.execCtx (Demo.execArgs 1000) [] in
  let r2 := processEvent (H := Demo.env) (st (snd r1)) Demo.execCtx
              (Demo.execArgs 1000) [] in
  count isHash (calls (st (snd r2))) = count isHash (calls (st (snd r1)))
  /\ args (snd r2) !! "sha256" = args (snd r1) !! "sha256".
Proof.
  intros s r1 r2.
  destruct (exec_hash_reused_by_next_event (H := Demo.env) s Demo.execCtx
              Demo.execCtx (Demo.execArgs 1000) (Demo.execArgs 1000) [] []
              "/bin/ls" 200 1000) as (Hcount & Hargs & _).
  - intros k v cache. apply lookup_insert_eq.
  - reflexivity.
  - reflexivity.
  - reflexivity.
  - solve_reaches.
  - solve_reaches.
  - vm_compute. reflexivity.
  - vm_compute. reflexivity.
  - split; [exact Hcount | exact Hargs].
Defined.

(** X26 on an exec event for [/bin/ls] with exec-capture and
    hash-on-output on. *)
Lemma exec_event_leaves_index_and_pruner_alone_witness :
  let s := Demo.state0 (Demo.config0 true true true) ∅ Demo.w1 in
  let s' := st (snd (processEvent (H := Demo.env) s Demo.execCtx
                       (Demo.execArgs 1000) [])) in
  writtenFiles s' = ∅ /\ removeSocketTailOnce s' = false
  /\ List.filter isGetMap (calls s') = [].
Proof.
  intros s s'.
  destruct (exec_event_leaves_index_and_pruner_alone (H := Demo.env) s Demo.execCtx
              (Demo.execArgs 1000) [] eq_refl) as (_ & Hindex & Hflag & Hget & _).
  split; [exact Hindex|]. split; [exact Hflag | exact Hget].
Defined.

